(** * Scoring engine of the Central Lakes Cup ski results site

    A shallow embedding of [src/js/xmlParser.js] (time normalisation:
    [parseTime], [checkStatus], [processRacerTimes]) and of
    [src/js/scoring.js] (individual, team and season scoring).

    Modelling choices.
    - JavaScript numbers are [num]: NaN, the two infinities, or an exact
      rational.  IEEE rounding is not modelled, so [parseFloat] and the
      arithmetic on times are exact where JavaScript rounds to the nearest
      double (for instance [parseTime "0.5005"] is 501 here and 500 in
      JavaScript); the sample times below are whole seconds such as
      "61.00", on which the two agree.  The sign of zero is not modelled.
    - Strings are Stdlib [string]s over ASCII; [toLowerCase],
      [toUpperCase] and [trim] act on the ASCII letters and on the ASCII
      white space characters (TAB, LF, VT, FF, CR, SPACE).
    - Racer objects live in a heap ([store]): scoring mutates them in place,
      and [calculateSeasonStandings] copies them with [{...racer}].  A
      property that was never assigned is [Absent] (JS [undefined]).
    - [Array.prototype.sort] is a stable insertion sort driven by the
      comparator's sign (a NaN result counts as 0, as in ECMAScript's
      SortCompare); for a consistent comparator every stable sort returns
      the same list.
    - A JS object used as a dictionary is an association list in insertion
      order; [Object.values] lists array-index keys first, in numeric order;
      a key naming a property of [Object.prototype] is inherited. *)

From Stdlib Require Import String Ascii List ZArith QArith Qround Bool Lia Permutation Sorted.
Import ListNotations.

Local Open Scope Z_scope.

(* ------------------------------------------------------------------ *)
(** ** JavaScript numbers *)

Inductive num : Type :=
| NaN
| Inf (neg : bool)
| Fin (q : Q).

Definition Qltb (x y : Q) : bool := negb (Qle_bool y x).

Definition num_add (a b : num) : num :=
  match a, b with
  | NaN, _ | _, NaN => NaN
  | Inf x, Inf y => if Bool.eqb x y then Inf x else NaN
  | Inf x, Fin _ => Inf x
  | Fin _, Inf y => Inf y
  | Fin p, Fin q => Fin (p + q)%Q
  end.

Definition num_neg (a : num) : num :=
  match a with
  | NaN => NaN
  | Inf x => Inf (negb x)
  | Fin q => Fin (- q)%Q
  end.

Definition num_sub (a b : num) : num := num_add a (num_neg b).

Definition num_mul (a b : num) : num :=
  match a, b with
  | NaN, _ | _, NaN => NaN
  | Inf x, Inf y => Inf (xorb x y)
  | Inf x, Fin q | Fin q, Inf x =>
      if Qeq_bool q 0 then NaN else Inf (xorb x (Qltb q 0))
  | Fin p, Fin q => Fin (p * q)%Q
  end.

Definition zn (z : Z) : num := Fin (inject_Z z).

(** [Math.round]: the nearest integer, halves rounded up. *)
Definition num_round (a : num) : num :=
  match a with
  | Fin q => zn (Qfloor (q + (1 # 2))%Q)
  | _ => a
  end.

(** Strict equality [===] on numbers. *)
Definition num_eqb (a b : num) : bool :=
  match a, b with
  | Fin p, Fin q => Qeq_bool p q
  | Inf x, Inf y => Bool.eqb x y
  | _, _ => false
  end.

(** [===] on a nullable number ([None] is [null]). *)
Definition nullable_eqb (a b : option num) : bool :=
  match a, b with
  | None, None => true
  | Some x, Some y => num_eqb x y
  | _, _ => false
  end.

(** [ToNumber] of a nullable number, as in [a.totalTime - b.totalTime]. *)
Definition to_number (a : option num) : num :=
  match a with Some n => n | None => zn 0 end.

(** [x < 0] for a comparator result; NaN is neither negative nor positive. *)
Definition num_negative (a : num) : bool :=
  match a with
  | Fin q => Qltb q 0
  | Inf x => x
  | NaN => false
  end.

(* ------------------------------------------------------------------ *)
(** ** [Array.prototype.sort] with a comparator *)

Fixpoint sort_insert {A} (cmp : A -> A -> num) (x : A) (l : list A) : list A :=
  match l with
  | [] => [x]
  | y :: ys => if num_negative (cmp x y) then x :: y :: ys
               else y :: sort_insert cmp x ys
  end.

Definition js_sort {A} (cmp : A -> A -> num) (l : list A) : list A :=
  fold_left (fun acc x => sort_insert cmp x acc) l [].

(* ------------------------------------------------------------------ *)
(** ** Strings *)

Definition is_ws (c : ascii) : bool :=
  let n := nat_of_ascii c in
  (n =? 32)%nat || ((9 <=? n)%nat && (n <=? 13)%nat).

Fixpoint drop_ws (l : list ascii) : list ascii :=
  match l with
  | c :: r => if is_ws c then drop_ws r else l
  | [] => []
  end.

(** [String.prototype.trim]. *)
Definition trim (s : string) : string :=
  string_of_list_ascii (rev (drop_ws (rev (drop_ws (list_ascii_of_string s))))).

Definition map_chars (f : ascii -> ascii) (s : string) : string :=
  string_of_list_ascii (map f (list_ascii_of_string s)).

Definition lower_char (c : ascii) : ascii :=
  let n := nat_of_ascii c in
  if ((65 <=? n)%nat && (n <=? 90)%nat) then ascii_of_nat (n + 32) else c.

Definition upper_char (c : ascii) : ascii :=
  let n := nat_of_ascii c in
  if ((97 <=? n)%nat && (n <=? 122)%nat) then ascii_of_nat (n - 32) else c.

Definition toLowerCase (s : string) : string := map_chars lower_char s.
Definition toUpperCase (s : string) : string := map_chars upper_char s.

(** [s.includes(t)]: [t] occurs in [s]. *)
Fixpoint includes (s t : string) : bool :=
  match s with
  | EmptyString => String.prefix t s
  | String _ r => String.prefix t s || includes r t
  end.

(** [s.split(':')] on the characters of [s]. *)
Fixpoint split_colon (l : list ascii) : list (list ascii) :=
  match l with
  | [] => [[]]
  | c :: r =>
      let parts := split_colon r in
      if Ascii.eqb c ":"%char then [] :: parts
      else match parts with
           | p :: ps => (c :: p) :: ps
           | [] => [[c]]
           end
  end.

(* ------------------------------------------------------------------ *)
(** ** [parseFloat] and [parseInt] *)

(** Value of a character as a digit of base up to 36. *)
Definition digit_value (c : ascii) : option Z :=
  let n := nat_of_ascii c in
  if ((48 <=? n)%nat && (n <=? 57)%nat) then Some (Z.of_nat n - 48)
  else if ((97 <=? n)%nat && (n <=? 122)%nat) then Some (Z.of_nat n - 87)
  else if ((65 <=? n)%nat && (n <=? 90)%nat) then Some (Z.of_nat n - 55)
  else None.

Fixpoint take_radix_digits (radix : Z) (l : list ascii) : list Z * list ascii :=
  match l with
  | c :: r =>
      match digit_value c with
      | Some d => if d <? radix then
                    let '(ds, rest) := take_radix_digits radix r in (d :: ds, rest)
                  else ([], l)
      | None => ([], l)
      end
  | [] => ([], [])
  end.

Definition digits_value (radix : Z) (ds : list Z) : Z :=
  fold_left (fun acc d => acc * radix + d) ds 0.

Definition take_sign (l : list ascii) : bool * list ascii :=
  match l with
  | c :: r => if Ascii.eqb c "-"%char then (true, r)
              else if Ascii.eqb c "+"%char then (false, r)
              else (false, l)
  | [] => (false, [])
  end.

Fixpoint list_prefixb (p l : list ascii) : bool :=
  match p, l with
  | [], _ => true
  | c :: p', d :: l' => Ascii.eqb c d && list_prefixb p' l'
  | _ :: _, [] => false
  end.

Definition infinity_chars : list ascii := list_ascii_of_string "Infinity".

(** Optional exponent part [e[+-]digits]; absent or without digits it is 0. *)
Definition exponent_part (l : list ascii) : Z :=
  match l with
  | c :: r =>
      if Ascii.eqb c "e"%char || Ascii.eqb c "E"%char then
        let '(eneg, r1) := take_sign r in
        let '(ds, _) := take_radix_digits 10 r1 in
        match ds with
        | [] => 0
        | _ => if eneg then - digits_value 10 ds else digits_value 10 ds
        end
      else 0
  | [] => 0
  end.

(** [parseFloat]: the longest prefix (after leading white space) that is a
    decimal literal [[+-](Infinity | d+[.d*][exp] | .d+[exp])]. *)
Definition parseFloat_chars (l0 : list ascii) : num :=
  let '(neg, l1) := take_sign (drop_ws l0) in
  if list_prefixb infinity_chars l1 then Inf neg else
  let '(d1, l2) := take_radix_digits 10 l1 in
  let '(d2, l3) :=
    match l2 with
    | c :: r => if Ascii.eqb c "."%char then take_radix_digits 10 r else ([], l2)
    | [] => ([], [])
    end in
  match d1, d2 with
  | [], [] => NaN
  | _, _ =>
      let m := digits_value 10 (d1 ++ d2) in
      let q := (inject_Z m * Qpower (inject_Z 10) (exponent_part l3 - Z.of_nat (length d2)))%Q in
      Fin (if neg then (- q)%Q else q)
  end.

Definition parseFloat (s : string) : num := parseFloat_chars (list_ascii_of_string s).

(** [parseInt] without radix: a [0x]/[0X] prefix selects base 16. *)
Definition parseInt_chars (l0 : list ascii) : num :=
  let '(neg, l1) := take_sign (drop_ws l0) in
  let '(radix, l2) :=
    match l1 with
    | z :: x :: r =>
        if Ascii.eqb z "0"%char && (Ascii.eqb x "x"%char || Ascii.eqb x "X"%char)
        then (16, r) else (10, l1)
    | _ => (10, l1)
    end in
  let '(ds, _) := take_radix_digits radix l2 in
  match ds with
  | [] => NaN
  | _ => let v := digits_value radix ds in zn (if neg then - v else v)
  end.

Definition parseInt (s : string) : num := parseInt_chars (list_ascii_of_string s).

(* ------------------------------------------------------------------ *)
(** ** Time normaliser ([XMLParser]) *)

(** [parseTime]: [None] is [null]. *)
Definition parseTime (timeStr : string) : option num :=
  (* [!timeStr || timeStr === ''] *)
  if (timeStr =? EmptyString)%string || (timeStr =? "DNF")%string
     || (timeStr =? "DNS")%string || (timeStr =? "DSQ")%string || (timeStr =? "DQ")%string
  then None
  else
    let parts := split_colon (list_ascii_of_string (trim timeStr)) in
    let totalMs :=
      match parts with
      | [p0] => num_mul (parseFloat_chars p0) (zn 1000)
      | [p0; p1] =>
          num_add (num_mul (num_mul (parseInt_chars p0) (zn 60)) (zn 1000))
                  (num_mul (parseFloat_chars p1) (zn 1000))
      | [p0; p1; p2] =>
          num_add (num_add (num_mul (num_mul (parseInt_chars p0) (zn 3600)) (zn 1000))
                           (num_mul (num_mul (parseInt_chars p1) (zn 60)) (zn 1000)))
                  (num_mul (parseFloat_chars p2) (zn 1000))
      | _ => zn 0
      end in
    Some (num_round totalMs).

Inductive TimeStatus := TS_OK | TS_DNF | TS_DSQ.

Definition checkStatus (timeStr statusCode : string) : TimeStatus :=
  if (timeStr =? "DNF")%string || (timeStr =? "DNS")%string then TS_DNF
  else if (timeStr =? "DSQ")%string || (timeStr =? "DQ")%string then TS_DSQ
  else if (statusCode =? "2")%string then TS_DNF
  else if (statusCode =? "3")%string then TS_DSQ
  else TS_OK.

(** One [Time] element of a racer. *)
Record TimeEntry := mkTimeEntry {
  course : string;
  runIndex : nat;
  time : string;
  tstatus : string
}.

Record Processed := mkProcessed {
  p_run1 : option num;
  p_run2 : option num;
  p_totalTime : option num;
  p_status : string;
  p_dnf : bool;
  p_dsq : bool
}.

(** Loop state of [processRacerTimes]: run1, run2, dnf, dsq, status. *)
Definition PState : Type := (option num * option num * bool * bool * string)%type.

Definition update_status (st : PState) (t : TimeEntry) : PState :=
  let '(run1, run2, dnf, dsq, status) := st in
  match checkStatus (time t) (tstatus t) with
  | TS_DNF => (run1, run2, true, dsq, "DNF"%string)
  | TS_DSQ => (run1, run2, dnf, true, "DSQ"%string)
  | TS_OK => st
  end.

(** Dual course: the course number selects the run. *)
Definition dual_step (st : PState) (t : TimeEntry) : PState :=
  let courseNum := parseInt (course t) in
  let timeVal := parseTime (time t) in
  let '(run1, run2, dnf, dsq, status) := update_status st t in
  if num_eqb courseNum (zn 0) then (timeVal, run2, dnf, dsq, status)
  else if num_eqb courseNum (zn 1) then (run1, timeVal, dnf, dsq, status)
  else (run1, run2, dnf, dsq, status).

(** Single course: the order of the [Time] elements selects the run. *)
Definition single_step (st : PState) (t : TimeEntry) : PState :=
  let timeVal := parseTime (time t) in
  let '(run1, run2, dnf, dsq, status) := update_status st t in
  if Nat.eqb (runIndex t) 0 then (timeVal, run2, dnf, dsq, status)
  else if Nat.eqb (runIndex t) 1 then (run1, timeVal, dnf, dsq, status)
  else (run1, run2, dnf, dsq, status).

Definition processRacerTimes (times : list TimeEntry) (raceType : Z) : Processed :=
  let init : PState := (None, None, false, false, "OK"%string) in
  let '(run1, run2, dnf, dsq, status) :=
    if raceType =? 1 then fold_left dual_step times init
    else fold_left single_step times init in
  let totalTime :=
    if negb dnf && negb dsq then
      match run1 with
      | Some r1 => match run2 with
                   | Some r2 => Some (num_add r1 r2)
                   | None => Some r1
                   end
      | None => None
      end
    else None in
  mkProcessed run1 run2 totalTime status dnf dsq.

(* ------------------------------------------------------------------ *)
(** ** Racer records and the heap *)

(** A property of a JS object: never assigned, [null], or a value. *)
Inductive fld (A : Type) : Type :=
| Absent
| Null
| Val (a : A).
Arguments Absent {A}.
Arguments Null {A}.
Arguments Val {A} a.

Record Racer := mkRacer {
  firstName : string;
  lastName : string;
  class : string;
  team : option string;
  gender : option string;
  run1 : option num;
  run2 : option num;
  totalTime : option num;
  status : string;
  dnf : bool;
  dsq : bool;
  run1Rank : fld Z;
  run2Rank : fld Z;
  place : fld Z;
  points : fld Z;
  fieldSize : fld Z;
  run1Count : fld Z;
  run2Count : fld Z;
  teamPlace : fld Z;
  teamPoints : fld Z;
  teamFieldSize : fld Z;
  isScoring : fld bool
}.

(** The field assignments the scoring code performs. *)
Definition set_run1Rank (v : fld Z) (r : Racer) : Racer :=
  mkRacer (firstName r) (lastName r) (class r) (team r) (gender r)
    (run1 r) (run2 r) (totalTime r) (status r) (dnf r) (dsq r)
    v (run2Rank r) (place r) (points r) (fieldSize r) (run1Count r) (run2Count r)
    (teamPlace r) (teamPoints r) (teamFieldSize r) (isScoring r).

Definition set_run2Rank (v : fld Z) (r : Racer) : Racer :=
  mkRacer (firstName r) (lastName r) (class r) (team r) (gender r)
    (run1 r) (run2 r) (totalTime r) (status r) (dnf r) (dsq r)
    (run1Rank r) v (place r) (points r) (fieldSize r) (run1Count r) (run2Count r)
    (teamPlace r) (teamPoints r) (teamFieldSize r) (isScoring r).

(** [racer.place = p; racer.points = q; racer.fieldSize = ...;
     racer.run1Count = ...; racer.run2Count = ...]. *)
Definition set_individual (p q fs c1 c2 : fld Z) (r : Racer) : Racer :=
  mkRacer (firstName r) (lastName r) (class r) (team r) (gender r)
    (run1 r) (run2 r) (totalTime r) (status r) (dnf r) (dsq r)
    (run1Rank r) (run2Rank r) p q fs c1 c2
    (teamPlace r) (teamPoints r) (teamFieldSize r) (isScoring r).

(** [racer.teamPlace = p; racer.teamPoints = q; racer.teamFieldSize = fs]. *)
Definition set_team (p q fs : fld Z) (r : Racer) : Racer :=
  mkRacer (firstName r) (lastName r) (class r) (team r) (gender r)
    (run1 r) (run2 r) (totalTime r) (status r) (dnf r) (dsq r)
    (run1Rank r) (run2Rank r) (place r) (points r) (fieldSize r) (run1Count r) (run2Count r)
    p q fs (isScoring r).

Definition set_isScoring (b : fld bool) (r : Racer) : Racer :=
  mkRacer (firstName r) (lastName r) (class r) (team r) (gender r)
    (run1 r) (run2 r) (totalTime r) (status r) (dnf r) (dsq r)
    (run1Rank r) (run2Rank r) (place r) (points r) (fieldSize r) (run1Count r) (run2Count r)
    (teamPlace r) (teamPoints r) (teamFieldSize r) b.

Definition loc := nat.

(** Racer objects by address; [next] is the first unused address. *)
Record store := mkStore {
  heap : loc -> Racer;
  next : loc
}.

Definition rd (σ : store) (l : loc) : Racer := heap σ l.

Definition wr (σ : store) (l : loc) (r : Racer) : store :=
  mkStore (fun l' => if Nat.eqb l' l then r else heap σ l') (next σ).

(** [obj.f = ...] on the racer at [l]. *)
Definition modify (σ : store) (l : loc) (f : Racer -> Racer) : store :=
  wr σ l (f (rd σ l)).

(** [{...racer}]: a fresh object with the same properties. *)
Definition alloc (σ : store) (r : Racer) : store * loc :=
  (mkStore (fun l' => if Nat.eqb l' (next σ) then r else heap σ l') (S (next σ)), next σ).

(* ------------------------------------------------------------------ *)
(** ** [Scoring]: helpers *)

Definition SCORING_TEAMS : list string :=
  ["St Cloud Breakaways"; "Lakes Area"; "Brainerd"; "Annandale"; "Detroit Lakes"]%string.

(** [isScoringTeam]; [None] is [null] or [undefined]. *)
Definition isScoringTeam (t : option string) : bool :=
  match t with
  | None => false
  | Some EmptyString => false
  | Some team =>
      let normalizedTeam := trim (toLowerCase team) in
      existsb (fun t => includes normalizedTeam (toLowerCase t)
                        || includes (toLowerCase t) normalizedTeam) SCORING_TEAMS
  end.

Definition getPointsForPlace (place fieldSize : Z) : Z :=
  if (place <=? 0) || (place >? fieldSize) then 0 else fieldSize - place + 1.

Definition matchesClass (racerClass filterClass : string) : bool :=
  match racerClass with
  | EmptyString => false
  | _ =>
      let normalized := trim (toUpperCase racerClass) in
      let filter := trim (toUpperCase filterClass) in
      if (filter =? "VARSITY")%string then
        (normalized =? "V")%string || (normalized =? "VM")%string
        || (normalized =? "VF")%string || (normalized =? "VARSITY")%string
      else if (filter =? "JV")%string then
        (normalized =? "JV")%string || (normalized =? "JVM")%string
        || (normalized =? "JVF")%string
      else (normalized =? filter)%string
  end.

(** [r.gender === gender]. *)
Definition gender_is (g : string) (r : Racer) : bool :=
  match gender r with Some g' => (g' =? g)%string | None => false end.

(** [r.totalTime !== null && !r.dnf && !r.dsq]. *)
Definition is_finisher (r : Racer) : bool :=
  match totalTime r with
  | Some _ => negb (dnf r) && negb (dsq r)
  | None => false
  end.

(* ------------------------------------------------------------------ *)
(** ** [calculateRunRankings] *)

(** The [forEach] ranking loop for run 1; [prev] is the element at
    [index - 1]. *)
Fixpoint rank_run1 (σ : store) (rs : list loc) (prev : option loc) (index : nat)
    (curRank : Z) : store :=
  match rs with
  | [] => σ
  | l :: rest =>
      let v := match prev with
               | Some p => if nullable_eqb (run1 (rd σ l)) (run1 (rd σ p))
                           then run1Rank (rd σ p) else Val curRank
               | None => Val curRank
               end in
      rank_run1 (modify σ l (set_run1Rank v)) rest (Some l) (S index)
        (Z.of_nat index + 2)
  end.

Fixpoint rank_run2 (σ : store) (rs : list loc) (prev : option loc) (index : nat)
    (curRank : Z) : store :=
  match rs with
  | [] => σ
  | l :: rest =>
      let v := match prev with
               | Some p => if nullable_eqb (run2 (rd σ l)) (run2 (rd σ p))
                           then run2Rank (rd σ p) else Val curRank
               | None => Val curRank
               end in
      rank_run2 (modify σ l (set_run2Rank v)) rest (Some l) (S index)
        (Z.of_nat index + 2)
  end.

Definition calculateRunRankings (σ : store) (racers : list loc) (g : string)
    : store * (Z * Z) :=
  let genderRacers := filter (fun l => gender_is g (rd σ l)) racers in
  let run1Racers :=
    js_sort (fun a b => num_sub (to_number (run1 (rd σ a))) (to_number (run1 (rd σ b))))
      (filter (fun l => match run1 (rd σ l) with Some _ => true | None => false end)
         genderRacers) in
  let σ1 := rank_run1 σ run1Racers None 0 1 in
  let run2Racers :=
    js_sort (fun a b => num_sub (to_number (run2 (rd σ1 a))) (to_number (run2 (rd σ1 b))))
      (filter (fun l => match run2 (rd σ1 l) with Some _ => true | None => false end)
         genderRacers) in
  let σ2 := rank_run2 σ1 run2Racers None 0 1 in
  (σ2, (Z.of_nat (length run1Racers), Z.of_nat (length run2Racers))).

(* ------------------------------------------------------------------ *)
(** ** [calculateIndividualResults] *)

(** [scoringTeamRacers]: racers of the gender from allow-listed teams. *)
Definition scoringTeamRacers (σ : store) (racers : list loc) (g : string) : list loc :=
  filter (fun l => gender_is g (rd σ l) && isScoringTeam (team (rd σ l))) racers.

Definition genderRacers (σ : store) (racers : list loc) (g : string) : list loc :=
  filter (fun l => gender_is g (rd σ l)) racers.

(** [scoringFinishers] after [sort((a, b) => a.totalTime - b.totalTime)]. *)
Definition scoringFinishers (σ : store) (scoringTeam : list loc) : list loc :=
  js_sort (fun a b => num_sub (to_number (totalTime (rd σ a))) (to_number (totalTime (rd σ b))))
    (filter (fun l => is_finisher (rd σ l)) scoringTeam).

Definition scoringNonFinishers (σ : store) (scoringTeam : list loc) : list loc :=
  filter (fun l => negb (is_finisher (rd σ l))) scoringTeam.

Definition nonScoringRacers (σ : store) (genderRs : list loc) : list loc :=
  filter (fun l => negb (isScoringTeam (team (rd σ l)))) genderRs.

(** The place loop of [calculateIndividualResults]: a racer whose
    [totalTime] is [===] to the previous one's copies its place and points,
    the others get [currentPlace]; [currentPlace] becomes [index + 2]. *)
Fixpoint assign_places (σ : store) (fs : list loc) (prev : option loc) (index : nat)
    (currentPlace fieldSz c1 c2 : Z) : store :=
  match fs with
  | [] => σ
  | l :: rest =>
      let '(p, q) :=
        match prev with
        | Some pr =>
            if nullable_eqb (totalTime (rd σ l)) (totalTime (rd σ pr))
            then (place (rd σ pr), points (rd σ pr))
            else (Val currentPlace, Val (getPointsForPlace currentPlace fieldSz))
        | None => (Val currentPlace, Val (getPointsForPlace currentPlace fieldSz))
        end in
      assign_places (modify σ l (set_individual p q (Val fieldSz) (Val c1) (Val c2)))
        rest (Some l) (S index) (Z.of_nat index + 2) fieldSz c1 c2
  end.

(** [racer.place = null; racer.points = 0; ...] for every racer of [ls]. *)
Definition mark_non_scoring (σ : store) (ls : list loc) (fieldSz c1 c2 : Z) : store :=
  fold_left (fun σ' l => modify σ' l (set_individual Null (Val 0) (Val fieldSz) (Val c1) (Val c2)))
    ls σ.

(** Comparator of the final sort: places ascending, [null] last. *)
Definition place_cmp (σ : store) (a b : loc) : num :=
  match place (rd σ a), place (rd σ b) with
  | Null, Null => zn 0
  | Null, _ => zn 1
  | _, Null => zn (-1)
  | Val x, Val y => zn (x - y)
  | _, _ => NaN
  end.

(** [if (raceClass) results = results.filter(...)]. *)
Definition class_filter (σ : store) (raceClass : option string) (ls : list loc) : list loc :=
  match raceClass with
  | None | Some EmptyString => ls
  | Some c => filter (fun l => matchesClass (class (rd σ l)) c) ls
  end.

Definition calculateIndividualResults (σ : store) (racers : list loc) (g : string)
    (raceClass : option string) : store * list loc :=
  let str := scoringTeamRacers σ racers g in
  let genderFieldSize := Z.of_nat (length str) in
  let gr := genderRacers σ racers g in
  let '(σ1, (c1, c2)) := calculateRunRankings σ racers g in
  let fin := scoringFinishers σ1 str in
  let nonfin := scoringNonFinishers σ1 str in
  let σ2 := assign_places σ1 fin None 0 1 genderFieldSize c1 c2 in
  let σ3 := mark_non_scoring σ2 nonfin genderFieldSize c1 c2 in
  let nonScoring := nonScoringRacers σ3 gr in
  let σ4 := mark_non_scoring σ3 nonScoring genderFieldSize c1 c2 in
  let results := js_sort (place_cmp σ4) (fin ++ nonfin ++ nonScoring) in
  (σ4, class_filter σ4 raceClass results).

(** A freshly parsed racer: no property assigned by scoring yet. *)
Definition parsed_racer (first last cls : string) (tm : option string) (gen : option string)
    (p : Processed) : Racer :=
  mkRacer first last cls tm gen (p_run1 p) (p_run2 p) (p_totalTime p) (p_status p)
    (p_dnf p) (p_dsq p) Absent Absent Absent Absent Absent Absent Absent
    Absent Absent Absent Absent.

Definition blank_racer : Racer :=
  parsed_racer EmptyString EmptyString EmptyString None None
    (mkProcessed None None None "OK"%string false false).

(** A heap holding the given racers at addresses [0 .. n-1]. *)
Definition heap_of (rs : list Racer) : store :=
  mkStore (fun l => nth l rs blank_racer) (length rs).

(* ------------------------------------------------------------------ *)
(** ** JS objects used as dictionaries *)

(** Properties every object inherits from [Object.prototype]. *)
Definition proto_keys : list string :=
  ["constructor"; "__proto__"; "hasOwnProperty"; "isPrototypeOf";
   "propertyIsEnumerable"; "toLocaleString"; "toString"; "valueOf";
   "__defineGetter__"; "__defineSetter__"; "__lookupGetter__"; "__lookupSetter__"]%string.

(** Own properties in insertion order. *)
Definition obj (A : Type) : Type := list (string * A).

Inductive lookup_result (A : Type) : Type :=
| Own (a : A)
| Inherited
| Missing.
Arguments Own {A} a.
Arguments Inherited {A}.
Arguments Missing {A}.

Fixpoint obj_find {A} (o : obj A) (k : string) : option A :=
  match o with
  | [] => None
  | (k', v) :: o' => if (k' =? k)%string then Some v else obj_find o' k
  end.

(** [o[k]]. *)
Definition obj_get {A} (o : obj A) (k : string) : lookup_result A :=
  match obj_find o k with
  | Some v => Own v
  | None => if existsb (String.eqb k) proto_keys then Inherited else Missing
  end.

(** [o[k] = v]: an existing own property keeps its position. *)
Fixpoint obj_set {A} (o : obj A) (k : string) (v : A) : obj A :=
  match o with
  | [] => [(k, v)]
  | (k', v') :: o' => if (k' =? k)%string then (k', v) :: o' else (k', v') :: obj_set o' k v
  end.

(** The value of a canonical array index ([0], or no leading zero, below
    2^32 - 1). *)
Definition array_index (k : string) : option Z :=
  let cs := list_ascii_of_string k in
  match cs with
  | [] => None
  | c :: rest =>
      let '(ds, tail) := take_radix_digits 10 cs in
      match tail with
      | [] =>
          let v := digits_value 10 ds in
          if (Ascii.eqb c "0"%char && negb (Nat.eqb (length rest) 0)) then None
          else if v <? 4294967295 then Some v else None
      | _ => None
      end
  end.

(** [Object.values]: array-index keys ascending, then the other keys in
    insertion order. *)
Definition obj_values {A} (o : obj A) : list A :=
  let idx := filter (fun kv => match array_index (fst kv) with Some _ => true | None => false end) o in
  let other := filter (fun kv => match array_index (fst kv) with Some _ => false | None => true end) o in
  map snd (js_sort (fun a b => match array_index (fst a), array_index (fst b) with
                               | Some x, Some y => zn (x - y)
                               | _, _ => zn 0
                               end) idx ++ other).

(* ------------------------------------------------------------------ *)
(** ** [calculateTeamStandings] *)

Record TeamStanding := mkTeamStanding {
  ts_name : string;
  ts_racers : list loc;
  ts_scoringRacers : list loc;
  ts_totalPoints : Z;
  ts_place : fld Z
}.

(** [x || 0] on a numeric property, and a property read as a number. *)
Definition fld_z (f : fld Z) : Z := match f with Val z => z | _ => 0 end.

Fixpoint assign_team_places (σ : store) (fs : list loc) (prev : option loc) (index : nat)
    (currentPlace fieldSz : Z) : store :=
  match fs with
  | [] => σ
  | l :: rest =>
      let '(p, q) :=
        match prev with
        | Some pr =>
            if nullable_eqb (totalTime (rd σ l)) (totalTime (rd σ pr))
            then (teamPlace (rd σ pr), teamPoints (rd σ pr))
            else (Val currentPlace, Val (getPointsForPlace currentPlace fieldSz))
        | None => (Val currentPlace, Val (getPointsForPlace currentPlace fieldSz))
        end in
      assign_team_places (modify σ l (set_team p q (Val fieldSz)))
        rest (Some l) (S index) (Z.of_nat index + 2) fieldSz
  end.

(** Grouping by [racer.team]; [None] when [teams[racer.team].racers.push]
    throws on an inherited property. *)
Definition group_step (σ : store) (acc : option (obj (list loc))) (l : loc)
    : option (obj (list loc)) :=
  match acc with
  | None => None
  | Some teams =>
      match team (rd σ l) with
      | None | Some EmptyString => Some teams
      | Some k =>
          match obj_get teams k with
          | Own rs => Some (obj_set teams k (rs ++ [l]))
          | Inherited => None
          | Missing => Some (obj_set teams k [l])
          end
      end
  end.

(** [team.racers.sort(...)], [scoringRacers], [isScoring], [totalPoints]. *)
Definition score_team (topN : nat) (σ : store) (name : string) (rs : list loc)
    : store * TeamStanding :=
  let sorted := js_sort (fun a b => zn (fld_z (teamPoints (rd σ b)) - fld_z (teamPoints (rd σ a)))) rs in
  let scoring := firstn topN (filter (fun l => match teamPoints (rd σ l) with
                                               | Val z => z >? 0
                                               | _ => false
                                               end) sorted) in
  let σ' := fold_left (fun σ0 l => modify σ0 l (set_isScoring (Val true))) scoring σ in
  let total := fold_left (fun sum l => sum + fld_z (teamPoints (rd σ' l))) scoring 0 in
  (σ', mkTeamStanding name sorted scoring total Absent).

Fixpoint score_teams (topN : nat) (σ : store) (ts : list (string * list loc))
    : store * list TeamStanding :=
  match ts with
  | [] => (σ, [])
  | (name, rs) :: rest =>
      let '(σ1, t) := score_team topN σ name rs in
      let '(σ2, ts') := score_teams topN σ1 rest in
      (σ2, t :: ts')
  end.

(** [forEach((team, index) => team.place = index + 1)]. *)
Definition number_teams (ts : list TeamStanding) : list TeamStanding :=
  map (fun '(t, i) => mkTeamStanding (ts_name t) (ts_racers t) (ts_scoringRacers t)
                        (ts_totalPoints t) (Val (Z.of_nat i + 1)))
      (combine ts (seq 0 (length ts))).

(** [None] in the second component: a [TypeError] was thrown. *)
Definition calculateTeamStandings (σ : store) (racers : list loc) (g raceClass : string)
    (topN : nat) : store * option (list TeamStanding) :=
  let filtered := filter (fun l => gender_is g (rd σ l) && matchesClass (class (rd σ l)) raceClass)
                    racers in
  let classFieldSize := Z.of_nat (length filtered) in
  let finishers := scoringFinishers σ filtered in
  let σ1 := assign_team_places σ finishers None 0 1 classFieldSize in
  let nonFinishers := scoringNonFinishers σ1 filtered in
  let σ2 := fold_left (fun σ0 l => modify σ0 l (set_team Null (Val 0) (Val classFieldSize)))
              nonFinishers σ1 in
  match fold_left (group_step σ2) (finishers ++ nonFinishers) (Some []) with
  | None => (σ2, None)
  | Some teams =>
      let entries := obj_values (map (fun kv => (fst kv, kv)) teams) in
      let '(σ3, scored) := score_teams topN σ2 entries in
      let standings := js_sort (fun a b => zn (ts_totalPoints b - ts_totalPoints a)) scored in
      (σ3, Some (number_teams standings))
  end.

(* ------------------------------------------------------------------ *)
(** ** [calculateSeasonStandings] *)

Record EventResult := mkEventResult {
  eventName : string;
  eventDate : string;
  er_points : Z;
  er_place : fld Z;
  er_fieldSize : fld Z
}.

(** The accumulated entity: an individual ([e_name] unused) or a team
    (only [e_name] and [eventResults]). *)
Record Entity := mkEntity {
  e_name : string;
  e_firstName : string;
  e_lastName : string;
  e_team : option string;
  e_gender : option string;
  e_class : string;
  eventResults : list EventResult
}.

Definition with_result (e : Entity) (er : EventResult) : Entity :=
  mkEntity (e_name e) (e_firstName e) (e_lastName e) (e_team e) (e_gender e) (e_class e)
    (eventResults e ++ [er]).

Record Event := mkEvent {
  ev_name : string;
  ev_date : string;
  races : list (list loc)
}.

(** [`${racer.team}`]; [None] prints as [null]. *)
Definition team_text (t : option string) : string :=
  match t with Some s => s | None => "null"%string end.

(** [`${racer.firstName.trim()}_${racer.lastName.trim()}_${racer.team}`]. *)
Definition individual_key (r : Racer) : string :=
  (trim (firstName r) ++ "_" ++ trim (lastName r) ++ "_" ++ team_text (team r))%string.

(** [obj[key].eventResults.push(er)], creating the entry when missing. *)
Definition push_result (tot : obj Entity) (key : string) (fresh : Entity) (er : EventResult)
    : option (obj Entity) :=
  match obj_get tot key with
  | Own e => Some (obj_set tot key (with_result e er))
  | Inherited => None
  | Missing => Some (obj_set tot key (with_result fresh er))
  end.

Definition accumulate_individual (ev : Event) (σ : store) (acc : option (obj Entity)) (l : loc)
    : option (obj Entity) :=
  match acc with
  | None => None
  | Some tot =>
      let r := rd σ l in
      match points r with
      | Val 0 => Some tot
      | _ =>
          push_result tot (individual_key r)
            (mkEntity EmptyString (trim (firstName r)) (trim (lastName r)) (team r)
               (gender r) (class r) [])
            (mkEventResult (ev_name ev) (ev_date ev) (fld_z (points r)) (place r) (fieldSize r))
      end
  end.

Definition accumulate_team (ev : Event) (acc : option (obj Entity)) (t : TeamStanding)
    : option (obj Entity) :=
  match acc with
  | None => None
  | Some tot =>
      push_result tot (ts_name t)
        (mkEntity (ts_name t) EmptyString EmptyString None None EmptyString [])
        (mkEventResult (ev_name ev) (ev_date ev) (ts_totalPoints t) (ts_place t) Absent)
  end.

(** [allRacers.push({...racer})] for every racer of every race. *)
Definition copy_racers (σ : store) (ls : list loc) : store * list loc :=
  fold_left (fun '(σ0, acc) l => let '(σ1, l') := alloc σ0 (rd σ0 l) in (σ1, acc ++ [l']))
    ls (σ, []).

(** [raceClass || 'Varsity']. *)
Definition effective_class (raceClass : option string) : string :=
  match raceClass with
  | None | Some EmptyString => "Varsity"%string
  | Some c => c
  end.

Definition Totals : Type := (obj Entity * obj Entity)%type.

(** One iteration of [events.forEach]; [None]: a [TypeError] was thrown. *)
Definition event_step (g : string) (raceClass : option string)
    (st : store * option Totals) (ev : Event) : store * option Totals :=
  match st with
  | (σ, None) => (σ, None)
  | (σ, Some (teamTotals, individualTotals)) =>
      let '(σ1, allRacers) := copy_racers σ (concat (races ev)) in
      let '(σ2, individualResults) := calculateIndividualResults σ1 allRacers g raceClass in
      match fold_left (accumulate_individual ev σ2) individualResults (Some individualTotals) with
      | None => (σ2, None)
      | Some individualTotals' =>
          match calculateTeamStandings σ2 allRacers g (effective_class raceClass) 4 with
          | (σ3, None) => (σ3, None)
          | (σ3, Some teamStandings) =>
              match fold_left (accumulate_team ev) teamStandings (Some teamTotals) with
              | None => (σ3, None)
              | Some teamTotals' => (σ3, Some (teamTotals', individualTotals'))
              end
          end
      end
  end.

Record SeasonEntry := mkSeasonEntry {
  entity : Entity;
  totalPoints : Z;
  countedResults : list EventResult;
  droppedResult : option EventResult;
  eventCount : nat;
  totalEventsInSeason : nat;
  season_place : fld Z
}.

(** The drop rule, lines 341-351 (and 329-339 for teams). *)
Definition finalize (totalEvents : nat) (e : Entity) : SeasonEntry :=
  let sorted := js_sort (fun a b => zn (er_points b - er_points a)) (eventResults e) in
  let shouldDrop := (totalEvents <=? length sorted)%nat && (1 <? totalEvents)%nat in
  let counted := if shouldDrop then removelast sorted else sorted in
  mkSeasonEntry e (fold_left (fun sum r => sum + er_points r) counted 0) counted
    (if shouldDrop then nth_error sorted (length sorted - 1) else None)
    (length sorted) totalEvents Absent.

(** Sort descending by [totalPoints], then [place = index + 1]. *)
Definition rank_entries (es : list SeasonEntry) : list SeasonEntry :=
  let sorted := js_sort (fun a b => zn (totalPoints b - totalPoints a)) es in
  map (fun '(e, i) => mkSeasonEntry (entity e) (totalPoints e) (countedResults e)
                        (droppedResult e) (eventCount e) (totalEventsInSeason e)
                        (Val (Z.of_nat i + 1)))
      (combine sorted (seq 0 (length sorted))).

Record Season := mkSeason {
  teams : list SeasonEntry;
  individuals : list SeasonEntry;
  season_eventCount : nat;
  countedEvents : nat
}.

Definition calculateSeasonStandings (σ : store) (events : list Event) (g : string)
    (raceClass : option string) : store * option Season :=
  match fold_left (event_step g raceClass) events (σ, Some ([], [])) with
  | (σ', None) => (σ', None)
  | (σ', Some (teamTotals, individualTotals)) =>
      let totalEvents := length events in
      let ts := map (finalize totalEvents) (obj_values teamTotals) in
      let is := map (finalize totalEvents) (obj_values individualTotals) in
      (σ', Some (mkSeason (rank_entries ts) (rank_entries is) (length events)
                   (if (1 <? length events)%nat then length events - 1 else length events)))
  end.

(** A season entry with its [place] cleared, as [finalize] leaves it. *)
Definition unplace (x : SeasonEntry) : SeasonEntry :=
  mkSeasonEntry (entity x) (totalPoints x) (countedResults x) (droppedResult x)
    (eventCount x) (totalEventsInSeason x) Absent.

(** [out] is the cohort [cohort] ranked by position: the same entries up to
    their order and [place], descending by [totalPoints], and the entry at
    0-based position [i] has place [i + 1]. *)
Definition ranked_cohort (out cohort : list SeasonEntry) : Prop :=
  length out = length cohort
  /\ (forall i x, nth_error out i = Some x -> season_place x = Val (Z.of_nat i + 1))
  /\ Sorted (fun a b => b <= a) (map totalPoints out)
  /\ Permutation (map unplace out) cohort.

(* ------------------------------------------------------------------ *)
(** ** [getClassCategory] and [getDivisions] *)

(** [getClassCategory]: [null] is [None]. *)
Definition getClassCategory (racerClass : string) : option string :=
  match racerClass with
  | EmptyString => None
  | _ =>
      let normalized := trim (toUpperCase racerClass) in
      if (normalized =? "V")%string || (normalized =? "VM")%string
         || (normalized =? "VF")%string || (normalized =? "VARSITY")%string
      then Some "Varsity"%string
      else if (normalized =? "JV")%string || (normalized =? "JVM")%string
              || (normalized =? "JVF")%string
      then Some "JV"%string
      else None
  end.

Record Division := mkDivision {
  div_gender : string;
  div_class : string;
  label : string
}.

Definition getDivisions : list Division :=
  [mkDivision "M" "Varsity" "Boys Varsity"; mkDivision "F" "Varsity" "Girls Varsity";
   mkDivision "M" "JV" "Boys JV"; mkDivision "F" "JV" "Girls JV"]%string.

(* ------------------------------------------------------------------ *)
(** ** The [Time] elements of a competitor ([parseCompetitors]) *)

(** [racer.times.push({course, runIndex, time: result, status})] for the
    [Time] elements of a [Comp], given as (course, result, status) texts;
    [runIndex] counts them from 0. *)
Definition collect_times (ts : list (string * string * string)) : list TimeEntry :=
  map (fun '(c, r, s, i) => mkTimeEntry c i r s) (combine ts (seq 0 (length ts))).

(* ------------------------------------------------------------------ *)
(** ** [App]: combining the races of an event *)

(** A racer of a parsed race: its [bib] text and its other properties. *)
Definition AppRacer : Type := (string * Racer)%type.

(** [`${racer.bib}_${racer.firstName}_${racer.lastName}_${racer.team}`]. *)
Definition event_racer_key (r : AppRacer) : string :=
  (fst r ++ "_" ++ firstName (snd r) ++ "_" ++ lastName (snd r) ++ "_"
   ++ team_text (team (snd r)))%string.

(** [getEventRacers]: the loop state is [allRacers] and the set [seen]. *)
Definition event_racers_step (st : list AppRacer * list string) (racer : AppRacer)
    : list AppRacer * list string :=
  let '(allRacers, seen) := st in
  let key := event_racer_key racer in
  if existsb (String.eqb key) seen then (allRacers, seen)
  else (allRacers ++ [racer], key :: seen).

Definition getEventRacers (races : list (list AppRacer)) : list AppRacer :=
  fst (fold_left event_racers_step (concat races) ([], [])).

(** [/^(Boys|Girls)\s+/i]: the rest of [l] after the word [w] (given in
    lower case), compared without letter case. *)
Fixpoint strip_word (w l : list ascii) : option (list ascii) :=
  match w, l with
  | [], _ => Some l
  | c :: w', d :: l' => if Ascii.eqb c (lower_char d) then strip_word w' l' else None
  | _ :: _, [] => None
  end.

(** [name.replace(/^(Boys|Girls)\s+/i, '')]. *)
Definition strip_gender_chars (l : list ascii) : list ascii :=
  let after := match strip_word (list_ascii_of_string "boys") l with
               | Some r => Some r
               | None => strip_word (list_ascii_of_string "girls") l
               end in
  match after with
  | Some (c :: r) => if is_ws c then drop_ws r else l
  | _ => l
  end.

(** [stripGenderFromName]; the header name is always a string. *)
Definition stripGenderFromName (name : string) : string :=
  match name with
  | EmptyString => name
  | _ => trim (string_of_list_ascii (strip_gender_chars (list_ascii_of_string name)))
  end.

(** The fields of [parseHeader]'s result that [groupRacesIntoEvents] reads. *)
Record RaceHeader := mkRaceHeader {
  h_name : string;
  h_date : string;
  h_location : string;
  h_discipline : string
}.

Record Race := mkRace {
  header : RaceHeader;
  race_racers : list AppRacer
}.

Record AppEvent := mkAppEvent {
  a_date : string;
  a_races : list Race;
  a_name : string;
  a_location : string;
  a_discipline : string
}.

(** [race.header.date || 'unknown']. *)
Definition race_date (race : Race) : string :=
  match h_date (header race) with
  | EmptyString => "unknown"%string
  | d => d
  end.

(** One iteration of [races.forEach] in [groupRacesIntoEvents]; [None]: a
    [TypeError] was thrown ([eventsByDate[date]] inherited). *)
Definition group_race (acc : option (obj AppEvent)) (race : Race) : option (obj AppEvent) :=
  match acc with
  | None => None
  | Some eventsByDate =>
      let date := race_date race in
      let found :=
        match obj_get eventsByDate date with
        | Own e => Some e
        | Inherited => None
        | Missing => Some (mkAppEvent date [] (stripGenderFromName (h_name (header race)))
                             (h_location (header race)) (h_discipline (header race)))
        end in
      match found with
      | None => None
      | Some e =>
          let e1 := mkAppEvent (a_date e) (a_races e ++ [race]) (a_name e) (a_location e)
                      (a_discipline e) in
          let strippedName := stripGenderFromName (h_name (header race)) in
          let e2 := if negb (strippedName =? EmptyString)%string
                       && (String.length (a_name e1) <? String.length strippedName)%nat
                    then mkAppEvent (a_date e1) (a_races e1) strippedName (a_location e1)
                           (a_discipline e1)
                    else e1 in
          let e3 := if negb (h_location (header race) =? EmptyString)%string
                       && (a_location e2 =? EmptyString)%string
                    then mkAppEvent (a_date e2) (a_races e2) (a_name e2)
                           (h_location (header race)) (a_discipline e2)
                    else e2 in
          Some (obj_set eventsByDate date e3)
      end
  end.

Section Grouping.

(** [new Date(s)] as a number (its time value, NaN when invalid). *)
Variable date_value : string -> num.

(** [groupRacesIntoEvents]: [None] when a [TypeError] is thrown. *)
Definition groupRacesIntoEvents (races : list Race) : option (list AppEvent) :=
  match fold_left group_race races (Some []) with
  | None => None
  | Some eventsByDate =>
      Some (js_sort (fun a b => num_sub (date_value (a_date b)) (date_value (a_date a)))
              (obj_values eventsByDate))
  end.

End Grouping.

(* ------------------------------------------------------------------ *)
(** ** Properties of racers that scoring never assigns *)

Definition base (r : Racer) :=
  (firstName r, lastName r, class r, team r, gender r, run1 r, run2 r,
   totalTime r, status r, dnf r, dsq r).

Definition same_base (σ σ' : store) : Prop := forall l, base (rd σ' l) = base (rd σ l).

(** [σ'] differs from [σ] only at addresses satisfying [P]. *)
Definition frame (P : loc -> Prop) (σ σ' : store) : Prop :=
  next σ' = next σ /\ forall l, ~ P l -> rd σ' l = rd σ l.

(* ------------------------------------------------------------------ *)
(** ** Sample inputs *)

(** A racer as [parseCompetitors] builds it from one [Time] element of a
    single-course race ([raceType] 0, status code 1). *)
Definition sample_racer (first last cls tm gen tok : string) : Racer :=
  parsed_racer first last cls (Some tm) (Some gen)
    (processRacerTimes [mkTimeEntry "0" 0 tok "1"] 0).

(** Four Brainerd boys timed 61.00, 61.00, 62.00 and 63.00 seconds. *)
Definition tie_heap : store :=
  heap_of [sample_racer "Al" "One" "V" "Brainerd" "M" "61.00";
           sample_racer "Bo" "Two" "V" "Brainerd" "M" "61.00";
           sample_racer "Cy" "Three" "V" "Brainerd" "M" "62.00";
           sample_racer "Di" "Four" "V" "Brainerd" "M" "63.00"].

(** Ten boys: six from allow-listed teams, four from another team. *)
Definition mixed_heap : store :=
  heap_of [sample_racer "A" "A" "V" "Brainerd" "M" "61.00";
           sample_racer "B" "B" "V" "Annandale" "M" "62.00";
           sample_racer "C" "C" "JV" "Other Town" "M" "60.00";
           sample_racer "D" "D" "V" "Lakes Area" "M" "DNF";
           sample_racer "E" "E" "V" "Other Town" "M" "64.00";
           sample_racer "F" "F" "JV" "Detroit Lakes" "M" "65.00";
           sample_racer "G" "G" "V" "Other Town" "M" "66.00";
           sample_racer "H" "H" "V" "Brainerd" "M" "67.00";
           sample_racer "I" "I" "JV" "Other Town" "M" "68.00";
           sample_racer "J" "J" "V" "St Cloud Breakaways" "M" "69.00"].

Definition ten : list loc := seq 0 10.

(** Two one-race events; the two athletes each win once. *)
Definition season_heap : store :=
  heap_of [sample_racer "Al" "One" "V" "Brainerd" "M" "61.00";
           sample_racer "Bo" "Two" "V" "Annandale" "M" "62.00";
           sample_racer "Bo" "Two" "V" "Annandale" "M" "61.00";
           sample_racer "Al" "One" "V" "Brainerd" "M" "62.00"].

Definition season_events : list Event :=
  [mkEvent "Opener" "2025-01-06" [[0; 1]%nat]; mkEvent "Finale" "2025-01-13" [[2; 3]%nat]].

(** An athlete with five event results, two of them tied at the minimum. *)
Definition sample_result (name : string) (pts : Z) : EventResult :=
  mkEventResult name "2025-01-06" pts (Val 1) (Val 4).

Definition five_results : list EventResult :=
  [sample_result "E1" 3; sample_result "E2" 1; sample_result "E3" 2;
   sample_result "E4" 1; sample_result "E5" 4].

Definition athlete (rs : list EventResult) : Entity :=
  mkEntity EmptyString "Al" "One" (Some "Brainerd"%string) (Some "M"%string) "V" rs.

(** Two Brainerd racers of gender M: one with the unparseable time [abc],
    one timed 61.00. *)
Definition nan_heap : store :=
  heap_of [sample_racer "Al" "One" "V" "Brainerd" "M" "abc";
           sample_racer "Bo" "Two" "V" "Brainerd" "M" "61.00"].

(** The same athlete in two events, the second time with a trailing space
    after the team name. *)
Definition team_space_heap : store :=
  heap_of [sample_racer "Al" "One" "V" "Brainerd" "M" "61.00";
           sample_racer "Al" "One" "V" "Brainerd " "M" "61.00"].

(** Two athletes of one team whose names join to the same key. *)
Definition underscore_heap : store :=
  heap_of [sample_racer "a_b" "c" "V" "Brainerd" "M" "61.00";
           sample_racer "a" "b_c" "V" "Brainerd" "M" "62.00"].

Definition two_events : list Event :=
  [mkEvent "Opener" "2025-01-06" [[0]%nat]; mkEvent "Finale" "2025-01-13" [[1]%nat]].

(** The standings of the M cohort of a season that does not throw. *)
Definition season_standings_of (σ : store) (events : list Event) : Season :=
  match snd (calculateSeasonStandings σ events "M" None) with
  | Some st => st
  | None => mkSeason [] [] 0 0
  end.

(** ** Auxiliary predicates of the proofs *)

(** [d] is the last element of [l] among those of smallest [key]. *)
Definition last_min {A} (key : A -> Z) (l : list A) (d : A) : Prop :=
  exists pre post, l = pre ++ d :: post
    /\ Forall (fun r => key d <= key r) pre /\ Forall (fun r => key d < key r) post.

(** Loop invariant of the descending insertion sort, [p] being the input
    read so far. *)
Definition desc_inv {A} (key : A -> Z) (p acc : list A) : Prop :=
  Permutation acc p /\ (p <> [] -> exists c d, acc = c ++ [d] /\ last_min key p d).

(** [dnf || dsq] of the loop state of [processRacerTimes]. *)
Definition pflags (st : PState) : bool :=
  let '(_, _, dnf, dsq, _) := st in dnf || dsq.

(** A [Time] element that marks the racer DNF or DSQ. *)
Definition time_bad (t : TimeEntry) : bool :=
  match checkStatus (time t) (tstatus t) with TS_OK => false | _ => true end.

(** The flags and the status of the loop state of [processRacerTimes]. *)
Definition pstat (st : PState) : bool * bool * string :=
  let '(_, _, dnf, dsq, status) := st in (dnf, dsq, status).

(** The two runs of the loop state. *)
Definition pruns (st : PState) : option num * option num :=
  let '(run1, run2, _, _, _) := st in (run1, run2).

(** The event [group_race] stores back once [race] is added to [e]. *)
Definition event_update (e : AppEvent) (race : Race) : AppEvent :=
  let e1 := mkAppEvent (a_date e) (a_races e ++ [race]) (a_name e) (a_location e)
              (a_discipline e) in
  let strippedName := stripGenderFromName (h_name (header race)) in
  let e2 := if negb (strippedName =? EmptyString)%string
               && (String.length (a_name e1) <? String.length strippedName)%nat
            then mkAppEvent (a_date e1) (a_races e1) strippedName (a_location e1)
                   (a_discipline e1)
            else e1 in
  if negb (h_location (header race) =? EmptyString)%string
     && (a_location e2 =? EmptyString)%string
  then mkAppEvent (a_date e2) (a_races e2) (a_name e2)
         (h_location (header race)) (a_discipline e2)
  else e2.

(** The event [group_race] creates for a date not seen before. *)
Definition new_event (race : Race) : AppEvent :=
  mkAppEvent (race_date race) [] (stripGenderFromName (h_name (header race)))
    (h_location (header race)) (h_discipline (header race)).

(** The name, location and discipline of an event, given its races. *)
Definition event_fields (e : AppEvent) : Prop :=
  (exists r rest, a_races e = r :: rest /\ a_discipline e = h_discipline (header r))
  /\ a_location e = match find (fun r => negb (h_location (header r) =? EmptyString)%string)
                              (a_races e) with
                   | Some r => h_location (header r)
                   | None => EmptyString
                   end
  /\ (exists r, In r (a_races e) /\ a_name e = stripGenderFromName (h_name (header r)))
  /\ forall r, In r (a_races e) ->
       (String.length (stripGenderFromName (h_name (header r))) <= String.length (a_name e))%nat.

(** The map [eventsByDate] after the races [done]. *)
Definition events_inv (done : list Race) (o : obj AppEvent) : Prop :=
  NoDup (map fst o)
  /\ (forall r, In r done -> exists e, In (race_date r, e) o)
  /\ forall k e, In (k, e) o ->
       a_date e = k /\ ~ In k proto_keys
       /\ a_races e = filter (fun r => (race_date r =? k)%string) done /\ event_fields e.

(* ================================================================== *)
(** * Lemmas *)

(** ** Numbers *)

Lemma num_negative_zn (z : Z) : num_negative (zn z) = (z <? 0).
Proof.
  unfold num_negative, zn, Qltb, Qle_bool; simpl.
  rewrite Z.mul_1_r.
  destruct (Z.leb_spec 0 z), (Z.ltb_spec z 0); simpl; lia.
Qed.

(** ** Sorting *)

Section Sorting.
Context {A : Type} (cmp : A -> A -> num).

Lemma sort_insert_perm (x : A) (l : list A) : Permutation (sort_insert cmp x l) (x :: l).
Proof.
  induction l as [|y ys IH]; simpl; [reflexivity|].
  destruct (num_negative (cmp x y)); [reflexivity|].
  rewrite IH. apply perm_swap.
Qed.

Lemma fold_sort_perm (l acc : list A) :
  Permutation (fold_left (fun acc x => sort_insert cmp x acc) l acc) (l ++ acc).
Proof.
  revert acc; induction l as [|x l IH]; intros acc; simpl; [reflexivity|].
  rewrite IH, sort_insert_perm. symmetry. apply Permutation_middle.
Qed.

Lemma js_sort_perm (l : list A) : Permutation (js_sort cmp l) l.
Proof. unfold js_sort. rewrite fold_sort_perm, app_nil_r. reflexivity. Qed.

Lemma sort_insert_end (x : A) (l : list A) :
  (forall y, In y l -> num_negative (cmp x y) = false) -> sort_insert cmp x l = l ++ [x].
Proof.
  induction l as [|y ys IH]; intros H; simpl; [reflexivity|].
  rewrite H by (left; reflexivity).
  rewrite IH by (intros z Hz; apply H; right; exact Hz). reflexivity.
Qed.

(** A list without an inversion is left as it is. *)
Lemma js_sort_id (l : list A) :
  ForallOrdPairs (fun a b => num_negative (cmp b a) = false) l -> js_sort cmp l = l.
Proof.
  intros Hl. unfold js_sort.
  enough (forall acc, (forall x y, In x l -> In y acc -> num_negative (cmp x y) = false) ->
            fold_left (fun acc x => sort_insert cmp x acc) l acc = acc ++ l) as H
    by (apply H; intros x y _ []).
  induction Hl as [|a l Ha Hl IH]; intros acc Hacc; simpl; [rewrite app_nil_r; reflexivity|].
  rewrite sort_insert_end by (intros y Hy; apply Hacc; [left; reflexivity | exact Hy]).
  rewrite IH, <- app_assoc; [reflexivity|].
  intros x y Hx Hy. apply in_app_or in Hy as [Hy|[<-|[]]].
  - apply Hacc; [right; exact Hx | exact Hy].
  - rewrite Forall_forall in Ha. apply Ha, Hx.
Qed.

End Sorting.

Lemma ForallOrdPairs_nth {A} (R : A -> A -> Prop) (d : A) (l : list A) :
  (forall i j, (i < j < length l)%nat -> R (nth i l d) (nth j l d)) -> ForallOrdPairs R l.
Proof.
  induction l as [|x l IH]; intros H; constructor.
  - apply Forall_forall. intros y Hy.
    apply In_nth with (d := d) in Hy as (j & Hj & <-).
    apply (H 0%nat (S j)). simpl; lia.
  - apply IH. intros i j Hij. apply (H (S i) (S j)). simpl; lia.
Qed.

(** ** The heap *)

Arguments modify : simpl never.
Arguments rd : simpl never.

Lemma rd_modify_eq σ l f : rd (modify σ l f) l = f (rd σ l).
Proof. unfold rd, modify, wr; simpl. rewrite Nat.eqb_refl. reflexivity. Qed.

Lemma rd_modify_ne σ l l' f : l' <> l -> rd (modify σ l f) l' = rd σ l'.
Proof. intros H. unfold rd, modify, wr; simpl. apply Nat.eqb_neq in H. rewrite H. reflexivity. Qed.

Lemma next_modify σ l f : next (modify σ l f) = next σ.
Proof. reflexivity. Qed.

Lemma same_base_refl σ : same_base σ σ.
Proof. intros l; reflexivity. Qed.

Lemma same_base_trans σ1 σ2 σ3 : same_base σ1 σ2 -> same_base σ2 σ3 -> same_base σ1 σ3.
Proof. intros H1 H2 l. rewrite H2, H1. reflexivity. Qed.

Lemma same_base_modify σ l f :
  (forall r, base (f r) = base r) -> same_base σ (modify σ l f).
Proof.
  intros Hf l'. destruct (Nat.eq_dec l' l) as [->|Hne].
  - rewrite rd_modify_eq. apply Hf.
  - rewrite rd_modify_ne by exact Hne. reflexivity.
Qed.

Lemma frame_refl P σ : frame P σ σ.
Proof. split; reflexivity. Qed.

Lemma frame_trans (P : loc -> Prop) σ1 σ2 σ3 : frame P σ1 σ2 -> frame P σ2 σ3 -> frame P σ1 σ3.
Proof.
  intros [N1 H1] [N2 H2]. split; [congruence|].
  intros l Hl. rewrite H2, H1 by exact Hl. reflexivity.
Qed.

Lemma frame_weaken (P Q : loc -> Prop) σ σ' :
  (forall l, P l -> Q l) -> frame P σ σ' -> frame Q σ σ'.
Proof. intros HPQ [N H]. split; [exact N|]. intros l Hl. apply H. intros Hp. apply Hl, HPQ, Hp. Qed.

Lemma frame_modify (P : loc -> Prop) σ l f : P l -> frame P σ (modify σ l f).
Proof.
  intros Hl. split; [reflexivity|]. intros l' Hl'.
  apply rd_modify_ne. intros ->. exact (Hl' Hl).
Qed.

Ltac base_of H l :=
  let E := fresh "E" in
  pose proof (H l) as E; unfold base in E; injection E; clear E; intros.

Create HintDb setters.
Lemma base_set_run1Rank v r : base (set_run1Rank v r) = base r. Proof. reflexivity. Qed.
Lemma base_set_run2Rank v r : base (set_run2Rank v r) = base r. Proof. reflexivity. Qed.
Lemma base_set_individual p q fs c1 c2 r : base (set_individual p q fs c1 c2 r) = base r.
Proof. reflexivity. Qed.
Lemma base_set_team p q fs r : base (set_team p q fs r) = base r. Proof. reflexivity. Qed.
Lemma base_set_isScoring b r : base (set_isScoring b r) = base r. Proof. reflexivity. Qed.
#[export] Hint Resolve base_set_run1Rank base_set_run2Rank base_set_individual
  base_set_team base_set_isScoring : setters.

(** A loop that modifies each address of a list in turn. *)
Lemma fold_modify_frame (ls : list loc) (F : store -> loc -> Racer -> Racer) σ :
  frame (fun l => In l ls) σ (fold_left (fun σ0 l => modify σ0 l (F σ0 l)) ls σ).
Proof.
  revert σ; induction ls as [|l ls IH]; intros σ; simpl; [apply frame_refl|].
  eapply frame_trans.
  - apply frame_modify with (P := fun l' => In l' (l :: ls)). left; reflexivity.
  - eapply frame_weaken; [|apply IH]. intros l' H; right; exact H.
Qed.

Lemma fold_modify_base (ls : list loc) (F : store -> loc -> Racer -> Racer) σ :
  (forall σ0 l r, base (F σ0 l r) = base r) ->
  same_base σ (fold_left (fun σ0 l => modify σ0 l (F σ0 l)) ls σ).
Proof.
  intros HF. revert σ; induction ls as [|l ls IH]; intros σ; simpl; [apply same_base_refl|].
  eapply same_base_trans; [apply same_base_modify; apply HF | apply IH].
Qed.

Lemma rank_run1_frame rs : forall σ prev idx cr,
  frame (fun l => In l rs) σ (rank_run1 σ rs prev idx cr).
Proof.
  induction rs as [|l rs IH]; intros σ prev idx cr; simpl; [apply frame_refl|].
  eapply frame_trans.
  - apply frame_modify with (P := fun l' => In l' (l :: rs)). left; reflexivity.
  - eapply frame_weaken; [|apply IH]. intros l' H; right; exact H.
Qed.

Lemma rank_run2_frame rs : forall σ prev idx cr,
  frame (fun l => In l rs) σ (rank_run2 σ rs prev idx cr).
Proof.
  induction rs as [|l rs IH]; intros σ prev idx cr; simpl; [apply frame_refl|].
  eapply frame_trans.
  - apply frame_modify with (P := fun l' => In l' (l :: rs)). left; reflexivity.
  - eapply frame_weaken; [|apply IH]. intros l' H; right; exact H.
Qed.

Lemma rank_run1_base rs : forall σ prev idx cr, same_base σ (rank_run1 σ rs prev idx cr).
Proof.
  induction rs as [|l rs IH]; intros σ prev idx cr; simpl; [apply same_base_refl|].
  eapply same_base_trans; [|apply IH]. apply same_base_modify; auto with setters.
Qed.

Lemma rank_run2_base rs : forall σ prev idx cr, same_base σ (rank_run2 σ rs prev idx cr).
Proof.
  induction rs as [|l rs IH]; intros σ prev idx cr; simpl; [apply same_base_refl|].
  eapply same_base_trans; [|apply IH]. apply same_base_modify; auto with setters.
Qed.

Lemma assign_places_frame fs : forall σ prev idx cp fsz c1 c2,
  frame (fun l => In l fs) σ (assign_places σ fs prev idx cp fsz c1 c2).
Proof.
  induction fs as [|l fs IH]; intros σ prev idx cp fsz c1 c2; simpl; [apply frame_refl|].
  destruct (match prev with Some pr => _ | None => _ end) as [p q].
  eapply frame_trans.
  - apply frame_modify with (P := fun l' => In l' (l :: fs)). left; reflexivity.
  - eapply frame_weaken; [|apply IH]. intros l' H; right; exact H.
Qed.

Lemma assign_places_base fs : forall σ prev idx cp fsz c1 c2,
  same_base σ (assign_places σ fs prev idx cp fsz c1 c2).
Proof.
  induction fs as [|l fs IH]; intros σ prev idx cp fsz c1 c2; simpl; [apply same_base_refl|].
  destruct (match prev with Some pr => _ | None => _ end) as [p q].
  eapply same_base_trans; [|apply IH]. apply same_base_modify; auto with setters.
Qed.

Lemma assign_team_places_frame fs : forall σ prev idx cp fsz,
  frame (fun l => In l fs) σ (assign_team_places σ fs prev idx cp fsz).
Proof.
  induction fs as [|l fs IH]; intros σ prev idx cp fsz; simpl; [apply frame_refl|].
  destruct (match prev with Some pr => _ | None => _ end) as [p q].
  eapply frame_trans.
  - apply frame_modify with (P := fun l' => In l' (l :: fs)). left; reflexivity.
  - eapply frame_weaken; [|apply IH]. intros l' H; right; exact H.
Qed.

Lemma mark_non_scoring_frame σ ls fsz c1 c2 :
  frame (fun l => In l ls) σ (mark_non_scoring σ ls fsz c1 c2).
Proof. apply (fold_modify_frame ls (fun _ _ => _)). Qed.

Lemma mark_non_scoring_base σ ls fsz c1 c2 : same_base σ (mark_non_scoring σ ls fsz c1 c2).
Proof. apply (fold_modify_base ls (fun _ _ => _)). auto with setters. Qed.

(** What a non-scoring mark leaves on each racer of the list. *)
Lemma mark_non_scoring_spec ls : forall σ fsz c1 c2 l, In l ls ->
  exists r, rd (mark_non_scoring σ ls fsz c1 c2) l
            = set_individual Null (Val 0) (Val fsz) (Val c1) (Val c2) r.
Proof.
  unfold mark_non_scoring.
  induction ls as [|l0 ls IH] using rev_ind; intros σ fsz c1 c2 l Hl; [destruct Hl|].
  rewrite fold_left_app; simpl.
  destruct (Nat.eq_dec l l0) as [->|Hne].
  - eexists. apply rd_modify_eq.
  - rewrite rd_modify_ne by exact Hne.
    apply in_app_or in Hl as [Hl|[->|[]]]; [|congruence].
    apply IH, Hl.
Qed.

(** ** Reads that only see the unassigned properties *)

Ltac base_rewrite Hb l :=
  base_of Hb l;
  repeat match goal with
         | H : ?f (rd _ l) = ?f (rd _ l) |- _ => rewrite H; clear H
         end.

Lemma sort_insert_ext {A} (cmp cmp' : A -> A -> num) x l :
  (forall a b, cmp a b = cmp' a b) -> sort_insert cmp x l = sort_insert cmp' x l.
Proof.
  intros H; induction l as [|y ys IH]; simpl; [reflexivity|].
  rewrite H, IH. reflexivity.
Qed.

Lemma js_sort_ext {A} (cmp cmp' : A -> A -> num) l :
  (forall a b, cmp a b = cmp' a b) -> js_sort cmp l = js_sort cmp' l.
Proof.
  intros H. unfold js_sort. generalize (@nil A).
  induction l as [|x l IH]; intros acc; simpl; [reflexivity|].
  rewrite (sort_insert_ext cmp cmp') by exact H. apply IH.
Qed.

Section SameBase.
Variables σ σ' : store.
Hypothesis Hb : same_base σ σ'.

Lemma scoringTeamRacers_base racers g : scoringTeamRacers σ' racers g = scoringTeamRacers σ racers g.
Proof. unfold scoringTeamRacers. apply filter_ext. intros l. unfold gender_is. base_rewrite Hb l. reflexivity. Qed.

Lemma genderRacers_base racers g : genderRacers σ' racers g = genderRacers σ racers g.
Proof. unfold genderRacers. apply filter_ext. intros l. unfold gender_is. base_rewrite Hb l. reflexivity. Qed.

Lemma scoringFinishers_base ls : scoringFinishers σ' ls = scoringFinishers σ ls.
Proof.
  unfold scoringFinishers.
  rewrite (js_sort_ext _ (fun a b => num_sub (to_number (totalTime (rd σ a)))
                                           (to_number (totalTime (rd σ b))))).
  - f_equal. apply filter_ext. intros l. unfold is_finisher. base_rewrite Hb l. reflexivity.
  - intros a b. base_rewrite Hb a. base_rewrite Hb b. reflexivity.
Qed.

Lemma scoringNonFinishers_base ls : scoringNonFinishers σ' ls = scoringNonFinishers σ ls.
Proof. unfold scoringNonFinishers. apply filter_ext. intros l. unfold is_finisher. base_rewrite Hb l. reflexivity. Qed.

Lemma nonScoringRacers_base ls : nonScoringRacers σ' ls = nonScoringRacers σ ls.
Proof. unfold nonScoringRacers. apply filter_ext. intros l. base_rewrite Hb l. reflexivity. Qed.

Lemma class_filter_base rc ls : class_filter σ' rc ls = class_filter σ rc ls.
Proof.
  unfold class_filter. destruct rc as [[|c s]|]; try reflexivity.
  apply filter_ext. intros l. base_rewrite Hb l. reflexivity.
Qed.

End SameBase.

Lemma same_base_sym σ σ' : same_base σ σ' -> same_base σ' σ.
Proof. intros H l. symmetry. apply H. Qed.

Lemma calculateRunRankings_frame σ racers g :
  frame (fun l => In l racers) σ (fst (calculateRunRankings σ racers g))
  /\ same_base σ (fst (calculateRunRankings σ racers g)).
Proof.
  unfold calculateRunRankings; simpl. split.
  - eapply frame_trans; (eapply frame_weaken; [|first [apply rank_run1_frame | apply rank_run2_frame]]);
      intros l Hl; apply (Permutation_in _ (js_sort_perm _ _)) in Hl;
      apply filter_In in Hl as [Hl _]; unfold genderRacers in Hl; apply filter_In in Hl as [Hl _]; exact Hl.
  - eapply same_base_trans; [apply rank_run1_base | apply rank_run2_base].
Qed.

(** ** The phases of [calculateIndividualResults] *)

Lemma calculateIndividualResults_phases σ racers g rc :
  let str := scoringTeamRacers σ racers g in
  let fsz := Z.of_nat (length str) in
  let F := scoringFinishers σ str in
  let NF := scoringNonFinishers σ str in
  let NS := nonScoringRacers σ (genderRacers σ racers g) in
  exists σ1 c1 c2,
    frame (fun l => In l racers) σ σ1 /\ same_base σ σ1 /\
    calculateIndividualResults σ racers g rc =
      (mark_non_scoring (mark_non_scoring (assign_places σ1 F None 0 1 fsz c1 c2) NF fsz c1 c2)
         NS fsz c1 c2,
       class_filter σ rc
         (js_sort (place_cmp (mark_non_scoring (mark_non_scoring
                    (assign_places σ1 F None 0 1 fsz c1 c2) NF fsz c1 c2) NS fsz c1 c2))
                  (F ++ NF ++ NS))).
Proof.
  intros str fsz F NF NS.
  pose proof (calculateRunRankings_frame σ racers g) as [Hf Hb].
  unfold calculateIndividualResults.
  destruct (calculateRunRankings σ racers g) as [σ1 [c1 c2]]; simpl in Hf, Hb.
  exists σ1, c1, c2. split; [exact Hf|]. split; [exact Hb|].
  assert (Hb4 : forall σ4, same_base σ1 σ4 -> same_base σ σ4)
    by (intros σ4 H; eapply same_base_trans; eassumption).
  rewrite !scoringFinishers_base with (σ := σ) (σ' := σ1) by exact Hb.
  rewrite !scoringNonFinishers_base with (σ := σ) (σ' := σ1) by exact Hb.
  rewrite nonScoringRacers_base with (σ := σ).
  2:{ apply Hb4. eapply same_base_trans; [apply assign_places_base|apply mark_non_scoring_base]. }
  rewrite class_filter_base with (σ := σ); [reflexivity|].
  apply Hb4. eapply same_base_trans; [apply assign_places_base|].
  eapply same_base_trans; apply mark_non_scoring_base.
Qed.

Lemma scoringTeamRacers_In σ racers g l :
  In l (scoringTeamRacers σ racers g) <->
  In l racers /\ gender_is g (rd σ l) = true /\ isScoringTeam (team (rd σ l)) = true.
Proof. unfold scoringTeamRacers. rewrite filter_In, andb_true_iff. tauto. Qed.

Lemma scoringFinishers_In σ ls l :
  In l (scoringFinishers σ ls) <-> In l ls /\ is_finisher (rd σ l) = true.
Proof.
  unfold scoringFinishers. split.
  - intros H. apply (Permutation_in _ (js_sort_perm _ _)) in H. apply filter_In in H. exact H.
  - intros H. apply (Permutation_in _ (Permutation_sym (js_sort_perm _ _))). apply filter_In. exact H.
Qed.

Lemma scoringNonFinishers_In σ ls l :
  In l (scoringNonFinishers σ ls) <-> In l ls /\ is_finisher (rd σ l) = false.
Proof. unfold scoringNonFinishers. rewrite filter_In, negb_true_iff. tauto. Qed.

Lemma nonScoringRacers_In σ racers g l :
  In l (nonScoringRacers σ (genderRacers σ racers g)) <->
  In l racers /\ gender_is g (rd σ l) = true /\ isScoringTeam (team (rd σ l)) = false.
Proof.
  unfold nonScoringRacers, genderRacers. rewrite !filter_In, negb_true_iff. tauto.
Qed.

(** ** The place loop *)

Lemma totalTime_modify_individual σ l p q fs c1 c2 x :
  totalTime (rd (modify σ l (set_individual p q fs c1 c2)) x) = totalTime (rd σ x).
Proof.
  destruct (Nat.eq_dec x l) as [->|Hne].
  - rewrite rd_modify_eq. reflexivity.
  - rewrite rd_modify_ne by exact Hne. reflexivity.
Qed.

(** Racer [i] of the sorted finishers copies the place and points of racer
    [i - 1] when their times are [===]; otherwise it gets the current
    place, which is [index + 1] from the second racer on. *)
Lemma assign_places_spec fs : forall σ prev idx cp fsz c1 c2,
  NoDup fs -> (forall p, prev = Some p -> ~ In p fs) ->
  forall i, (i < length fs)%nat ->
  let σ' := assign_places σ fs prev idx cp fsz c1 c2 in
  let l := nth i fs 0%nat in
  let cpi := match i with O => cp | _ => Z.of_nat (idx + i) + 1 end in
  let pr := match i with O => prev | S j => Some (nth j fs 0%nat) end in
  (place (rd σ' l), points (rd σ' l)) =
    match pr with
    | Some p => if nullable_eqb (totalTime (rd σ l)) (totalTime (rd σ p))
                then (place (rd σ' p), points (rd σ' p))
                else (Val cpi, Val (getPointsForPlace cpi fsz))
    | None => (Val cpi, Val (getPointsForPlace cpi fsz))
    end.
Proof.
  induction fs as [|l0 rest IH]; intros σ prev idx cp fsz c1 c2 Hnd Hprev i Hi;
    simpl in Hi; [lia|].
  inversion Hnd as [|? ? Hl0 Hnd']; subst.
  cbv zeta. cbn [assign_places].
  destruct (match prev with Some pr => _ | None => _ end) as [p q] eqn:Hpq.
  set (σ1 := modify σ l0 (set_individual p q (Val fsz) (Val c1) (Val c2))).
  pose proof (assign_places_frame rest σ1 (Some l0) (S idx) (Z.of_nat idx + 2) fsz c1 c2)
    as [_ Hfr].
  destruct i as [|j].
  - cbn [nth]. rewrite Hfr by exact Hl0. unfold σ1. rewrite rd_modify_eq. simpl.
    destruct prev as [pr|]; [|congruence].
    assert (Hpr : pr <> l0 /\ ~ In pr rest)
      by (specialize (Hprev pr eq_refl); split;
          [intros ->; apply Hprev; left; reflexivity | intros H; apply Hprev; right; exact H]).
    rewrite Hfr by apply Hpr. unfold σ1. rewrite rd_modify_ne by apply Hpr. symmetry; exact Hpq.
  - specialize (IH σ1 (Some l0) (S idx) (Z.of_nat idx + 2) fsz c1 c2 Hnd').
    specialize (IH ltac:(intros p' [= <-]; exact Hl0) j ltac:(lia)).
    cbv zeta in IH. cbn [nth]. rewrite IH. unfold σ1.
    destruct j as [|j]; cbn [nth]; rewrite !totalTime_modify_individual.
    + replace (Z.of_nat (idx + 1) + 1) with (Z.of_nat idx + 2) by lia. reflexivity.
    + replace (Z.of_nat (idx + S (S j)) + 1) with (Z.of_nat (S idx + S j) + 1) by lia.
      reflexivity.
Qed.

Lemma getPointsForPlace_in_field p fsz :
  1 <= p <= fsz -> getPointsForPlace p fsz = fsz - p + 1.
Proof.
  intros H. unfold getPointsForPlace.
  destruct (Z.leb_spec p 0), (Z.gtb_spec p fsz); simpl; lia.
Qed.

(** The place loop as [calculateIndividualResults] runs it: places are
    [1, 1, 3, ...] style, and points are [fieldSize - place + 1]. *)
Lemma assign_places_top fs σ fsz c1 c2 :
  NoDup fs -> Z.of_nat (length fs) <= fsz ->
  let σ' := assign_places σ fs None 0 1 fsz c1 c2 in
  forall i, (i < length fs)%nat ->
    place (rd σ' (nth i fs 0%nat)) =
      match i with
      | O => Val 1
      | S j => if nullable_eqb (totalTime (rd σ (nth i fs 0%nat))) (totalTime (rd σ (nth j fs 0%nat)))
               then place (rd σ' (nth j fs 0%nat)) else Val (Z.of_nat i + 1)
      end
    /\ exists p, place (rd σ' (nth i fs 0%nat)) = Val p
                 /\ points (rd σ' (nth i fs 0%nat)) = Val (fsz - p + 1)
                 /\ 1 <= p <= Z.of_nat i + 1.
Proof.
  intros Hnd Hlen σ'.
  assert (Hspec := fun i Hi => assign_places_spec fs σ None 0 1 fsz c1 c2 Hnd
                                 ltac:(intros p [=]) i Hi).
  induction i as [|j IH]; intros Hi; specialize (Hspec _ Hi); cbv zeta in Hspec.
  - injection Hspec as Hp Hq. fold σ' in Hp, Hq. split; [exact Hp|].
    exists 1. rewrite Hp, Hq, getPointsForPlace_in_field by lia. repeat split; lia.
  - destruct (IH ltac:(lia)) as [_ (p & Hp & Hq & Hb)].
    fold σ' in Hspec. cbn [Nat.add] in Hspec.
    destruct (nullable_eqb _ _).
    + injection Hspec as Hp' Hq'. split; [exact Hp'|].
      exists p. rewrite Hp', Hq', Hp, Hq. repeat split; lia.
    + injection Hspec as Hp' Hq'. split; [exact Hp'|].
      exists (Z.of_nat (S j) + 1). rewrite Hp', Hq', getPointsForPlace_in_field by lia.
      repeat split; lia.
Qed.

(** ** Membership facts of the individual phases *)

Lemma NoDup_scoringFinishers σ racers g :
  NoDup racers -> NoDup (scoringFinishers σ (scoringTeamRacers σ racers g)).
Proof.
  intros H. unfold scoringFinishers.
  eapply Permutation_NoDup; [symmetry; apply js_sort_perm|].
  apply NoDup_filter. unfold scoringTeamRacers. apply NoDup_filter, H.
Qed.

Lemma length_scoringFinishers σ ls :
  length (scoringFinishers σ ls) = length (filter (fun l => is_finisher (rd σ l)) ls).
Proof. unfold scoringFinishers. apply Permutation_length, js_sort_perm. Qed.

(** What each group of racers holds when [calculateIndividualResults]
    returns. *)
Lemma individual_final σ racers g rc :
  let str := scoringTeamRacers σ racers g in
  let fsz := Z.of_nat (length str) in
  let F := scoringFinishers σ str in
  let NF := scoringNonFinishers σ str in
  let NS := nonScoringRacers σ (genderRacers σ racers g) in
  let σ' := fst (calculateIndividualResults σ racers g rc) in
  exists σ1 c1 c2,
    same_base σ σ1 /\
    (forall x, In x F -> rd σ' x = rd (assign_places σ1 F None 0 1 fsz c1 c2) x) /\
    (forall x, In x NF \/ In x NS ->
       exists r, rd σ' x = set_individual Null (Val 0) (Val fsz) (Val c1) (Val c2) r) /\
    frame (fun l => In l racers) σ σ' /\ same_base σ σ' /\
    snd (calculateIndividualResults σ racers g rc)
      = class_filter σ rc (js_sort (place_cmp σ') (F ++ NF ++ NS)).
Proof.
  intros str fsz F NF NS σ'.
  destruct (calculateIndividualResults_phases σ racers g rc) as (σ1 & c1 & c2 & Hf1 & Hb1 & Heq).
  fold str fsz F NF NS in Heq.
  unfold σ'. rewrite Heq. cbn [fst snd].
  set (σ2 := assign_places σ1 F None 0 1 fsz c1 c2).
  set (σ3 := mark_non_scoring σ2 NF fsz c1 c2).
  set (σ4 := mark_non_scoring σ3 NS fsz c1 c2).
  pose proof (mark_non_scoring_frame σ2 NF fsz c1 c2) as [N3 H3]; fold σ3 in N3, H3.
  pose proof (mark_non_scoring_frame σ3 NS fsz c1 c2) as [N4 H4]; fold σ4 in N4, H4.
  pose proof (assign_places_frame F σ1 None 0 1 fsz c1 c2) as [N2 H2]; fold σ2 in N2, H2.
  assert (HinF : forall x, In x F -> In x str /\ is_finisher (rd σ x) = true)
    by (intros x; apply scoringFinishers_In).
  assert (HinNF : forall x, In x NF -> In x str /\ is_finisher (rd σ x) = false)
    by (intros x; apply scoringNonFinishers_In).
  assert (HinNS : forall x, In x NS -> In x racers /\ gender_is g (rd σ x) = true
                                     /\ isScoringTeam (team (rd σ x)) = false)
    by (intros x; apply nonScoringRacers_In).
  assert (Hstr : forall x, In x str -> In x racers /\ gender_is g (rd σ x) = true
                                     /\ isScoringTeam (team (rd σ x)) = true)
    by (intros x; apply scoringTeamRacers_In).
  exists σ1, c1, c2. split; [exact Hb1|]. split; [|split; [|split; [|split]]].
  - intros x Hx. rewrite H4, H3; [reflexivity| |].
    + intros Hn. apply HinF in Hx as [_ Hx]. apply HinNF in Hn as [_ Hn]. congruence.
    + intros Hn. apply HinF in Hx as [Hx _]. apply Hstr in Hx as (_ & _ & Hx).
      apply HinNS in Hn as (_ & _ & Hn). congruence.
  - intros x [Hx|Hx].
    + rewrite H4.
      * apply mark_non_scoring_spec, Hx.
      * intros Hn. apply HinNF in Hx as [Hx _]. apply Hstr in Hx as (_ & _ & Hx).
        apply HinNS in Hn as (_ & _ & Hn). congruence.
    + apply mark_non_scoring_spec, Hx.
  - eapply frame_trans; [exact Hf1|].
    assert (Hsub : forall x, In x F \/ In x NF \/ In x NS -> In x racers).
    { intros x [Hx|[Hx|Hx]].
      - apply HinF in Hx as [Hx _]. apply Hstr, Hx.
      - apply HinNF in Hx as [Hx _]. apply Hstr, Hx.
      - apply HinNS, Hx. }
    split; [congruence|]. intros x Hx.
    rewrite H4, H3, H2; [reflexivity| | |]; intros Hn; apply Hx, Hsub; tauto.
  - eapply same_base_trans; [exact Hb1|].
    eapply same_base_trans; [apply assign_places_base|].
    eapply same_base_trans; apply mark_non_scoring_base.
  - reflexivity.
Qed.

(** Every racer the place loop visits ends with [fieldSize] set. *)
Lemma assign_places_fieldSize fs : forall σ prev idx cp fsz c1 c2 x,
  In x fs -> fieldSize (rd (assign_places σ fs prev idx cp fsz c1 c2) x) = Val fsz.
Proof.
  induction fs as [|l0 rest IH]; intros σ prev idx cp fsz c1 c2 x Hx; [destruct Hx|].
  cbn [assign_places].
  destruct (match prev with Some pr => _ | None => _ end) as [p q].
  destruct (in_dec Nat.eq_dec x rest) as [Hr|Hr]; [apply IH, Hr|].
  destruct Hx as [->|Hx]; [|contradiction].
  pose proof (assign_places_frame rest (modify σ x (set_individual p q (Val fsz) (Val c1) (Val c2)))
                (Some x) (S idx) (Z.of_nat idx + 2) fsz c1 c2) as [_ Hfr].
  rewrite Hfr by exact Hr. rewrite rd_modify_eq. reflexivity.
Qed.

(** Splitting a filtered list by a second predicate. *)
Lemma length_filter_split {A} (f h : A -> bool) (l : list A) :
  (length (filter (fun x => f x && h x) l) + length (filter (fun x => negb (h x)) (filter f l))
   = length (filter f l))%nat.
Proof.
  induction l as [|a l IH]; [reflexivity|].
  cbn [filter]. destruct (f a) eqn:E1, (h a) eqn:E2; cbn [filter andb negb length];
    rewrite ?E2; cbn [negb length]; lia.
Qed.

Lemma length_filter_negb {A} (f : A -> bool) (l : list A) :
  (length (filter f l) + length (filter (fun x => negb (f x)) l) = length l)%nat.
Proof.
  induction l as [|a l IH]; [reflexivity|].
  simpl. destruct (f a); simpl; lia.
Qed.

(** ** Sorting descending by an integer key *)

Section KeySort.
Context {A : Type} (key : A -> Z).

Lemma last_min_le l d : last_min key l d -> forall r, In r l -> key d <= key r.
Proof.
  intros (pre & post & -> & Hpre & Hpost) r Hr.
  rewrite Forall_forall in Hpre, Hpost.
  apply in_app_or in Hr as [Hr|[<-|Hr]]; [apply Hpre, Hr|lia|].
  specialize (Hpost r Hr). lia.
Qed.

Lemma sort_insert_desc_keep x c d :
  (exists y, In y (c ++ [d]) /\ key y < key x) ->
  exists c', sort_insert (fun a b => zn (key b - key a)) x (c ++ [d]) = c' ++ [d].
Proof.
  induction c as [|y c IH]; intros (z & Hz & Hlt); cbn [app sort_insert];
    rewrite num_negative_zn.
  - destruct Hz as [->|[]]. destruct (Z.ltb_spec (key z - key x) 0); [|lia].
    exists [x]. reflexivity.
  - destruct (Z.ltb_spec (key y - key x) 0).
    + exists (x :: y :: c). reflexivity.
    + destruct Hz as [<-|Hz]; [lia|].
      destruct IH as [c' ->]; [exists z; split; assumption|].
      exists (y :: c'). reflexivity.
Qed.

Lemma desc_inv_step p acc x :
  desc_inv key p acc -> desc_inv key (p ++ [x]) (sort_insert (fun a b => zn (key b - key a)) x acc).
Proof.
  intros [Hperm Hlast]. split.
  { rewrite sort_insert_perm, Hperm. apply Permutation_cons_append. }
  intros _. destruct p as [|p0 p'].
  { apply Permutation_sym, Permutation_nil in Hperm as ->. exists [], x. split; [reflexivity|].
    exists [], []. repeat split; constructor. }
  destruct (Hlast ltac:(discriminate)) as (c & d & -> & Hd).
  pose proof (last_min_le _ _ Hd) as Hmin.
  destruct (existsb (fun y => key y <? key x) (c ++ [d])) eqn:Hex.
  - apply existsb_exists in Hex as (y & Hy & Hlt). apply Z.ltb_lt in Hlt.
    destruct (sort_insert_desc_keep x c d ltac:(exists y; split; assumption)) as [c' ->].
    exists c', d. split; [reflexivity|].
    destruct Hd as (pre & post & Heq & Hpre & Hpost).
    exists pre, (post ++ [x]). rewrite Heq, <- app_assoc. split; [reflexivity|].
    split; [exact Hpre|]. apply Forall_app. split; [exact Hpost|]. constructor; [|constructor].
    assert (key d <= key y)
      by (apply Hmin; eapply Permutation_in; [exact Hperm|exact Hy]). lia.
  - rewrite sort_insert_end.
    + exists (c ++ [d]), x. split; [reflexivity|].
      exists (p0 :: p'), []. split; [reflexivity|]. split; [|constructor].
      apply Forall_forall. intros r Hr.
      apply (Permutation_in _ (Permutation_sym Hperm)) in Hr.
      destruct (Z.ltb_spec (key r) (key x)); [|lia].
      assert (existsb (fun y => key y <? key x) (c ++ [d]) = true)
        by (apply existsb_exists; exists r; split; [exact Hr|apply Z.ltb_lt; lia]).
      congruence.
    + intros y Hy. rewrite num_negative_zn. apply Z.ltb_ge.
      destruct (Z.ltb_spec (key y) (key x)); [|lia].
      assert (existsb (fun y => key y <? key x) (c ++ [d]) = true)
        by (apply existsb_exists; exists y; split; [exact Hy|apply Z.ltb_lt; lia]).
      congruence.
Qed.

Lemma desc_inv_fold l : forall p acc, desc_inv key p acc ->
  desc_inv key (p ++ l) (fold_left (fun acc x => sort_insert (fun a b => zn (key b - key a)) x acc) l acc).
Proof.
  induction l as [|x l IH]; intros p acc H; simpl; [rewrite app_nil_r; exact H|].
  replace (p ++ x :: l) with ((p ++ [x]) ++ l) by (rewrite <- app_assoc; reflexivity).
  apply IH, desc_inv_step, H.
Qed.

(** The descending sort is a permutation whose last element is the last
    minimum of the input. *)
Lemma js_sort_desc_last l : l <> [] ->
  exists c d, js_sort (fun a b => zn (key b - key a)) l = c ++ [d] /\ last_min key l d.
Proof.
  intros Hne. pose proof (desc_inv_fold l [] [] ltac:(split; [constructor|congruence])) as [_ H].
  apply H, Hne.
Qed.

Lemma sort_insert_desc_sorted x acc :
  Sorted (fun a b => key b <= key a) acc ->
  Sorted (fun a b => key b <= key a) (sort_insert (fun a b => zn (key b - key a)) x acc).
Proof.
  induction acc as [|y ys IH]; intros Hs; cbn [sort_insert]; [repeat constructor|].
  rewrite num_negative_zn. destruct (Z.ltb_spec (key y - key x) 0).
  - constructor; [exact Hs|]. constructor. lia.
  - apply Sorted_inv in Hs as [Hs Hh]. constructor; [apply IH, Hs|].
    destruct ys as [|z zs]; cbn [sort_insert]; [constructor; lia|].
    rewrite num_negative_zn. destruct (Z.ltb_spec (key z - key x) 0); constructor; [lia|].
    inversion Hh; assumption.
Qed.

Lemma js_sort_desc_sorted l :
  Sorted (fun a b => key b <= key a) (js_sort (fun a b => zn (key b - key a)) l).
Proof.
  unfold js_sort. enough (forall acc, Sorted (fun a b => key b <= key a) acc ->
    Sorted (fun a b => key b <= key a)
      (fold_left (fun acc x => sort_insert (fun a b => zn (key b - key a)) x acc) l acc))
    by (apply H; constructor).
  induction l as [|x l IH]; intros acc Hs; simpl; [exact Hs|].
  apply IH, sort_insert_desc_sorted, Hs.
Qed.

End KeySort.

Lemma Sorted_app_l {A} (R : A -> A -> Prop) (l1 l2 : list A) :
  Sorted R (l1 ++ l2) -> Sorted R l1.
Proof.
  induction l1 as [|a l1 IH]; intros H; [constructor|].
  apply Sorted_inv in H as [H Hh]. constructor; [apply IH, H|].
  destruct l1; constructor. inversion Hh; assumption.
Qed.

(** The [reduce] of the season totals, as a sum. *)
Lemma fold_points_sum (l : list EventResult) (a : Z) :
  fold_left (fun sum r => sum + er_points r) l a = a + fold_right (fun r s => er_points r + s) 0 l.
Proof.
  revert a; induction l as [|r l IH]; intros a; simpl; [lia|]. rewrite IH. lia.
Qed.

Lemma sum_points_perm (l l' : list EventResult) :
  Permutation l l' ->
  fold_right (fun r s => er_points r + s) 0 l = fold_right (fun r s => er_points r + s) 0 l'.
Proof. induction 1; simpl; lia. Qed.

Lemma rank_entries_In es x :
  In x (rank_entries es) ->
  exists y, In y es /\ entity x = entity y /\ totalPoints x = totalPoints y
    /\ countedResults x = countedResults y /\ droppedResult x = droppedResult y
    /\ eventCount x = eventCount y /\ totalEventsInSeason x = totalEventsInSeason y.
Proof.
  unfold rank_entries. intros Hx. apply in_map_iff in Hx as ([y i] & <- & Hyi).
  apply in_combine_l in Hyi.
  apply (Permutation_in _ (js_sort_perm _ _)) in Hyi.
  exists y. repeat split; [exact Hyi].
Qed.

(** Every entry of the season standings is an accumulated entity run
    through [finalize]. *)
Lemma season_entries_finalized σ events g rc σ' S x :
  calculateSeasonStandings σ events g rc = (σ', Some S) ->
  In x (teams S) \/ In x (individuals S) ->
  exists e, let f := finalize (length events) e in
    entity x = entity f /\ totalPoints x = totalPoints f /\ countedResults x = countedResults f
    /\ droppedResult x = droppedResult f /\ eventCount x = eventCount f
    /\ totalEventsInSeason x = totalEventsInSeason f.
Proof.
  unfold calculateSeasonStandings.
  destruct (fold_left _ events _) as [σ0 [[tt it]|]]; [|discriminate].
  intros [= _ <-] Hx. cbn [teams individuals] in Hx.
  destruct Hx as [Hx|Hx]; apply rank_entries_In in Hx as (y & Hy & Hyx);
    apply in_map_iff in Hy as (e & <- & _); exists e; exact Hyx.
Qed.

(** ** The DNF and DSQ flags of [processRacerTimes] *)

Lemma pflags_update_status st t : pflags (update_status st t) = pflags st || time_bad t.
Proof.
  destruct st as [[[[r1 r2] d1] d2] s]. unfold update_status, time_bad.
  destruct (checkStatus _ _); cbn; rewrite ?orb_true_r, ?orb_false_r; reflexivity.
Qed.

Lemma pflags_dual_step st t : pflags (dual_step st t) = pflags st || time_bad t.
Proof.
  rewrite <- pflags_update_status. unfold dual_step.
  destruct (update_status st t) as [[[[r1 r2] d1] d2] s].
  destruct (num_eqb _ (zn 0)); [reflexivity|]. destruct (num_eqb _ (zn 1)); reflexivity.
Qed.

Lemma pflags_single_step st t : pflags (single_step st t) = pflags st || time_bad t.
Proof.
  rewrite <- pflags_update_status. unfold single_step.
  destruct (update_status st t) as [[[[r1 r2] d1] d2] s].
  destruct (Nat.eqb _ 0); [reflexivity|]. destruct (Nat.eqb _ 1); reflexivity.
Qed.

Lemma pflags_fold (step : PState -> TimeEntry -> PState) ts :
  (forall st t, pflags (step st t) = pflags st || time_bad t) ->
  forall st, pflags (fold_left step ts st) = pflags st || existsb time_bad ts.
Proof.
  intros Hstep. induction ts as [|t ts IH]; intros st; simpl; [rewrite orb_false_r; reflexivity|].
  rewrite IH, Hstep, orb_assoc. reflexivity.
Qed.

(** The flags and [totalTime] of [processRacerTimes]. *)
Lemma processRacerTimes_flags times raceType :
  let p := processRacerTimes times raceType in
  (p_dnf p || p_dsq p) = existsb time_bad times
  /\ ((p_dnf p || p_dsq p) = true -> p_totalTime p = None).
Proof.
  cbv zeta. unfold processRacerTimes.
  assert (H : pflags (if raceType =? 1 then fold_left dual_step times (None, None, false, false, "OK"%string)
                      else fold_left single_step times (None, None, false, false, "OK"%string))
              = existsb time_bad times).
  { destruct (raceType =? 1); rewrite pflags_fold;
      auto using pflags_dual_step, pflags_single_step. }
  destruct (if raceType =? 1 then _ else _) as [[[[r1 r2] d1] d2] st].
  cbn [pflags] in H. cbn [p_dnf p_dsq p_totalTime].
  split; [exact H|]. intros Hf. destruct d1, d2; try discriminate; reflexivity.
Qed.

(** ** Places of the finishers after [calculateIndividualResults] *)

Lemma individual_places_top σ racers g rc : NoDup racers ->
  let σ' := fst (calculateIndividualResults σ racers g rc) in
  let str := scoringTeamRacers σ racers g in
  let F := scoringFinishers σ str in
  let fsz := Z.of_nat (length str) in
  forall i, (i < length F)%nat ->
    place (rd σ' (nth i F 0%nat)) =
      match i with
      | O => Val 1
      | S j => if nullable_eqb (totalTime (rd σ (nth i F 0%nat))) (totalTime (rd σ (nth j F 0%nat)))
               then place (rd σ' (nth j F 0%nat)) else Val (Z.of_nat i + 1)
      end
    /\ exists p, place (rd σ' (nth i F 0%nat)) = Val p
                 /\ points (rd σ' (nth i F 0%nat)) = Val (fsz - p + 1)
                 /\ 1 <= p <= Z.of_nat i + 1.
Proof.
  intros Hnd σ' str F fsz i Hi.
  destruct (individual_final σ racers g rc) as (σ1 & c1 & c2 & Hb1 & HF & _).
  fold str F fsz σ' in HF.
  assert (Hlen : Z.of_nat (length F) <= fsz).
  { unfold fsz, F. rewrite length_scoringFinishers. apply inj_le, filter_length_le. }
  pose proof (assign_places_top F σ1 fsz c1 c2 (NoDup_scoringFinishers σ racers g Hnd) Hlen)
    as Htop.
  cbv zeta in Htop. specialize (Htop i Hi).
  assert (Hnth : forall k, (k < length F)%nat -> In (nth k F 0%nat) F)
    by (intros k Hk; apply nth_In, Hk).
  rewrite !HF by (apply Hnth; lia).
  destruct Htop as [Hp Hq]. split; [|exact Hq].
  rewrite Hp. destruct i as [|j]; [reflexivity|].
  base_rewrite Hb1 (nth (S j) F 0%nat). base_rewrite Hb1 (nth j F 0%nat).
  rewrite HF by (apply Hnth; lia). reflexivity.
Qed.

(** The places of the sorted finishers do not decrease. *)
Lemma individual_places_mono σ racers g rc : NoDup racers ->
  let σ' := fst (calculateIndividualResults σ racers g rc) in
  let F := scoringFinishers σ (scoringTeamRacers σ racers g) in
  forall i j, (i <= j < length F)%nat ->
    exists pi pj, place (rd σ' (nth i F 0%nat)) = Val pi
                  /\ place (rd σ' (nth j F 0%nat)) = Val pj /\ pi <= pj.
Proof.
  intros Hnd σ' F i j [Hij Hj].
  pose proof (individual_places_top σ racers g rc Hnd) as Htop. cbv zeta in Htop.
  fold σ' F in Htop.
  induction Hij as [|j Hij IH].
  - destruct (Htop i Hj) as [_ (p & Hp & _)]. exists p, p. repeat split; [exact Hp|exact Hp|lia].
  - destruct IH as (pi & pj & Hpi & Hpj & Hle); [lia|].
    destruct (Htop (S j) Hj) as [Hrec (p & Hp & _ & Hb)].
    destruct (Htop j ltac:(lia)) as [_ (q & Hq & _ & Hbq)].
    rewrite Hq in Hpj. injection Hpj as <-.
    exists pi, p. split; [exact Hpi|]. split; [exact Hp|].
    rewrite Hp in Hrec. destruct (nullable_eqb _ _).
    + rewrite Hq in Hrec. injection Hrec as ->. exact Hle.
    + injection Hrec as ->. lia.
Qed.

Lemma ForallOrdPairs_app {A} (R : A -> A -> Prop) (l1 l2 : list A) :
  ForallOrdPairs R l1 -> ForallOrdPairs R l2 ->
  (forall a b, In a l1 -> In b l2 -> R a b) -> ForallOrdPairs R (l1 ++ l2).
Proof.
  induction 1 as [|a l1 Ha Hl1 IH]; intros H2 Hx; simpl; [exact H2|].
  constructor.
  - apply Forall_app. split; [exact Ha|]. apply Forall_forall. intros b Hb.
    apply Hx; [left; reflexivity|exact Hb].
  - apply IH; [exact H2|]. intros x y Hx' Hy. apply Hx; [right; exact Hx'|exact Hy].
Qed.

Lemma filter_filter_and {A} (f h : A -> bool) (l : list A) :
  filter h (filter f l) = filter (fun x => f x && h x) l.
Proof.
  induction l as [|a l IH]; [reflexivity|]. cbn [filter].
  destruct (f a); cbn [andb filter]; rewrite IH; reflexivity.
Qed.

Lemma class_filter_app σ rc l1 l2 :
  class_filter σ rc (l1 ++ l2) = class_filter σ rc l1 ++ class_filter σ rc l2.
Proof.
  unfold class_filter. destruct rc as [[|a c]|]; try reflexivity. apply filter_app.
Qed.

(** ** JS objects *)

Lemma obj_find_set_eq {A} (o : obj A) k v : obj_find (obj_set o k v) k = Some v.
Proof.
  induction o as [|[k' v'] o IH]; cbn; [rewrite String.eqb_refl; reflexivity|].
  destruct (String.eqb_spec k' k) as [->|Hne]; cbn; [rewrite String.eqb_refl; reflexivity|].
  apply String.eqb_neq in Hne. rewrite Hne. exact IH.
Qed.

Lemma obj_find_set_ne {A} (o : obj A) k k' v :
  k' <> k -> obj_find (obj_set o k v) k' = obj_find o k'.
Proof.
  intros Hne. induction o as [|[k0 v0] o IH]; cbn.
  - apply String.eqb_neq in Hne. rewrite String.eqb_sym, Hne. reflexivity.
  - destruct (String.eqb_spec k0 k) as [->|Hne0]; cbn.
    + apply String.eqb_neq in Hne. rewrite String.eqb_sym, Hne. reflexivity.
    + rewrite IH. reflexivity.
Qed.

Lemma string_append_cancel_l (a b c : string) : (a ++ b)%string = (a ++ c)%string <-> b = c.
Proof.
  split; [|intros ->; reflexivity].
  induction a as [|ch a IH]; cbn; [tauto|]. intros H. injection H as H. apply IH, H.
Qed.

(** One step of the individual accumulation. *)
Lemma accumulate_individual_step ev σ tot l :
  let r := rd σ l in
  let key := individual_key r in
  let fresh := mkEntity EmptyString (trim (firstName r)) (trim (lastName r)) (team r)
                 (gender r) (class r) [] in
  let er := mkEventResult (ev_name ev) (ev_date ev) (fld_z (points r)) (place r) (fieldSize r) in
  (points r = Val 0 -> accumulate_individual ev σ (Some tot) l = Some tot)
  /\ (points r <> Val 0 -> obj_get tot key <> Inherited ->
      exists tot', accumulate_individual ev σ (Some tot) l = Some tot'
        /\ obj_find tot' key
           = Some (with_result (match obj_find tot key with Some e => e | None => fresh end) er)
        /\ forall k, k <> key -> obj_find tot' k = obj_find tot k).
Proof.
  cbv zeta. unfold accumulate_individual. split.
  - intros Hp. rewrite Hp. reflexivity.
  - intros Hp Hget. unfold obj_get in Hget.
    destruct (points (rd σ l)) as [| |[| |]] eqn:Hpts; try congruence;
      unfold push_result, obj_get;
      (destruct (obj_find tot _) as [e|] eqn:Hf;
       [|destruct (existsb _ _); [congruence|]]);
      (eexists; split; [reflexivity|]; split; [apply obj_find_set_eq|];
       intros k Hk; apply obj_find_set_ne, Hk).
Qed.

(** Athletes whose trimmed names agree share a key exactly when their team
    values print the same. *)
Lemma individual_key_same_names r1 r2 :
  trim (firstName r1) = trim (firstName r2) -> trim (lastName r1) = trim (lastName r2) ->
  individual_key r1 = individual_key r2 <-> team_text (team r1) = team_text (team r2).
Proof.
  intros Hf Hl. unfold individual_key. rewrite Hf, Hl.
  rewrite !string_append_cancel_l. reflexivity.
Qed.

(** ** Ranking of the season entries *)

Lemma nth_error_map_combine_seq {A B} (f : A * nat -> B) (l : list A) : forall k i x,
  nth_error (map f (combine l (seq k (length l)))) i = Some x ->
  exists y, nth_error l i = Some y /\ x = f (y, (k + i)%nat).
Proof.
  induction l as [|a l IH]; intros k i x H; [destruct i; discriminate|].
  destruct i as [|i]; cbn in H.
  - injection H as <-. exists a. split; [reflexivity|]. rewrite Nat.add_0_r. reflexivity.
  - apply IH in H as (y & Hy & ->). exists y. split; [exact Hy|]. do 2 f_equal. lia.
Qed.

Lemma map_combine_seq {A B} (h : A * nat -> B) (g : A -> B) (l : list A) :
  (forall a i, h (a, i) = g a) -> forall k, map h (combine l (seq k (length l))) = map g l.
Proof.
  intros Hh. induction l as [|a l IH]; intros k; [reflexivity|].
  cbn. rewrite Hh, IH. reflexivity.
Qed.

Lemma Sorted_map_key {A} (key : A -> Z) (l : list A) :
  Sorted (fun a b => key b <= key a) l -> Sorted (fun a b => b <= a) (map key l).
Proof.
  induction 1 as [|a l Hl IH Hh]; cbn; constructor; [exact IH|].
  destruct Hh; constructor. assumption.
Qed.

(** ** Whitespace team names *)

Lemma lower_char_ws c : is_ws c = true -> lower_char c = c.
Proof.
  unfold is_ws, lower_char. intros H.
  destruct (Nat.leb_spec 65 (nat_of_ascii c)); [|reflexivity].
  apply orb_true_iff in H as [H|H].
  - apply Nat.eqb_eq in H. lia.
  - apply andb_true_iff in H as [_ H]. apply Nat.leb_le in H. lia.
Qed.

Lemma drop_ws_all l : Forall (fun c => is_ws c = true) l -> drop_ws l = [].
Proof. induction 1 as [|c l Hc _ IH]; cbn; [reflexivity|]. rewrite Hc. exact IH. Qed.

Lemma trim_lower_ws s :
  Forall (fun c => is_ws c = true) (list_ascii_of_string s) -> trim (toLowerCase s) = EmptyString.
Proof.
  intros H. unfold trim, toLowerCase, map_chars.
  rewrite list_ascii_of_string_of_list_ascii.
  rewrite map_ext_Forall with (g := fun c => c) by (eapply Forall_impl; [|exact H]; apply lower_char_ws).
  rewrite map_id, (drop_ws_all _ H). reflexivity.
Qed.

(** ** Frames of the team standings and of the season loop *)

Lemma obj_set_In {A} (o : obj A) k v kv : In kv (obj_set o k v) -> In kv o \/ snd kv = v.
Proof.
  induction o as [|[k' v'] o IH]; cbn; [intros [<-|[]]; right; reflexivity|].
  destruct (k' =? k)%string; cbn.
  - intros [<-|H]; [right; reflexivity|left; right; exact H].
  - intros [<-|H]; [left; left; reflexivity|]. destruct (IH H); [left; right|right]; assumption.
Qed.

Lemma obj_find_In {A} (o : obj A) k v : obj_find o k = Some v -> exists k', In (k', v) o.
Proof.
  induction o as [|[k' v'] o IH]; cbn; [discriminate|].
  destruct (k' =? k)%string.
  - intros [= <-]. exists k'. left; reflexivity.
  - intros H. destruct (IH H) as [k'' Hk]. exists k''. right; exact Hk.
Qed.

Lemma obj_values_In {A} (o : obj A) v : In v (obj_values o) -> exists k, In (k, v) o.
Proof.
  unfold obj_values. intros H. apply in_map_iff in H as ([k v'] & <- & H).
  exists k. apply in_app_or in H as [H|H].
  - apply (Permutation_in _ (js_sort_perm _ _)) in H. apply filter_In in H. apply H.
  - apply filter_In in H. apply H.
Qed.

Lemma group_fold_None σ ls : fold_left (group_step σ) ls None = None.
Proof. induction ls as [|l ls IH]; [reflexivity|]. exact IH. Qed.

(** The team groups hold only racers of the grouped list. *)
Lemma group_fold_sub σ (P : loc -> Prop) ls : forall o o',
  (forall l, In l ls -> P l) ->
  (forall kv, In kv o -> forall l, In l (snd kv) -> P l) ->
  fold_left (group_step σ) ls (Some o) = Some o' ->
  forall kv, In kv o' -> forall l, In l (snd kv) -> P l.
Proof.
  induction ls as [|x ls IH]; intros o o' Hls Ho Hf; cbn [fold_left] in Hf; [injection Hf as <-; exact Ho|].
  unfold group_step at 2 in Hf.
  assert (Hx : P x) by (apply Hls; left; reflexivity).
  assert (Hls' : forall l, In l ls -> P l) by (intros l Hl; apply Hls; right; exact Hl).
  destruct (team (rd σ x)) as [[|c k]|]; [exact (IH o o' Hls' Ho Hf)| |exact (IH o o' Hls' Ho Hf)].
  unfold obj_get in Hf. destruct (obj_find o (String c k)) as [rs|] eqn:Hfind.
  - refine (IH _ o' Hls' _ Hf).
    intros kv Hkv l Hl. apply obj_set_In in Hkv as [Hkv|Hkv]; [apply (Ho kv Hkv l Hl)|].
    rewrite Hkv in Hl. apply in_app_or in Hl as [Hl|[<-|[]]]; [|exact Hx].
    destruct (obj_find_In _ _ _ Hfind) as [k' Hk']. exact (Ho _ Hk' l Hl).
  - destruct (existsb _ _); [rewrite group_fold_None in Hf; discriminate|].
    refine (IH _ o' Hls' _ Hf).
    intros kv Hkv l Hl. apply obj_set_In in Hkv as [Hkv|Hkv]; [apply (Ho kv Hkv l Hl)|].
    rewrite Hkv in Hl. destruct Hl as [<-|[]]. exact Hx.
Qed.

Lemma score_team_frame topN σ name rs :
  frame (fun l => In l rs) σ (fst (score_team topN σ name rs)).
Proof.
  unfold score_team. cbn [fst].
  eapply frame_weaken; [|apply (fold_modify_frame _ (fun _ _ => set_isScoring (Val true)))].
  intros l Hl. cbv beta zeta in Hl.
  match type of Hl with In _ (firstn _ ?xs) =>
    assert (Hin : In l xs)
      by (rewrite <- (firstn_skipn topN xs); apply in_or_app; left; exact Hl) end.
  apply filter_In in Hin as [Hin _].
  apply (Permutation_in _ (js_sort_perm _ _)) in Hin. exact Hin.
Qed.

Lemma score_teams_frame topN ts : forall σ,
  frame (fun l => exists name rs, In (name, rs) ts /\ In l rs) σ (fst (score_teams topN σ ts)).
Proof.
  induction ts as [|[name rs] ts IH]; intros σ; cbn [score_teams]; [apply frame_refl|].
  pose proof (score_team_frame topN σ name rs) as H1.
  destruct (score_team topN σ name rs) as [σ1 t]. cbn [fst] in H1.
  specialize (IH σ1). destruct (score_teams topN σ1 ts) as [σ2 ts']. cbn [fst] in IH |- *.
  eapply frame_trans.
  - eapply frame_weaken; [|exact H1]. intros l Hl. exists name, rs. split; [left; reflexivity|exact Hl].
  - eapply frame_weaken; [|exact IH]. intros l (n & r & Hin & Hl). exists n, r.
    split; [right; exact Hin|exact Hl].
Qed.

(** [calculateTeamStandings] writes only to the racers it is given. *)
Lemma calculateTeamStandings_frame σ racers g rc topN :
  frame (fun l => In l racers) σ (fst (calculateTeamStandings σ racers g rc topN)).
Proof.
  unfold calculateTeamStandings.
  set (filtered := filter _ racers).
  set (cfs := Z.of_nat (length filtered)).
  set (fin := scoringFinishers σ filtered).
  set (σ1 := assign_team_places σ fin None 0 1 cfs).
  set (nonfin := scoringNonFinishers σ1 filtered).
  set (σ2 := fold_left _ nonfin σ1).
  assert (Hsub : forall l, In l fin \/ In l nonfin -> In l racers).
  { intros l [Hl|Hl].
    - apply scoringFinishers_In in Hl as [Hl _]. apply filter_In in Hl. apply Hl.
    - apply scoringNonFinishers_In in Hl as [Hl _]. apply filter_In in Hl. apply Hl. }
  assert (H2 : frame (fun l => In l racers) σ σ2).
  { eapply frame_trans.
    - eapply frame_weaken; [|apply assign_team_places_frame]. intros l Hl. apply Hsub. left; exact Hl.
    - eapply frame_weaken; [|apply (fold_modify_frame _ (fun _ _ => set_team Null (Val 0) (Val cfs)))].
      intros l Hl. apply Hsub. right; exact Hl. }
  destruct (fold_left (group_step σ2) (fin ++ nonfin) (Some [])) as [teams|] eqn:Hg; [|exact H2].
  pose proof (group_fold_sub σ2 (fun l => In l racers) (fin ++ nonfin) [] teams) as Hgs.
  specialize (Hgs ltac:(intros l Hl; apply Hsub; apply in_app_or, Hl) ltac:(intros _ []) Hg).
  pose proof (score_teams_frame topN (obj_values (map (fun kv => (fst kv, kv)) teams)) σ2) as H3.
  destruct (score_teams _ _ _) as [σ3 scored]. cbn [fst] in H3 |- *.
  eapply frame_trans; [exact H2|].
  eapply frame_weaken; [|exact H3].
  intros l (name & rs & Hin & Hl).
  apply obj_values_In in Hin as [k Hk]. apply in_map_iff in Hk as ([k' v] & [= <- <- <-] & Hkv).
  exact (Hgs _ Hkv l Hl).
Qed.

(** [copy_racers] allocates a fresh copy of every racer. *)
Lemma copy_racers_fresh ls : forall σ acc,
  let '(σ', acc') := fold_left (fun '(σ0, acc) l => let '(σ1, l') := alloc σ0 (rd σ0 l) in
                                                   (σ1, acc ++ [l'])) ls (σ, acc) in
  (next σ <= next σ')%nat
  /\ (forall l, (l < next σ)%nat -> rd σ' l = rd σ l)
  /\ (forall l, In l acc' -> In l acc \/ (next σ <= l)%nat).
Proof.
  induction ls as [|x ls IH]; intros σ acc; cbn [fold_left].
  - split; [lia|]. split; [reflexivity|]. intros l Hl; left; exact Hl.
  - specialize (IH (mkStore (fun l' => if Nat.eqb l' (next σ) then rd σ x else heap σ l')
                            (S (next σ))) (acc ++ [next σ])).
    cbn [alloc].
    destruct (fold_left _ ls _) as [σ' acc'].
    destruct IH as (Hn & Hr & Hin). cbn [next] in Hn.
    split; [lia|]. split.
    + intros l Hl. rewrite Hr by (cbn [next]; lia). unfold rd. cbn [heap].
      destruct (Nat.eqb_spec l (next σ)); [lia|reflexivity].
    + intros l Hl. destruct (Hin l Hl) as [H|H].
      * apply in_app_or in H as [H|[<-|[]]]; [left; exact H|right; lia].
      * right. cbn [next] in H. lia.
Qed.

Lemma copy_racers_spec σ ls :
  let '(σ', ls') := copy_racers σ ls in
  (next σ <= next σ')%nat
  /\ (forall l, (l < next σ)%nat -> rd σ' l = rd σ l)
  /\ (forall l, In l ls' -> (next σ <= l)%nat).
Proof.
  unfold copy_racers. pose proof (copy_racers_fresh ls σ []) as H.
  destruct (fold_left _ ls _) as [σ' ls'].
  destruct H as (Hn & Hr & Hin). split; [exact Hn|]. split; [exact Hr|].
  intros l Hl. destruct (Hin l Hl) as [[]|H]. exact H.
Qed.

(** One event of the season leaves the existing racers as they were. *)
Lemma event_step_frame g rc st ev :
  (next (fst st) <= next (fst (event_step g rc st ev)))%nat
  /\ forall l, (l < next (fst st))%nat -> rd (fst (event_step g rc st ev)) l = rd (fst st) l.
Proof.
  destruct st as [σ [[tt it]|]]; cbn [event_step fst]; [|split; [lia|reflexivity]].
  pose proof (copy_racers_spec σ (concat (races ev))) as Hc.
  destruct (copy_racers σ (concat (races ev))) as [σ1 all].
  destruct Hc as (Hn1 & Hr1 & Hin1).
  destruct (individual_final σ1 all g rc) as (_ & _ & _ & _ & _ & _ & [Hn2 Hr2] & _).
  destruct (calculateIndividualResults σ1 all g rc) as [σ2 res]. cbn [fst] in Hn2, Hr2.
  assert (Hr12 : forall l, (l < next σ)%nat -> rd σ2 l = rd σ l).
  { intros l Hl. rewrite Hr2, Hr1 by (try (intros Hx; apply Hin1 in Hx); lia). reflexivity. }
  destruct (fold_left (accumulate_individual ev σ2) res (Some it)) as [it'|];
    [|cbn [fst]; split; [lia|exact Hr12]].
  pose proof (calculateTeamStandings_frame σ2 all g (effective_class rc) 4) as [Hn3 Hr3].
  assert (Hr23 : forall l, (l < next σ)%nat ->
            rd (fst (calculateTeamStandings σ2 all g (effective_class rc) 4)) l = rd σ l).
  { intros l Hl. rewrite Hr3 by (intros Hx; apply Hin1 in Hx; lia). apply Hr12, Hl. }
  destruct (calculateTeamStandings σ2 all g (effective_class rc) 4) as [σ3 [ts|]];
    cbn [fst] in Hn3, Hr23 |- *; [|split; [lia|exact Hr23]].
  destruct (fold_left (accumulate_team ev) ts (Some tt)); cbn [fst]; split; lia || exact Hr23.
Qed.

Lemma season_fold_frame g rc events : forall st,
  (next (fst st) <= next (fst (fold_left (event_step g rc) events st)))%nat
  /\ forall l, (l < next (fst st))%nat ->
       rd (fst (fold_left (event_step g rc) events st)) l = rd (fst st) l.
Proof.
  induction events as [|ev events IH]; intros st; cbn [fold_left]; [split; [lia|reflexivity]|].
  destruct (event_step_frame g rc st ev) as [Hn Hr].
  destruct (IH (event_step g rc st ev)) as [Hn' Hr'].
  split; [lia|]. intros l Hl. rewrite Hr' by lia. apply Hr, Hl.
Qed.


(* ================================================================== *)
(** * Claims *)

(** C1.  Individual scoring: among the allow-listed finishers sorted by
    [totalTime], racer [i] inherits the place (and so the points) of racer
    [i - 1] when their times are exactly equal, and otherwise takes place
    [i + 1]; points are [fieldSize - place + 1].  On the times
    [61.00, 61.00, 62.00, 63.00] with field size 4 the places are
    [1, 1, 3, 4] and the points [4, 4, 2, 1]. *)
Theorem individual_tie_places :
  (forall σ racers g rc, NoDup racers ->
    let σ' := fst (calculateIndividualResults σ racers g rc) in
    let str := scoringTeamRacers σ racers g in
    let F := scoringFinishers σ str in
    let fsz := Z.of_nat (length str) in
    forall i, (i < length F)%nat ->
      place (rd σ' (nth i F 0%nat)) =
        match i with
        | O => Val 1
        | S j => if nullable_eqb (totalTime (rd σ (nth i F 0%nat))) (totalTime (rd σ (nth j F 0%nat)))
                 then place (rd σ' (nth j F 0%nat)) else Val (Z.of_nat i + 1)
        end
      /\ exists p, place (rd σ' (nth i F 0%nat)) = Val p
                   /\ points (rd σ' (nth i F 0%nat)) = Val (fsz - p + 1))
  /\
  (let '(σ', res) := calculateIndividualResults tie_heap [0; 1; 2; 3]%nat "M" None in
   map (fun l => place (rd σ' l)) res = [Val 1; Val 1; Val 3; Val 4]
   /\ map (fun l => points (rd σ' l)) res = [Val 4; Val 4; Val 2; Val 1]
   /\ map (fun l => fieldSize (rd σ' l)) res = [Val 4; Val 4; Val 4; Val 4]).
Proof.
  split; [|vm_compute; repeat split].
  intros σ racers g rc Hnd σ' str F fsz i Hi.
  destruct (individual_places_top σ racers g rc Hnd i Hi) as [Hp (p & Hq1 & Hq2 & _)].
  split; [exact Hp|]. exists p. split; assumption.
Qed.

Lemma individual_tie_places_witness :
  NoDup [0; 1; 2; 3]%nat
  /\ (1 < length (scoringFinishers tie_heap (scoringTeamRacers tie_heap [0; 1; 2; 3]%nat "M")))%nat
  /\ place (rd (fst (calculateIndividualResults tie_heap [0; 1; 2; 3]%nat "M" None))
                (nth 1 (scoringFinishers tie_heap (scoringTeamRacers tie_heap [0; 1; 2; 3]%nat "M")) 0%nat))
     = Val 1.
Proof.
  assert (Hnd : NoDup [0; 1; 2; 3]%nat) by (repeat constructor; cbn; intuition congruence).
  assert (Hlt : (1 < length (scoringFinishers tie_heap (scoringTeamRacers tie_heap [0; 1; 2; 3]%nat "M")))%nat)
    by (vm_compute; lia).
  split; [exact Hnd|split; [exact Hlt|]].
  destruct (proj1 individual_tie_places tie_heap [0; 1; 2; 3]%nat "M"%string None Hnd 1%nat Hlt) as [Hp _].
  rewrite Hp. vm_compute. reflexivity.
Defined.

(** C2.  The [fieldSize] that individual scoring attaches to every racer of
    the gender is the number of racers of that gender from allow-listed
    teams; racers of the gender from other teams get place [null] and
    points [0], and without a class filter every racer of the gender is
    returned.  With 10 racers of gender M, 6 of them allow-listed, the
    field size is 6 and 10 racers are returned. *)
Theorem individual_fieldSize :
  (forall σ racers g rc l,
    In l racers -> gender_is g (rd σ l) = true ->
    let σ' := fst (calculateIndividualResults σ racers g rc) in
    fieldSize (rd σ' l) = Val (Z.of_nat (length (scoringTeamRacers σ racers g)))
    /\ (isScoringTeam (team (rd σ l)) = false ->
        place (rd σ' l) = Null /\ points (rd σ' l) = Val 0)
    /\ (rc = None -> In l (snd (calculateIndividualResults σ racers g rc))))
  /\ (forall σ racers g,
    length (snd (calculateIndividualResults σ racers g None)) = length (genderRacers σ racers g))
  /\
  (let '(σ', res) := calculateIndividualResults mixed_heap ten "M" None in
   length (genderRacers mixed_heap ten "M") = 10%nat
   /\ length (scoringTeamRacers mixed_heap ten "M") = 6%nat
   /\ length res = 10%nat
   /\ map (fun l => fieldSize (rd σ' l)) res = repeat (Val 6) 10
   /\ map (fun l => points (rd σ' l))
        (filter (fun l => negb (isScoringTeam (team (rd mixed_heap l)))) res)
      = repeat (Val 0) 4).
Proof.
  split; [|split; [|vm_compute; repeat split]].
  - intros σ racers g rc l Hl Hg σ'.
    destruct (individual_final σ racers g rc)
      as (σ1 & c1 & c2 & Hb1 & HF & HN & _ & _ & Hres).
    fold σ' in HF, HN, Hres.
    set (str := scoringTeamRacers σ racers g) in *.
    set (F := scoringFinishers σ str) in *.
    set (NF := scoringNonFinishers σ str) in *.
    set (NS := nonScoringRacers σ (genderRacers σ racers g)) in *.
    assert (Hcases : (In l F \/ In l NF) /\ isScoringTeam (team (rd σ l)) = true
                     \/ In l NS /\ isScoringTeam (team (rd σ l)) = false).
    { destruct (isScoringTeam (team (rd σ l))) eqn:Hs.
      - left. split; [|reflexivity].
        assert (Hs' : In l str) by (apply scoringTeamRacers_In; tauto).
        destruct (is_finisher (rd σ l)) eqn:Hfin.
        + left. apply scoringFinishers_In. tauto.
        + right. apply scoringNonFinishers_In. tauto.
      - right. split; [|reflexivity]. apply nonScoringRacers_In. tauto. }
    split; [|split].
    + destruct Hcases as [[[Hx|Hx] _]|[Hx _]].
      * rewrite HF by exact Hx. apply assign_places_fieldSize, Hx.
      * destruct (HN l (or_introl Hx)) as [r ->]. reflexivity.
      * destruct (HN l (or_intror Hx)) as [r ->]. reflexivity.
    + intros Hs. destruct Hcases as [[_ Hs']|[Hx _]]; [congruence|].
      destruct (HN l (or_intror Hx)) as [r ->]. split; reflexivity.
    + intros ->. rewrite Hres. cbn [class_filter].
      eapply Permutation_in; [symmetry; apply js_sort_perm|].
      rewrite !in_app_iff. tauto.
  - intros σ racers g.
    destruct (individual_final σ racers g None) as (_ & _ & _ & _ & _ & _ & _ & _ & Hres).
    rewrite Hres. cbn [class_filter]. rewrite (Permutation_length (js_sort_perm _ _)).
    rewrite !length_app, length_scoringFinishers.
    unfold scoringNonFinishers, nonScoringRacers, scoringTeamRacers, genderRacers.
    rewrite <- (length_filter_split (fun l => gender_is g (rd σ l))
                  (fun l => isScoringTeam (team (rd σ l))) racers).
    rewrite <- (length_filter_negb (fun l => is_finisher (rd σ l))
                  (filter (fun l => gender_is g (rd σ l) && isScoringTeam (team (rd σ l))) racers)).
    lia.
Qed.

Lemma individual_fieldSize_witness :
  In 9%nat ten /\ gender_is "M" (rd mixed_heap 9%nat) = true
  /\ fieldSize (rd (fst (calculateIndividualResults mixed_heap ten "M" None)) 9%nat) = Val 6
  /\ In 9%nat (snd (calculateIndividualResults mixed_heap ten "M" None)).
Proof.
  assert (Hin : In 9%nat ten) by (vm_compute; tauto).
  assert (Hg : gender_is "M" (rd mixed_heap 9%nat) = true) by (vm_compute; reflexivity).
  destruct (proj1 individual_fieldSize mixed_heap ten "M"%string None 9%nat Hin Hg)
    as (Hfs & _ & Hres).
  split; [exact Hin|split; [exact Hg|split]].
  - rewrite Hfs. vm_compute. reflexivity.
  - apply Hres. reflexivity.
Defined.

(** C3.  The drop rule of the season standings, for every accumulated
    entity: its results are sorted descending by points; a result is
    dropped exactly when the entity has at least as many results as the
    season has events and the season has more than one event; the dropped
    result is the last of the results of smallest points, in the order the
    entity collected them; the total is the sum of the other results.
    Every team and individual entry of [calculateSeasonStandings] carries
    these fields of [finalize].  With five results [3, 1, 2, 1, 4] over five
    events the second [1] is dropped; with four of them over five events,
    or with one result in a one-event season, nothing is. *)
Theorem season_drop_rule :
  (forall n e,
    let rs := eventResults e in
    let s := finalize n e in
    eventCount s = length rs
    /\ Sorted (fun a b => er_points b <= er_points a) (countedResults s)
    /\ (droppedResult s <> None <-> (n <= length rs /\ 1 < n)%nat)
    /\ (forall d, droppedResult s = Some d ->
          last_min er_points rs d
          /\ Permutation (countedResults s ++ [d]) rs
          /\ totalPoints s = fold_left (fun sum r => sum + er_points r) rs 0 - er_points d)
    /\ (droppedResult s = None ->
          Permutation (countedResults s) rs
          /\ totalPoints s = fold_left (fun sum r => sum + er_points r) rs 0))
  /\ (forall σ events g rc σ' S x,
    calculateSeasonStandings σ events g rc = (σ', Some S) ->
    In x (teams S) \/ In x (individuals S) ->
    exists e, let f := finalize (length events) e in
      totalPoints x = totalPoints f /\ countedResults x = countedResults f
      /\ droppedResult x = droppedResult f /\ eventCount x = eventCount f)
  /\ droppedResult (finalize 5 (athlete five_results)) = Some (sample_result "E4" 1)
  /\ totalPoints (finalize 5 (athlete five_results)) = 10
  /\ droppedResult (finalize 5 (athlete (firstn 4 five_results))) = None
  /\ droppedResult (finalize 1 (athlete [sample_result "E1" 3])) = None.
Proof.
  split; [|split; [|vm_compute; repeat split]].
  - intros n e rs s.
    assert (Hperm := js_sort_perm (fun a b => zn (er_points b - er_points a)) rs).
    assert (Hsort := js_sort_desc_sorted er_points rs).
    unfold s, finalize. fold rs.
    set (sorted := js_sort (fun a b => zn (er_points b - er_points a)) rs) in *.
    rewrite (Permutation_length Hperm).
    destruct ((n <=? length rs)%nat && (1 <? n)%nat) eqn:Hdrop; cbn [eventCount countedResults droppedResult totalPoints].
    + apply andb_true_iff in Hdrop as [H1 H2].
      apply Nat.leb_le in H1. apply Nat.ltb_lt in H2.
      assert (Hne : rs <> []) by (intros Hn; rewrite Hn in H1; simpl in H1; lia).
      destruct (js_sort_desc_last er_points rs Hne) as (c & d & Hcd & Hlm).
      fold sorted in Hcd. rewrite Hcd in Hperm, Hsort |- *.
      rewrite removelast_last.
      replace (length rs - 1)%nat with (length c)
        by (rewrite <- (Permutation_length Hperm), length_app; simpl; lia).
      rewrite nth_error_app2, Nat.sub_diag by lia. cbn [nth_error].
      split; [reflexivity|]. split; [eapply Sorted_app_l; exact Hsort|].
      split; [split; [intros _; split; assumption|intros _; discriminate]|].
      split; [|intros [=]].
      intros d' [= <-]. split; [exact Hlm|]. split; [exact Hperm|].
      rewrite !fold_points_sum, <- (sum_points_perm _ _ Hperm), fold_right_app. simpl.
      enough (forall z, fold_right (fun r s => er_points r + s) z c
                        = fold_right (fun r s => er_points r + s) 0 c + z) as Hz
        by (rewrite (Hz (er_points d + 0)); lia).
      clear. induction c as [|r c IH]; intros z; simpl; [lia|]. rewrite IH. lia.
    + split; [reflexivity|]. split; [exact Hsort|].
      split; [split; [intros H; exfalso; apply H; reflexivity|]|].
      { intros [H1 H2]. apply Nat.leb_le in H1. apply Nat.ltb_lt in H2.
        rewrite H1, H2 in Hdrop. discriminate. }
      split; [intros d [=]|]. intros _. split; [exact Hperm|].
      rewrite !fold_points_sum. f_equal. apply sum_points_perm, Hperm.
  - intros σ events g rc σ' S x HS Hx.
    destruct (season_entries_finalized σ events g rc σ' S x HS Hx) as (e & _ & H).
    exists e. cbv zeta. tauto.
Qed.

Lemma season_drop_rule_witness :
  droppedResult (finalize 5 (athlete five_results)) = Some (sample_result "E4" 1)
  /\ last_min er_points five_results (sample_result "E4" 1).
Proof.
  assert (Hd : droppedResult (finalize 5 (athlete five_results)) = Some (sample_result "E4" 1))
    by (vm_compute; reflexivity).
  split; [exact Hd|].
  destruct (proj1 season_drop_rule 5%nat (athlete five_results)) as (_ & _ & _ & Hsome & _).
  apply (Hsome _ Hd).
Defined.

(** C4.  DNF and DSQ racers: [processRacerTimes] sets [dnf] or [dsq]
    exactly when one of the racer's [Time] elements is a DNF, DNS, DSQ or DQ
    token or has status code 2 or 3, and then [totalTime] is [null] whatever
    the runs parsed to; individual scoring never places such a racer of the
    scored gender among the finishers, and leaves it with place [null] and
    points [0]. *)
Theorem dnf_dsq_unplaced :
  (forall times raceType,
    let p := processRacerTimes times raceType in
    ((p_dnf p || p_dsq p) = true <-> exists t, In t times /\ time_bad t = true)
    /\ ((p_dnf p || p_dsq p) = true -> p_totalTime p = None))
  /\ (forall σ racers g rc l,
    In l racers -> gender_is g (rd σ l) = true -> (dnf (rd σ l) || dsq (rd σ l)) = true ->
    let σ' := fst (calculateIndividualResults σ racers g rc) in
    ~ In l (scoringFinishers σ (scoringTeamRacers σ racers g))
    /\ place (rd σ' l) = Null /\ points (rd σ' l) = Val 0).
Proof.
  split.
  - intros times raceType p. destruct (processRacerTimes_flags times raceType) as [H1 H2].
    fold p in H1, H2. split; [|exact H2]. rewrite H1. apply existsb_exists.
  - intros σ racers g rc l Hl Hg Hf σ'.
    destruct (individual_final σ racers g rc) as (σ1 & c1 & c2 & _ & _ & HN & _).
    fold σ' in HN.
    assert (Hfin : is_finisher (rd σ l) = false).
    { unfold is_finisher. destruct (totalTime (rd σ l)); [|reflexivity].
      destruct (dnf (rd σ l)), (dsq (rd σ l)); try discriminate; reflexivity. }
    split.
    + intros HF. apply scoringFinishers_In in HF as [_ HF]. congruence.
    + assert (Hin : In l (scoringNonFinishers σ (scoringTeamRacers σ racers g))
                    \/ In l (nonScoringRacers σ (genderRacers σ racers g))).
      { destruct (isScoringTeam (team (rd σ l))) eqn:Hs.
        - left. apply scoringNonFinishers_In. split; [|exact Hfin].
          apply scoringTeamRacers_In. tauto.
        - right. apply nonScoringRacers_In. tauto. }
      destruct (HN l Hin) as [r ->]. split; reflexivity.
Qed.

Lemma dnf_dsq_unplaced_witness :
  let times := [mkTimeEntry "0" 0 "61.00" "1"; mkTimeEntry "0" 1 "DNF" "1"] in
  p_totalTime (processRacerTimes times 0) = None
  /\ place (rd (fst (calculateIndividualResults
       (heap_of [parsed_racer "Al" "One" "V" (Some "Brainerd"%string) (Some "M"%string)
                   (processRacerTimes times 0)]) [0%nat] "M" None)) 0%nat) = Null.
Proof.
  intros times.
  assert (Hb : (p_dnf (processRacerTimes times 0) || p_dsq (processRacerTimes times 0)) = true).
  { apply (proj1 dnf_dsq_unplaced times 0). exists (mkTimeEntry "0" 1 "DNF" "1").
    split; [right; left; reflexivity|vm_compute; reflexivity]. }
  split; [exact (proj2 (proj1 dnf_dsq_unplaced times 0) Hb)|].
  apply (proj2 dnf_dsq_unplaced _ [0%nat] "M"%string None 0%nat);
    [left; reflexivity|vm_compute; reflexivity|vm_compute; reflexivity].
Defined.

(** C5 (divergence).  An unparseable time token is not [null]: [parseTime]
    returns [Math.round(NaN)], i.e. [NaN], for [abc], and [0] for a token with
    four colon-separated parts.  The racer with time [abc] is then a
    finisher: it is placed first with 2 points, ahead of the racer timed
    61.00. *)
Theorem unparseable_time_scored :
  parseTime "abc" = Some NaN
  /\ parseTime "1:2:3:4" = Some (zn 0)
  /\ p_totalTime (processRacerTimes [mkTimeEntry "0" 0 "abc" "1"] 0) = Some NaN
  /\ (let '(σ', res) := calculateIndividualResults nan_heap [0; 1]%nat "M" None in
      res = [0; 1]%nat
      /\ totalTime (rd σ' 0%nat) = Some NaN
      /\ place (rd σ' 0%nat) = Val 1 /\ points (rd σ' 0%nat) = Val 2
      /\ place (rd σ' 1%nat) = Val 2 /\ points (rd σ' 1%nat) = Val 1).
Proof. vm_compute. repeat split. Qed.

(** C6.  The order of the list that individual scoring returns: the sorted
    finishers, whose places are values that do not decrease, then the
    allow-listed non-finishers, then the racers of other teams, the last
    two with place [null] and in input order; the class filter keeps this
    order. *)
Theorem individual_result_order :
  forall σ racers g rc, NoDup racers ->
  let σ' := fst (calculateIndividualResults σ racers g rc) in
  let F := scoringFinishers σ (scoringTeamRacers σ racers g) in
  let NF := filter (fun l => gender_is g (rd σ l) && isScoringTeam (team (rd σ l))
                             && negb (is_finisher (rd σ l))) racers in
  let NS := filter (fun l => gender_is g (rd σ l) && negb (isScoringTeam (team (rd σ l)))) racers in
  snd (calculateIndividualResults σ racers g rc)
    = class_filter σ rc F ++ class_filter σ rc NF ++ class_filter σ rc NS
  /\ (forall i j, (i <= j < length F)%nat ->
        exists pi pj, place (rd σ' (nth i F 0%nat)) = Val pi
                      /\ place (rd σ' (nth j F 0%nat)) = Val pj /\ pi <= pj)
  /\ (forall x, In x NF \/ In x NS -> place (rd σ' x) = Null).
Proof.
  intros σ racers g rc Hnd σ' F NF NS.
  destruct (individual_final σ racers g rc) as (σ1 & c1 & c2 & _ & HF & HN & _ & _ & Hres).
  fold σ' F in HF, HN, Hres.
  assert (HNF : scoringNonFinishers σ (scoringTeamRacers σ racers g) = NF).
  { unfold scoringNonFinishers, scoringTeamRacers, NF. rewrite filter_filter_and. reflexivity. }
  assert (HNS : nonScoringRacers σ (genderRacers σ racers g) = NS).
  { unfold nonScoringRacers, genderRacers, NS. rewrite filter_filter_and. reflexivity. }
  rewrite HNF, HNS in HN, Hres.
  assert (Hnull : forall x, In x NF \/ In x NS -> place (rd σ' x) = Null).
  { intros x Hx. destruct (HN x Hx) as [r Hr]. rewrite Hr. reflexivity. }
  pose proof (individual_places_mono σ racers g rc Hnd) as Hmono. cbv zeta in Hmono.
  fold σ' F in Hmono.
  split; [|split; [exact Hmono|exact Hnull]].
  rewrite Hres, js_sort_id, !class_filter_app; [reflexivity|].
  apply ForallOrdPairs_app; [|apply ForallOrdPairs_app|].
  - apply (ForallOrdPairs_nth (A := loc)) with (d := 0%nat). intros i j Hij.
    destruct (Hmono i j ltac:(lia)) as (pi & pj & Hpi & Hpj & Hle).
    unfold place_cmp. rewrite Hpi, Hpj, num_negative_zn. apply Z.ltb_ge. lia.
  - apply (ForallOrdPairs_nth (A := loc)) with (d := 0%nat). intros i j Hij.
    unfold place_cmp. rewrite !Hnull by (left; apply nth_In; lia). reflexivity.
  - apply (ForallOrdPairs_nth (A := loc)) with (d := 0%nat). intros i j Hij.
    unfold place_cmp. rewrite !Hnull by (right; apply nth_In; lia). reflexivity.
  - intros a b Ha Hb. unfold place_cmp. rewrite !Hnull by tauto. reflexivity.
  - intros a b Ha Hb. unfold place_cmp. rewrite (Hnull b) by (apply in_app_or in Hb; tauto).
    apply (In_nth (A := loc) _ _ 0%nat) in Ha as (i & Hi & <-).
    destruct (Hmono i i ltac:(lia)) as (pi & _ & Hpi & _). rewrite Hpi. reflexivity.
Qed.

Lemma individual_result_order_witness :
  NoDup ten
  /\ snd (calculateIndividualResults mixed_heap ten "M" None)
     = scoringFinishers mixed_heap (scoringTeamRacers mixed_heap ten "M")
       ++ filter (fun l => gender_is "M" (rd mixed_heap l) && isScoringTeam (team (rd mixed_heap l))
                           && negb (is_finisher (rd mixed_heap l))) ten
       ++ filter (fun l => gender_is "M" (rd mixed_heap l)
                           && negb (isScoringTeam (team (rd mixed_heap l)))) ten.
Proof.
  assert (Hnd : NoDup ten) by (apply seq_NoDup).
  split; [exact Hnd|].
  destruct (individual_result_order mixed_heap ten "M"%string None Hnd) as [H _].
  exact H.
Defined.

(** C7 (counterexample).  The accumulation key does not trim the team, and
    it joins the names with [_]: the same athlete listed once as
    [Brainerd] and once as [Brainerd ] gets two season entries, although
    the trimmed triples agree; the athletes [a_b c] and [a b_c] of one team
    get a single entry, although their triples differ. *)
Lemma individual_key_counterexample :
  trim "Brainerd " = "Brainerd"%string
  /\ individual_key (rd team_space_heap 0%nat) <> individual_key (rd team_space_heap 1%nat)
  /\ option_map (fun S => length (individuals S))
       (snd (calculateSeasonStandings team_space_heap two_events "M" None)) = Some 2%nat
  /\ individual_key (rd underscore_heap 0%nat) = individual_key (rd underscore_heap 1%nat)
  /\ option_map (fun S => length (individuals S))
       (snd (calculateSeasonStandings underscore_heap two_events "M" None)) = Some 1%nat.
Proof. vm_compute. repeat split. discriminate. Qed.

(** C7 (amended).  The individual accumulation: a result with [0] points
    adds no row; any other result is appended to the entry under the key
    [firstName.trim() + '_' + lastName.trim() + '_' + team], created from
    the result when missing, and no other entry changes; two results whose
    trimmed first and last names agree share this key exactly when their
    team values print the same, untrimmed. *)
Theorem individual_accumulation_key :
  (forall ev σ tot l,
    let r := rd σ l in
    let key := individual_key r in
    let fresh := mkEntity EmptyString (trim (firstName r)) (trim (lastName r)) (team r)
                   (gender r) (class r) [] in
    let er := mkEventResult (ev_name ev) (ev_date ev) (fld_z (points r)) (place r) (fieldSize r) in
    (points r = Val 0 -> accumulate_individual ev σ (Some tot) l = Some tot)
    /\ (points r <> Val 0 -> obj_get tot key <> Inherited ->
        exists tot', accumulate_individual ev σ (Some tot) l = Some tot'
          /\ obj_find tot' key
             = Some (with_result (match obj_find tot key with Some e => e | None => fresh end) er)
          /\ forall k, k <> key -> obj_find tot' k = obj_find tot k))
  /\ (forall r1 r2,
    trim (firstName r1) = trim (firstName r2) -> trim (lastName r1) = trim (lastName r2) ->
    individual_key r1 = individual_key r2 <-> team_text (team r1) = team_text (team r2)).
Proof.
  split; [exact accumulate_individual_step|exact individual_key_same_names].
Qed.

Lemma individual_accumulation_key_witness :
  individual_key (rd team_space_heap 0%nat) <> individual_key (rd team_space_heap 1%nat).
Proof.
  intros Heq.
  apply (proj2 individual_accumulation_key (rd team_space_heap 0%nat) (rd team_space_heap 1%nat))
    in Heq; [|vm_compute; reflexivity|vm_compute; reflexivity].
  vm_compute in Heq. discriminate.
Defined.

(** C8 (counterexample).  Season places are positions, not shared ranks:
    the two athletes of [season_heap] both total 2 points and get places 1
    and 2, and so do the two teams. *)
Lemma season_place_counterexample :
  option_map (fun S => map (fun x => (totalPoints x, season_place x)) (individuals S))
    (snd (calculateSeasonStandings season_heap season_events "M" None))
  = Some [(2, Val 1); (2, Val 2)]
  /\ option_map (fun S => map (fun x => (totalPoints x, season_place x)) (teams S))
    (snd (calculateSeasonStandings season_heap season_events "M" None))
  = Some [(2, Val 1); (2, Val 2)].
Proof. vm_compute. split; reflexivity. Qed.

(** [rank_entries] ranks by position every list of entries whose place is
    still unset. *)
Lemma rank_entries_ranked es :
  Forall (fun e => unplace e = e) es -> ranked_cohort (rank_entries es) es.
Proof.
  intros Hes. set (out := rank_entries es).
  set (sorted := js_sort (fun a b => zn (totalPoints b - totalPoints a)) es).
  assert (Hperm : Permutation sorted es) by apply js_sort_perm.
  assert (Hout : out = map (fun '(e, i) => mkSeasonEntry (entity e) (totalPoints e)
                             (countedResults e) (droppedResult e) (eventCount e)
                             (totalEventsInSeason e) (Val (Z.of_nat i + 1)))
                        (combine sorted (seq 0 (length sorted)))) by reflexivity.
  assert (Hmap : forall B (g : SeasonEntry -> B),
            (forall e i, g (mkSeasonEntry (entity e) (totalPoints e) (countedResults e)
                             (droppedResult e) (eventCount e) (totalEventsInSeason e)
                             (Val (Z.of_nat i + 1))) = g e) ->
            map g out = map g sorted).
  { intros B g Hg. rewrite Hout, map_map. apply map_combine_seq. intros a i. apply Hg. }
  split; [|split; [|split]].
  - rewrite <- (length_map totalPoints out), (Hmap _ totalPoints) by reflexivity.
    rewrite length_map. apply Permutation_length, Hperm.
  - intros i x Hx. rewrite Hout in Hx.
    apply nth_error_map_combine_seq in Hx as (y & _ & ->). reflexivity.
  - rewrite (Hmap _ totalPoints) by reflexivity.
    apply Sorted_map_key, js_sort_desc_sorted.
  - rewrite (Hmap _ unplace) by reflexivity.
    transitivity (map unplace es); [apply Permutation_map, Hperm|].
    clear - Hes. induction Hes as [|e es He _ IH]; [reflexivity|].
    cbn [map]. rewrite He, IH. reflexivity.
Qed.

(** C8 (amended).  Teams and individuals are ranked separately, each by
    position.  [calculateSeasonStandings] folds every event into two totals:
    the team totals, fed by [calculateTeamStandings] through
    [accumulate_team], and the individual totals, fed by
    [calculateIndividualResults] through [accumulate_individual].  The
    [teams] of the result are the finalized team totals and its
    [individuals] the finalized individual totals, each sorted descending by
    [totalPoints], with the entry at 0-based position [i] at place [i + 1]:
    equal totals get distinct consecutive places. *)
Theorem season_place_positions σ events g rc σ' S :
  calculateSeasonStandings σ events g rc = (σ', Some S) ->
  exists teamTotals individualTotals,
    fold_left (event_step g rc) events (σ, Some ([], []))
      = (σ', Some (teamTotals, individualTotals))
    /\ ranked_cohort (teams S) (map (finalize (length events)) (obj_values teamTotals))
    /\ ranked_cohort (individuals S)
         (map (finalize (length events)) (obj_values individualTotals)).
Proof.
  unfold calculateSeasonStandings.
  destruct (fold_left _ events _) as [σ0 [[tt it]|]] eqn:Hf; [|discriminate].
  intros [= <- <-]. exists tt, it. split; [reflexivity|].
  assert (Hfin : forall es, Forall (fun e => unplace e = e) (map (finalize (length events)) es)).
  { intros es. apply Forall_map, Forall_forall. intros e _. reflexivity. }
  split; apply rank_entries_ranked, Hfin.
Qed.

Lemma season_place_positions_witness :
  exists teamTotals individualTotals,
    fold_left (event_step "M" None) season_events (season_heap, Some ([], []))
      = (fst (calculateSeasonStandings season_heap season_events "M" None),
         Some (teamTotals, individualTotals))
    /\ ranked_cohort (teams (season_standings_of season_heap season_events))
         (map (finalize (length season_events)) (obj_values teamTotals))
    /\ ranked_cohort (individuals (season_standings_of season_heap season_events))
         (map (finalize (length season_events)) (obj_values individualTotals)).
Proof.
  apply (season_place_positions season_heap season_events "M"%string None).
  vm_compute. reflexivity.
Defined.

(** C9.  [isScoringTeam] is [false] for a missing team and for the empty
    string, and [true] for every non-empty string of whitespace: the trimmed
    name is empty and so a substring of every allow-listed name.  A racer
    of the scored gender with such a team is one of the racers that make
    the field size. *)
Theorem whitespace_team_scores :
  isScoringTeam None = false
  /\ isScoringTeam (Some EmptyString) = false
  /\ (forall s, s <> EmptyString ->
        Forall (fun c => is_ws c = true) (list_ascii_of_string s) ->
        isScoringTeam (Some s) = true)
  /\ (forall σ racers g l s, In l racers -> gender_is g (rd σ l) = true ->
        team (rd σ l) = Some s -> s <> EmptyString ->
        Forall (fun c => is_ws c = true) (list_ascii_of_string s) ->
        In l (scoringTeamRacers σ racers g)).
Proof.
  assert (Hws : forall s, s <> EmptyString ->
            Forall (fun c => is_ws c = true) (list_ascii_of_string s) ->
            isScoringTeam (Some s) = true).
  { intros s Hne H. destruct s as [|c s']; [congruence|].
    change (existsb (fun t => includes (trim (toLowerCase (String c s'))) (toLowerCase t)
                              || includes (toLowerCase t) (trim (toLowerCase (String c s'))))
              SCORING_TEAMS = true).
    rewrite trim_lower_ws by exact H. reflexivity. }
  split; [reflexivity|split; [reflexivity|split; [exact Hws|]]].
  intros σ racers g l s Hl Hg Ht Hne H. apply scoringTeamRacers_In.
  split; [exact Hl|split; [exact Hg|]]. rewrite Ht. apply Hws; assumption.
Qed.

Lemma whitespace_team_scores_witness : isScoringTeam (Some "  "%string) = true.
Proof.
  apply (proj1 (proj2 (proj2 whitespace_team_scores)) "  "%string);
    [discriminate|repeat constructor].
Defined.

(** C10.  [calculateSeasonStandings] scores copies of the racers: every
    racer object that exists before the call is left as it was, whether
    the call returns or throws.  A direct call of
    [calculateIndividualResults] on the same records, by contrast, sets
    their places. *)
Theorem season_leaves_racers :
  (forall σ events g rc l, (l < next σ)%nat ->
     rd (fst (calculateSeasonStandings σ events g rc)) l = rd σ l)
  /\ place (rd season_heap 0%nat) = Absent
  /\ place (rd (fst (calculateIndividualResults season_heap [0; 1]%nat "M" None)) 0%nat) = Val 1.
Proof.
  split; [|vm_compute; split; reflexivity].
  intros σ events g rc l Hl.
  destruct (season_fold_frame g rc events (σ, Some ([], []))) as [_ Hr].
  unfold calculateSeasonStandings.
  destruct (fold_left (event_step g rc) events (σ, Some ([], []))) as [σ' [[tt it]|]];
    cbn [fst] in Hr |- *; apply Hr, Hl.
Qed.

Lemma season_leaves_racers_witness :
  rd (fst (calculateSeasonStandings season_heap season_events "M" None)) 0%nat = rd season_heap 0%nat.
Proof.
  apply (proj1 season_leaves_racers); vm_compute; lia.
Defined.

(* ================================================================== *)
(** * Further properties of the code *)

(** ** Lemmas *)

Lemma fold_points_seq (n : Z) : forall (k a : nat) (s : Z),
  (1 <= a)%nat -> Z.of_nat (a + k) <= n + 1 ->
  2 * fold_left (fun s p => s + getPointsForPlace (Z.of_nat p) n) (seq a k) s
  = 2 * s + Z.of_nat k * (2 * n + 3 - 2 * Z.of_nat a - Z.of_nat k).
Proof.
  induction k as [|k IH]; intros a s Ha Hk; cbn [seq fold_left]; [lia|].
  rewrite IH by lia. rewrite getPointsForPlace_in_field by lia. lia.
Qed.

Lemma find_rev_cons {A} (f : A -> bool) (x : A) (l : list A) :
  find f (rev (x :: l))
  = match find f (rev l) with Some y => Some y | None => if f x then Some x else None end.
Proof.
  cbn [rev]. induction (rev l) as [|y r IH]; cbn; [destruct (f x); reflexivity|].
  destruct (f y); [reflexivity|exact IH].
Qed.

Lemma pstat_dual_step st t : pstat (dual_step st t) = pstat (update_status st t).
Proof.
  unfold dual_step. destruct (update_status st t) as [[[[r1 r2] d1] d2] s].
  destruct (num_eqb _ (zn 0)); [reflexivity|]. destruct (num_eqb _ (zn 1)); reflexivity.
Qed.

Lemma pstat_single_step st t : pstat (single_step st t) = pstat (update_status st t).
Proof.
  unfold single_step. destruct (update_status st t) as [[[[r1 r2] d1] d2] s].
  destruct (Nat.eqb _ 0); [reflexivity|]. destruct (Nat.eqb _ 1); reflexivity.
Qed.

Lemma pstat_update_status st st' t :
  pstat st = pstat st' -> pstat (update_status st t) = pstat (update_status st' t).
Proof.
  destruct st as [[[[r1 r2] d1] d2] s], st' as [[[[r1' r2'] d1'] d2'] s'].
  cbn [pstat]. intros [= -> -> ->]. unfold update_status.
  destruct (checkStatus _ _); reflexivity.
Qed.

Lemma pstat_fold (step : PState -> TimeEntry -> PState) :
  (forall st t, pstat (step st t) = pstat (update_status st t)) ->
  forall ts st st', pstat st = pstat st' ->
  pstat (fold_left step ts st) = pstat (fold_left update_status ts st').
Proof.
  intros Hstep ts. induction ts as [|t ts IH]; intros st st' H; cbn [fold_left]; [exact H|].
  apply IH. rewrite Hstep. apply pstat_update_status, H.
Qed.

Lemma update_status_fold ts : forall r1 r2 d1 d2 s,
  pstat (fold_left update_status ts (r1, r2, d1, d2, s))
  = (d1 || existsb (fun t => match checkStatus (time t) (tstatus t) with TS_DNF => true | _ => false end) ts,
     d2 || existsb (fun t => match checkStatus (time t) (tstatus t) with TS_DSQ => true | _ => false end) ts,
     match find time_bad (rev ts) with
     | None => s
     | Some t => match checkStatus (time t) (tstatus t) with TS_DSQ => "DSQ"%string | _ => "DNF"%string end
     end).
Proof.
  induction ts as [|t ts IH]; intros r1 r2 d1 d2 s; cbn [fold_left existsb];
    [rewrite !orb_false_r; reflexivity|].
  rewrite find_rev_cons. unfold update_status at 2, time_bad at 2.
  destruct (checkStatus (time t) (tstatus t)) eqn:Hc; rewrite IH;
    rewrite ?orb_true_r, ?orb_false_l, ?orb_false_r, ?orb_true_l;
    destruct (find time_bad (rev ts)); rewrite ?Hc; reflexivity.
Qed.

Lemma pruns_update_status st t : pruns (update_status st t) = pruns st.
Proof.
  destruct st as [[[[r1 r2] d1] d2] s]. unfold update_status.
  destruct (checkStatus _ _); reflexivity.
Qed.

Lemma pruns_single_step st t :
  pruns (single_step st t)
  = if Nat.eqb (runIndex t) 0 then (parseTime (time t), snd (pruns st))
    else if Nat.eqb (runIndex t) 1 then (fst (pruns st), parseTime (time t))
    else pruns st.
Proof.
  unfold single_step. rewrite <- (pruns_update_status st t).
  destruct (update_status st t) as [[[[r1 r2] d1] d2] s].
  destruct (Nat.eqb _ 0); [reflexivity|]. destruct (Nat.eqb _ 1); reflexivity.
Qed.

(** The single-course loop ignores the [Time] elements numbered 2 and up. *)
Lemma single_fold_late ts : forall st,
  Forall (fun t => (2 <= runIndex t)%nat) ts ->
  pruns (fold_left single_step ts st) = pruns st.
Proof.
  induction ts as [|t ts IH]; intros st H; cbn [fold_left]; [reflexivity|].
  inversion H as [|? ? Ht Hts]; subst. rewrite IH by exact Hts.
  unfold single_step. rewrite <- (pruns_update_status st t).
  destruct (update_status st t) as [[[[r1 r2] d1] d2] s].
  destruct (Nat.eqb_spec (runIndex t) 0); [lia|].
  destruct (Nat.eqb_spec (runIndex t) 1); [lia|reflexivity].
Qed.

Lemma collect_times_late (ts : list (string * string * string)) : forall k, (2 <= k)%nat ->
  Forall (fun t => (2 <= runIndex t)%nat)
    (map (fun '(c, r, s, i) => mkTimeEntry c i r s) (combine ts (seq k (length ts)))).
Proof.
  induction ts as [|[[c r] s] ts IH]; intros k Hk; cbn; constructor; [exact Hk|].
  apply IH. lia.
Qed.

Lemma dual_fold_runs ts : forall st,
  pruns (fold_left dual_step ts st)
  = (match find (fun t => num_eqb (parseInt (course t)) (zn 0)) (rev ts) with
     | Some t => parseTime (time t) | None => fst (pruns st) end,
     match find (fun t => num_eqb (parseInt (course t)) (zn 1)) (rev ts) with
     | Some t => parseTime (time t) | None => snd (pruns st) end).
Proof.
  induction ts as [|t ts IH]; intros st; cbn [fold_left]; [destruct st as [[[[r1 r2] d1] d2] s]; reflexivity|].
  rewrite IH, !find_rev_cons.
  destruct (find (fun t => num_eqb (parseInt (course t)) (zn 0)) (rev ts)),
           (find (fun t => num_eqb (parseInt (course t)) (zn 1)) (rev ts)); [reflexivity|..];
  unfold dual_step; pose proof (pruns_update_status st t) as Hu;
  destruct (update_status st t) as [[[[r1 r2] d1] d2] s];
  destruct st as [[[[r1' r2'] d1'] d2'] s']; cbn in Hu; injection Hu as -> ->;
  destruct (num_eqb (parseInt (course t)) (zn 0)) eqn:H0;
  destruct (num_eqb (parseInt (course t)) (zn 1)) eqn:H1; cbn; try reflexivity;
  destruct (parseInt (course t)) as [|b|q]; cbn in H0, H1; try discriminate;
  apply Qeq_bool_eq in H0, H1; rewrite H0 in H1; discriminate.
Qed.

(** ** X1 - X5: points, divisions and times *)

(** X1.  [getPointsForPlace]: a place outside [1 .. fieldSize] earns 0
    points; from place 1 on, a later place never earns more than an
    earlier one; and the places [1 .. n] of a field of [n] racers earn
    [n (n + 1) / 2] points together. *)
Theorem getPointsForPlace_shape :
  (forall p fs, p <= 0 \/ fs < p -> getPointsForPlace p fs = 0)
  /\ (forall p q fs, 1 <= p <= q -> getPointsForPlace q fs <= getPointsForPlace p fs)
  /\ (forall n : nat,
        2 * fold_left (fun s p => s + getPointsForPlace (Z.of_nat p) (Z.of_nat n)) (seq 1 n) 0
        = Z.of_nat n * (Z.of_nat n + 1)).
Proof.
  split; [|split].
  - intros p fs H. unfold getPointsForPlace.
    destruct (Z.leb_spec p 0), (Z.gtb_spec p fs); cbn; lia.
  - intros p q fs H. unfold getPointsForPlace.
    destruct (Z.leb_spec p 0), (Z.gtb_spec p fs), (Z.leb_spec q 0), (Z.gtb_spec q fs); cbn; lia.
  - intros n. rewrite fold_points_seq by lia. lia.
Qed.

Lemma getPointsForPlace_shape_witness :
  getPointsForPlace 7 6 = 0 /\ getPointsForPlace 3 6 <= getPointsForPlace 2 6.
Proof.
  split.
  - apply (proj1 getPointsForPlace_shape). right. lia.
  - apply (proj1 (proj2 getPointsForPlace_shape)). lia.
Defined.

(** X2.  The class filter of every division of [getDivisions] ([Varsity]
    or [JV]) accepts a racer class exactly when [getClassCategory] puts the
    class in that category. *)
Theorem division_class_category :
  forall d, In d getDivisions -> forall c,
    matchesClass c (div_class d) = true <-> getClassCategory c = Some (div_class d).
Proof.
  intros d Hd c. cbn in Hd.
  destruct c as [|a c]; [cbn; split; intros H; [discriminate|]; destruct Hd as [<-|[<-|[<-|[<-|[]]]]]; discriminate|].
  unfold matchesClass, getClassCategory.
  set (N := trim (toUpperCase (String a c))).
  destruct Hd as [<-|[<-|[<-|[<-|[]]]]]; cbn [div_class];
  match goal with |- context [trim (toUpperCase ?f)] =>
    let v := eval vm_compute in (trim (toUpperCase f)) in change (trim (toUpperCase f)) with v end;
  cbn -[N]; clearbody N;
  repeat match goal with |- context [(N =? ?x)%string] =>
    destruct (String.eqb_spec N x) as [->|?] end; cbn; split; congruence.
Qed.

Lemma division_class_category_witness :
  getClassCategory " jvm " = Some "JV"%string.
Proof.
  apply (division_class_category (mkDivision "M" "JV" "Boys JV")); [cbn; tauto|].
  vm_compute. reflexivity.
Defined.

(** X3.  [processRacerTimes]: [dnf] is set exactly when some [Time] element
    is a DNF (token DNF or DNS, or status code 2), [dsq] exactly when some
    element is a DSQ (token DSQ or DQ, or status code 3), so a racer can
    carry both; [status] names the kind of the last such element, and is
    [OK] when there is none. *)
Theorem processRacerTimes_status times raceType :
  let p := processRacerTimes times raceType in
  p_dnf p = existsb (fun t => match checkStatus (time t) (tstatus t) with TS_DNF => true | _ => false end) times
  /\ p_dsq p = existsb (fun t => match checkStatus (time t) (tstatus t) with TS_DSQ => true | _ => false end) times
  /\ p_status p = match find time_bad (rev times) with
                  | None => "OK"%string
                  | Some t => match checkStatus (time t) (tstatus t) with
                              | TS_DSQ => "DSQ"%string
                              | _ => "DNF"%string
                              end
                  end.
Proof.
  cbv zeta. unfold processRacerTimes.
  assert (H : pstat (if raceType =? 1 then fold_left dual_step times (None, None, false, false, "OK"%string)
                     else fold_left single_step times (None, None, false, false, "OK"%string))
              = pstat (fold_left update_status times (None, None, false, false, "OK"%string))).
  { destruct (raceType =? 1); apply pstat_fold; auto using pstat_dual_step, pstat_single_step. }
  rewrite update_status_fold in H.
  destruct (if raceType =? 1 then _ else _) as [[[[r1 r2] d1] d2] s].
  cbn [pstat] in H. injection H as -> -> ->. cbn. repeat split.
Qed.

(** X4.  In a single-course race (race type other than 1), [run1] is the
    parsed [Result] of the first [Time] element of the competitor and
    [run2] that of the second, [null] when there is no such element;
    further [Time] elements set no run. *)
Theorem single_course_runs (ts : list (string * string * string)) (raceType : Z) :
  raceType <> 1 ->
  let p := processRacerTimes (collect_times ts) raceType in
  p_run1 p = match nth_error ts 0 with Some (_, r, _) => parseTime r | None => None end
  /\ p_run2 p = match nth_error ts 1 with Some (_, r, _) => parseTime r | None => None end.
Proof.
  intros Hrt. cbv zeta. unfold processRacerTimes.
  replace (raceType =? 1) with false by (symmetry; apply Z.eqb_neq, Hrt).
  enough (Hr : pruns (fold_left single_step (collect_times ts) (None, None, false, false, "OK"%string))
               = (match nth_error ts 0 with Some (_, r, _) => parseTime r | None => None end,
                  match nth_error ts 1 with Some (_, r, _) => parseTime r | None => None end)).
  { destruct (fold_left _ _ _) as [[[[r1 r2] d1] d2] s]. cbn in Hr |- *.
    injection Hr as -> ->. split; reflexivity. }
  unfold collect_times.
  destruct ts as [|[[c0 r0] s0] [|[[c1 r1] s1] ts]];
    cbn [length seq combine map fold_left]; [reflexivity| |].
  - rewrite pruns_single_step. reflexivity.
  - rewrite single_fold_late by (apply collect_times_late; lia).
    rewrite !pruns_single_step. reflexivity.
Qed.

Lemma single_course_runs_witness :
  p_run2 (processRacerTimes (collect_times [("0", "61.00", "1"); ("0", "62.50", "1"); ("0", "60.00", "1")]%string) 0)
  = Some (zn 62500).
Proof.
  rewrite (proj2 (single_course_runs [("0", "61.00", "1"); ("0", "62.50", "1"); ("0", "60.00", "1")]%string 0
                    ltac:(discriminate))).
  vm_compute. reflexivity.
Defined.

(** X5.  In a dual-course race (race type 1), [run1] is the parsed
    [Result] of the last [Time] element whose [Course] parses to 0, and
    [run2] that of the last one whose [Course] parses to 1; [null] when
    there is none. *)
Theorem dual_course_runs times :
  let p := processRacerTimes times 1 in
  p_run1 p = match find (fun t => num_eqb (parseInt (course t)) (zn 0)) (rev times) with
             | Some t => parseTime (time t) | None => None end
  /\ p_run2 p = match find (fun t => num_eqb (parseInt (course t)) (zn 1)) (rev times) with
                | Some t => parseTime (time t) | None => None end.
Proof.
  cbv zeta. unfold processRacerTimes. cbn [Z.eqb].
  pose proof (dual_fold_runs times (None, None, false, false, "OK"%string)) as Hr.
  destruct (fold_left dual_step times _) as [[[[r1 r2] d1] d2] s].
  cbn in Hr |- *. injection Hr as -> ->. split; reflexivity.
Qed.

(** ** Lemmas on the scoring phases *)

Lemma calculateRunRankings_frame_gender σ racers g :
  frame (fun l => In l racers /\ gender_is g (rd σ l) = true) σ (fst (calculateRunRankings σ racers g)).
Proof.
  unfold calculateRunRankings; simpl.
  eapply frame_trans; (eapply frame_weaken; [|first [apply rank_run1_frame | apply rank_run2_frame]]);
    intros l Hl; apply (Permutation_in _ (js_sort_perm _ _)) in Hl;
    apply filter_In in Hl as [Hl _]; apply filter_In in Hl; exact Hl.
Qed.

(** The run-1 ranking loop gives every racer it visits a rank between 1
    and the length of the whole list. *)
Lemma rank_run1_bounds rs : forall σ prev idx cr,
  let N := Z.of_nat (idx + length rs) in
  1 <= cr <= Z.of_nat idx + 1 ->
  (forall p, prev = Some p -> exists k, run1Rank (rd σ p) = Val k /\ 1 <= k <= N) ->
  forall l, In l rs -> exists k, run1Rank (rd (rank_run1 σ rs prev idx cr) l) = Val k /\ 1 <= k <= N.
Proof.
  induction rs as [|l0 rest IH]; intros σ prev idx cr N Hcr Hprev l Hl; [destruct Hl|].
  cbn [rank_run1].
  set (v := match prev with
            | Some p => if nullable_eqb (run1 (rd σ l0)) (run1 (rd σ p)) then run1Rank (rd σ p) else Val cr
            | None => Val cr
            end).
  assert (Hv : exists k, v = Val k /\ 1 <= k <= N).
  { unfold v, N in *. cbn [length] in *.
    destruct prev as [p|]; [destruct (nullable_eqb _ _); [apply (Hprev p eq_refl)|]|];
      exists cr; (split; [reflexivity|lia]). }
  set (σ1 := modify σ l0 (set_run1Rank v)).
  assert (HN : N = Z.of_nat (S idx + length rest)) by (unfold N; cbn [length]; f_equal; lia).
  destruct (in_dec Nat.eq_dec l rest) as [Hr|Hr].
  - rewrite HN. apply IH; [lia| |exact Hr]. intros p [= <-]. rewrite <- HN.
    unfold σ1. rewrite rd_modify_eq. exact Hv.
  - destruct Hl as [<-|Hl]; [|contradiction].
    pose proof (rank_run1_frame rest σ1 (Some l0) (S idx) (Z.of_nat idx + 2)) as [_ Hfr].
    rewrite Hfr by exact Hr. unfold σ1. rewrite rd_modify_eq. exact Hv.
Qed.

Lemma rank_run2_bounds rs : forall σ prev idx cr,
  let N := Z.of_nat (idx + length rs) in
  1 <= cr <= Z.of_nat idx + 1 ->
  (forall p, prev = Some p -> exists k, run2Rank (rd σ p) = Val k /\ 1 <= k <= N) ->
  forall l, In l rs -> exists k, run2Rank (rd (rank_run2 σ rs prev idx cr) l) = Val k /\ 1 <= k <= N.
Proof.
  induction rs as [|l0 rest IH]; intros σ prev idx cr N Hcr Hprev l Hl; [destruct Hl|].
  cbn [rank_run2].
  set (v := match prev with
            | Some p => if nullable_eqb (run2 (rd σ l0)) (run2 (rd σ p)) then run2Rank (rd σ p) else Val cr
            | None => Val cr
            end).
  assert (Hv : exists k, v = Val k /\ 1 <= k <= N).
  { unfold v, N in *. cbn [length] in *.
    destruct prev as [p|]; [destruct (nullable_eqb _ _); [apply (Hprev p eq_refl)|]|];
      exists cr; (split; [reflexivity|lia]). }
  set (σ1 := modify σ l0 (set_run2Rank v)).
  assert (HN : N = Z.of_nat (S idx + length rest)) by (unfold N; cbn [length]; f_equal; lia).
  destruct (in_dec Nat.eq_dec l rest) as [Hr|Hr].
  - rewrite HN. apply IH; [lia| |exact Hr]. intros p [= <-]. rewrite <- HN.
    unfold σ1. rewrite rd_modify_eq. exact Hv.
  - destruct Hl as [<-|Hl]; [|contradiction].
    pose proof (rank_run2_frame rest σ1 (Some l0) (S idx) (Z.of_nat idx + 2)) as [_ Hfr].
    rewrite Hfr by exact Hr. unfold σ1. rewrite rd_modify_eq. exact Hv.
Qed.

Lemma rank_run2_run1Rank rs : forall σ prev idx cr l,
  run1Rank (rd (rank_run2 σ rs prev idx cr) l) = run1Rank (rd σ l).
Proof.
  induction rs as [|l0 rest IH]; intros σ prev idx cr l; cbn [rank_run2]; [reflexivity|].
  rewrite IH. destruct (Nat.eq_dec l l0) as [->|Hne].
  - rewrite rd_modify_eq. reflexivity.
  - rewrite rd_modify_ne by exact Hne. reflexivity.
Qed.

Lemma rank_run1_run2Rank rs : forall σ prev idx cr l,
  run2Rank (rd (rank_run1 σ rs prev idx cr) l) = run2Rank (rd σ l).
Proof.
  induction rs as [|l0 rest IH]; intros σ prev idx cr l; cbn [rank_run1]; [reflexivity|].
  rewrite IH. destruct (Nat.eq_dec l l0) as [->|Hne].
  - rewrite rd_modify_eq. reflexivity.
  - rewrite rd_modify_ne by exact Hne. reflexivity.
Qed.

Lemma calculateTeamStandings_frame_filtered σ racers g rc topN :
  frame (fun l => In l (filter (fun l => gender_is g (rd σ l) && matchesClass (class (rd σ l)) rc) racers))
    σ (fst (calculateTeamStandings σ racers g rc topN)).
Proof.
  unfold calculateTeamStandings.
  set (filtered := filter _ racers).
  set (cfs := Z.of_nat (length filtered)).
  set (fin := scoringFinishers σ filtered).
  set (σ1 := assign_team_places σ fin None 0 1 cfs).
  set (nonfin := scoringNonFinishers σ1 filtered).
  set (σ2 := fold_left _ nonfin σ1).
  assert (Hsub : forall l, In l fin \/ In l nonfin -> In l filtered).
  { intros l [Hl|Hl].
    - apply scoringFinishers_In in Hl as [Hl _]. exact Hl.
    - apply scoringNonFinishers_In in Hl as [Hl _]. exact Hl. }
  assert (H2 : frame (fun l => In l filtered) σ σ2).
  { eapply frame_trans.
    - eapply frame_weaken; [|apply assign_team_places_frame]. intros l Hl. apply Hsub. left; exact Hl.
    - eapply frame_weaken; [|apply (fold_modify_frame _ (fun _ _ => set_team Null (Val 0) (Val cfs)))].
      intros l Hl. apply Hsub. right; exact Hl. }
  destruct (fold_left (group_step σ2) (fin ++ nonfin) (Some [])) as [teams|] eqn:Hg; [|exact H2].
  pose proof (group_fold_sub σ2 (fun l => In l filtered) (fin ++ nonfin) [] teams) as Hgs.
  specialize (Hgs ltac:(intros l Hl; apply Hsub; apply in_app_or, Hl) ltac:(intros _ []) Hg).
  pose proof (score_teams_frame topN (obj_values (map (fun kv => (fst kv, kv)) teams)) σ2) as H3.
  destruct (score_teams _ _ _) as [σ3 scored]. cbn [fst] in H3 |- *.
  eapply frame_trans; [exact H2|].
  eapply frame_weaken; [|exact H3].
  intros l (name & rs & Hin & Hl).
  apply obj_values_In in Hin as [k Hk]. apply in_map_iff in Hk as ([k' v] & [= <- <- <-] & Hkv).
  exact (Hgs _ Hkv l Hl).
Qed.

(** ** X6 - X8: what the scoring functions write *)

(** X6.  [calculateRunRankings]: [run1Count] is the number of listed
    racers of the gender with a [run1] time, and each of them gets a
    [run1Rank] between 1 and [run1Count]; racers without a [run1] time keep
    their [run1Rank]; the same holds for run 2. *)
Theorem run_rankings_bounds σ racers g :
  let '(σ', (c1, c2)) := calculateRunRankings σ racers g in
  c1 = Z.of_nat (length (filter (fun l => gender_is g (rd σ l)
                                          && match run1 (rd σ l) with Some _ => true | None => false end) racers))
  /\ c2 = Z.of_nat (length (filter (fun l => gender_is g (rd σ l)
                                          && match run2 (rd σ l) with Some _ => true | None => false end) racers))
  /\ (forall l, In l racers -> gender_is g (rd σ l) = true -> run1 (rd σ l) <> None ->
        exists k, run1Rank (rd σ' l) = Val k /\ 1 <= k <= c1)
  /\ (forall l, In l racers -> gender_is g (rd σ l) = true -> run2 (rd σ l) <> None ->
        exists k, run2Rank (rd σ' l) = Val k /\ 1 <= k <= c2)
  /\ (forall l, run1 (rd σ l) = None -> run1Rank (rd σ' l) = run1Rank (rd σ l))
  /\ (forall l, run2 (rd σ l) = None -> run2Rank (rd σ' l) = run2Rank (rd σ l)).
Proof.
  unfold calculateRunRankings. cbv zeta.
  set (gr := filter (fun l => gender_is g (rd σ l)) racers).
  set (R1 := js_sort _ (filter (fun l => match run1 (rd σ l) with Some _ => true | None => false end) gr)).
  set (σ1 := rank_run1 σ R1 None 0 1).
  assert (Hb1 : same_base σ σ1) by apply rank_run1_base.
  assert (Hr2 : forall l, run2 (rd σ1 l) = run2 (rd σ l)) by (intros l; base_of Hb1 l; assumption).
  set (R2 := js_sort _ (filter (fun l => match run2 (rd σ1 l) with Some _ => true | None => false end) gr)).
  assert (HR1 : forall l, In l R1 <-> In l racers /\ gender_is g (rd σ l) = true /\ run1 (rd σ l) <> None).
  { intros l. unfold R1. split.
    - intros H. apply (Permutation_in _ (js_sort_perm _ _)) in H.
      apply filter_In in H as [H Hs]. apply filter_In in H as [H Hg].
      split; [exact H|split; [exact Hg|]]. destruct (run1 (rd σ l)); congruence.
    - intros (H & Hg & Hs). apply (Permutation_in _ (Permutation_sym (js_sort_perm _ _))).
      apply filter_In. split; [apply filter_In; tauto|]. destruct (run1 (rd σ l)); congruence. }
  assert (HR2 : forall l, In l R2 <-> In l racers /\ gender_is g (rd σ l) = true /\ run2 (rd σ l) <> None).
  { intros l. unfold R2. split.
    - intros H. apply (Permutation_in _ (js_sort_perm _ _)) in H.
      apply filter_In in H as [H Hs]. apply filter_In in H as [H Hg]. rewrite Hr2 in Hs.
      split; [exact H|split; [exact Hg|]]. destruct (run2 (rd σ l)); congruence.
    - intros (H & Hg & Hs). apply (Permutation_in _ (Permutation_sym (js_sort_perm _ _))).
      apply filter_In. rewrite Hr2. split; [apply filter_In; tauto|]. destruct (run2 (rd σ l)); congruence. }
  assert (HL1 : length R1 = length (filter (fun l => gender_is g (rd σ l)
                   && match run1 (rd σ l) with Some _ => true | None => false end) racers)).
  { unfold R1. rewrite (Permutation_length (js_sort_perm _ _)). unfold gr. rewrite filter_filter_and. reflexivity. }
  assert (HL2 : length R2 = length (filter (fun l => gender_is g (rd σ l)
                   && match run2 (rd σ l) with Some _ => true | None => false end) racers)).
  { unfold R2. rewrite (Permutation_length (js_sort_perm _ _)). unfold gr. rewrite filter_filter_and.
    f_equal. apply filter_ext. intros l. rewrite Hr2. reflexivity. }
  split; [rewrite HL1; reflexivity|]. split; [rewrite HL2; reflexivity|].
  split; [|split; [|split]].
  - intros l Hl Hg Hs. rewrite rank_run2_run1Rank.
    apply (rank_run1_bounds R1 σ None 0 1); [lia|intros p [=]|]. apply HR1. tauto.
  - intros l Hl Hg Hs.
    apply (rank_run2_bounds R2 σ1 None 0 1); [lia|intros p [=]|]. apply HR2. tauto.
  - intros l Hs. rewrite rank_run2_run1Rank.
    pose proof (rank_run1_frame R1 σ None 0 1) as [_ Hf]. fold σ1 in Hf. rewrite Hf; [reflexivity|].
    intros H. apply HR1 in H. tauto.
  - intros l Hs.
    pose proof (rank_run2_frame R2 σ1 None 0 1) as [_ Hf]. rewrite Hf.
    + unfold σ1. apply rank_run1_run2Rank.
    + intros H. apply HR2 in H. tauto.
Qed.

Lemma run_rankings_bounds_witness :
  exists k, run1Rank (rd (fst (calculateRunRankings tie_heap [0; 1; 2; 3]%nat "M")) 2%nat) = Val k
            /\ 1 <= k <= 4.
Proof.
  pose proof (run_rankings_bounds tie_heap [0; 1; 2; 3]%nat "M"%string) as H.
  destruct (calculateRunRankings tie_heap [0; 1; 2; 3]%nat "M") as [σ' [c1 c2]].
  destruct H as (Hc1 & _ & H1 & _).
  destruct (H1 2%nat ltac:(cbn; tauto) ltac:(vm_compute; reflexivity) ltac:(vm_compute; discriminate))
    as (k & Hk & Hb).
  exists k. split; [exact Hk|]. rewrite Hc1 in Hb.
  change (Z.of_nat (length (filter _ _))) with 4 in Hb. exact Hb.
Defined.

(** X7.  [calculateIndividualResults] for a gender writes only to the
    listed racers of that gender: a racer of another gender, or one not in
    the list, keeps every property, and no racer object is created. *)
Theorem individual_results_frame σ racers g rc :
  frame (fun l => In l racers /\ gender_is g (rd σ l) = true)
    σ (fst (calculateIndividualResults σ racers g rc)).
Proof.
  set (P := fun l => In l racers /\ gender_is g (rd σ l) = true).
  unfold calculateIndividualResults.
  pose proof (calculateRunRankings_frame_gender σ racers g) as Hf1.
  destruct (calculateRunRankings σ racers g) as [σ1 [c1 c2]]. cbn [fst] in Hf1.
  cbv beta iota zeta. cbn [fst].
  set (str := scoringTeamRacers σ racers g).
  assert (Hstr : forall l, In l str -> P l) by (intros l Hl; apply scoringTeamRacers_In in Hl; unfold P; tauto).
  eapply frame_trans; [exact Hf1|].
  eapply frame_trans; [eapply frame_weaken; [|apply assign_places_frame]|].
  { intros l Hl. apply scoringFinishers_In in Hl as [Hl _]. apply Hstr, Hl. }
  eapply frame_trans; [eapply frame_weaken; [|apply mark_non_scoring_frame]|].
  { intros l Hl. apply scoringNonFinishers_In in Hl as [Hl _]. apply Hstr, Hl. }
  eapply frame_weaken; [|apply mark_non_scoring_frame].
  intros l Hl. apply filter_In in Hl as [Hl _]. apply filter_In in Hl. exact Hl.
Qed.

(** X8.  [calculateTeamStandings] for a gender and a class writes only to
    the listed racers of that gender whose class matches: every other racer
    keeps every property, whether the call returns or throws, and no racer
    object is created. *)
Theorem team_standings_frame σ racers g rc topN :
  frame (fun l => In l racers /\ gender_is g (rd σ l) = true /\ matchesClass (class (rd σ l)) rc = true)
    σ (fst (calculateTeamStandings σ racers g rc topN)).
Proof.
  eapply frame_weaken; [|apply calculateTeamStandings_frame_filtered].
  intros l Hl. apply filter_In in Hl as [Hl H]. apply andb_true_iff in H. tauto.
Qed.

(** ** Lemmas on the team standings *)

Lemma fold_left_sum {A} (f : A -> Z) (l : list A) (a : Z) :
  fold_left (fun s x => s + f x) l a = a + fold_right (fun x s => f x + s) 0 l.
Proof.
  revert a; induction l as [|x l IH]; intros a; cbn [fold_left fold_right]; [lia|]. rewrite IH. lia.
Qed.

Lemma StronglySorted_filter {A} (R : A -> A -> Prop) (f : A -> bool) (l : list A) :
  StronglySorted R l -> StronglySorted R (filter f l).
Proof.
  induction 1 as [|a l Hl IH Ha]; cbn [filter]; [constructor|].
  destruct (f a); [|exact IH]. constructor; [exact IH|].
  apply Forall_forall. intros x Hx. apply filter_In in Hx as [Hx _].
  rewrite Forall_forall in Ha. apply Ha, Hx.
Qed.

Lemma StronglySorted_app_cross {A} (R : A -> A -> Prop) (l1 l2 : list A) :
  StronglySorted R (l1 ++ l2) -> forall x y, In x l1 -> In y l2 -> R x y.
Proof.
  induction l1 as [|a l1 IH]; intros H x y Hx Hy; [destruct Hx|].
  apply StronglySorted_inv in H as [H Ha]. destruct Hx as [<-|Hx].
  - rewrite Forall_forall in Ha. apply Ha, in_or_app. right; exact Hy.
  - exact (IH H x y Hx Hy).
Qed.

Lemma fold_isScoring ls : forall σ l,
  let σ' := fold_left (fun σ0 l => modify σ0 l (set_isScoring (Val true))) ls σ in
  teamPoints (rd σ' l) = teamPoints (rd σ l)
  /\ (In l ls \/ isScoring (rd σ l) = Val true -> isScoring (rd σ' l) = Val true).
Proof.
  induction ls as [|x ls IH]; intros σ l; cbn [fold_left]; [split; [reflexivity|intros [[]|H]; exact H]|].
  destruct (IH (modify σ x (set_isScoring (Val true))) l) as [H1 H2].
  split.
  - rewrite H1. destruct (Nat.eq_dec l x) as [->|Hne];
      [rewrite rd_modify_eq|rewrite rd_modify_ne by exact Hne]; reflexivity.
  - intros Hl. apply H2. destruct (in_dec Nat.eq_dec l ls) as [Hin|Hin]; [left; exact Hin|right].
    destruct (Nat.eq_dec l x) as [->|Hne]; [rewrite rd_modify_eq; reflexivity|].
    rewrite rd_modify_ne by exact Hne. destruct Hl as [[Hl|Hl]|Hl]; [congruence|contradiction|exact Hl].
Qed.

(** What [score_team] computes for one team. *)
Lemma score_team_spec topN σ name rs :
  let '(σ', t) := score_team topN σ name rs in
  ts_name t = name /\ Permutation (ts_racers t) rs
  /\ (length (ts_scoringRacers t) <= topN)%nat
  /\ (forall l, In l (ts_scoringRacers t) ->
        In l (ts_racers t) /\ exists z, teamPoints (rd σ l) = Val z /\ 0 < z)
  /\ (forall l z, In l (ts_racers t) -> ~ In l (ts_scoringRacers t) ->
        teamPoints (rd σ l) = Val z -> 0 < z ->
        length (ts_scoringRacers t) = topN
        /\ forall l', In l' (ts_scoringRacers t) -> z <= fld_z (teamPoints (rd σ l')))
  /\ ts_totalPoints t = fold_right (fun l s => fld_z (teamPoints (rd σ l)) + s) 0 (ts_scoringRacers t)
  /\ (forall l, teamPoints (rd σ' l) = teamPoints (rd σ l))
  /\ (forall l, In l (ts_scoringRacers t) \/ isScoring (rd σ l) = Val true ->
        isScoring (rd σ' l) = Val true).
Proof.
  unfold score_team.
  set (key := fun l => fld_z (teamPoints (rd σ l))).
  set (sorted := js_sort _ rs).
  set (pos := filter _ sorted).
  set (scoring := firstn topN pos).
  set (σ' := fold_left _ scoring σ).
  cbn [ts_name ts_racers ts_scoringRacers ts_totalPoints].
  assert (Hfold := fun l => fold_isScoring scoring σ l). cbv zeta in Hfold. fold σ' in Hfold.
  assert (Hperm : Permutation sorted rs) by apply js_sort_perm.
  assert (Hss : StronglySorted (fun a b => key b <= key a) pos).
  { apply StronglySorted_filter, Sorted_StronglySorted; [intros a b c; lia|].
    apply (js_sort_desc_sorted key rs). }
  assert (Hpos : forall l, In l pos <-> In l sorted /\ exists z, teamPoints (rd σ l) = Val z /\ 0 < z).
  { intros l. unfold pos. rewrite filter_In.
    destruct (teamPoints (rd σ l)) as [| |z]; split;
      try (intros [_ H]; discriminate H); try (intros [_ (z & H & _)]; discriminate H).
    - intros [H Hz]. split; [exact H|]. exists z. split; [reflexivity|]. apply Z.gtb_lt, Hz.
    - intros [H (z' & [= <-] & Hz)]. split; [exact H|]. apply Z.gtb_lt, Hz. }
  split; [reflexivity|]. split; [exact Hperm|].
  split; [unfold scoring; rewrite length_firstn; lia|].
  split; [|split; [|split; [|split]]].
  - intros l Hl. apply Hpos. unfold scoring in Hl.
    rewrite <- (firstn_skipn topN pos). apply in_or_app. left; exact Hl.
  - intros l z Hl Hns Hz Hz0.
    assert (Hlp : In l pos) by (apply Hpos; split; [exact Hl|exists z; split; assumption]).
    assert (Hsk : In l (skipn topN pos)).
    { rewrite <- (firstn_skipn topN pos) in Hlp. apply in_app_or in Hlp as [H|H]; [contradiction|exact H]. }
    split.
    + unfold scoring. rewrite length_firstn. apply Nat.min_l.
      destruct (Nat.le_gt_cases topN (length pos)) as [H|H]; [exact H|].
      rewrite skipn_all2 in Hsk by lia. destruct Hsk.
    + intros l' Hl'. rewrite <- (firstn_skipn topN pos) in Hss.
      pose proof (StronglySorted_app_cross _ _ _ Hss l' l Hl' Hsk) as H.
      unfold key in H. rewrite Hz in H. exact H.
  - rewrite fold_left_sum. cbn [Z.add].
    assert (Htp : forall l, teamPoints (rd σ' l) = teamPoints (rd σ l)) by (intros l; apply Hfold).
    clearbody σ' scoring. clear Hfold.
    induction scoring as [|x sc IH]; cbn [fold_right]; [reflexivity|].
    rewrite IH, Htp. reflexivity.
  - intros l. apply Hfold.
  - intros l Hl. apply Hfold, Hl.
Qed.

Lemma score_teams_spec topN ts : forall σ,
  let '(σ', out) := score_teams topN σ ts in
  (forall l, teamPoints (rd σ' l) = teamPoints (rd σ l))
  /\ (forall l, isScoring (rd σ l) = Val true -> isScoring (rd σ' l) = Val true)
  /\ forall t, In t out -> exists name rs σi, In (name, rs) ts
       /\ (forall l, teamPoints (rd σi l) = teamPoints (rd σ l))
       /\ snd (score_team topN σi name rs) = t
       /\ forall l, isScoring (rd (fst (score_team topN σi name rs)) l) = Val true ->
            isScoring (rd σ' l) = Val true.
Proof.
  induction ts as [|[name rs] ts IH]; intros σ; cbn [score_teams].
  - split; [reflexivity|]. split; [auto|]. intros t [].
  - pose proof (score_team_spec topN σ name rs) as Hs.
    destruct (score_team topN σ name rs) as [σ1 t1] eqn:E.
    destruct Hs as (_ & _ & _ & _ & _ & _ & Htp1 & His1).
    specialize (IH σ1). destruct (score_teams topN σ1 ts) as [σ2 ts'].
    destruct IH as (Htp2 & His2 & Hout).
    split; [intros l; rewrite Htp2; apply Htp1|].
    split; [intros l H; apply His2, His1; right; exact H|].
    intros t [<-|Ht].
    + exists name, rs, σ. split; [left; reflexivity|]. split; [reflexivity|].
      rewrite E. split; [reflexivity|]. exact His2.
    + destruct (Hout t Ht) as (n & r & σi & Hin & Htpi & Heq & Hisi).
      exists n, r, σi. split; [right; exact Hin|].
      split; [intros l; rewrite Htpi; apply Htp1|]. split; [exact Heq|exact Hisi].
Qed.

Lemma obj_set_In_key {A} (o : obj A) k v kv : In kv (obj_set o k v) -> In kv o \/ kv = (k, v).
Proof.
  induction o as [|[k' v'] o IH]; cbn; [intros [<-|[]]; right; reflexivity|].
  destruct (String.eqb_spec k' k) as [->|_]; cbn.
  - intros [<-|H]; [right; reflexivity|left; right; exact H].
  - intros [<-|H]; [left; left; reflexivity|]. destruct (IH H); [left; right|right]; assumption.
Qed.

Lemma obj_find_In_key {A} (o : obj A) k v : obj_find o k = Some v -> In (k, v) o.
Proof.
  induction o as [|[k' v'] o IH]; cbn; [discriminate|].
  destruct (String.eqb_spec k' k) as [->|_].
  - intros [= <-]. left; reflexivity.
  - intros H. right. exact (IH H).
Qed.

(** Each team group holds racers whose [team] is the group's key. *)
Lemma group_fold_team σ ls : forall o o',
  (forall kv, In kv o -> forall l, In l (snd kv) -> team (rd σ l) = Some (fst kv)) ->
  fold_left (group_step σ) ls (Some o) = Some o' ->
  forall kv, In kv o' -> forall l, In l (snd kv) -> team (rd σ l) = Some (fst kv).
Proof.
  induction ls as [|x ls IH]; intros o o' Ho Hf; cbn [fold_left] in Hf; [injection Hf as <-; exact Ho|].
  unfold group_step at 2 in Hf.
  destruct (team (rd σ x)) as [[|c k]|] eqn:Hx; [exact (IH o o' Ho Hf)| |exact (IH o o' Ho Hf)].
  unfold obj_get in Hf. destruct (obj_find o (String c k)) as [rs|] eqn:Hfind.
  - refine (IH _ o' _ Hf).
    intros kv Hkv l Hl. apply obj_set_In_key in Hkv as [Hkv|Hkv]; [apply (Ho kv Hkv l Hl)|subst kv].
    cbn [fst snd] in Hl |- *. apply in_app_or in Hl as [Hl|[<-|[]]]; [|exact Hx].
    exact (Ho _ (obj_find_In_key _ _ _ Hfind) l Hl).
  - destruct (existsb _ _); [rewrite group_fold_None in Hf; discriminate|].
    refine (IH _ o' _ Hf).
    intros kv Hkv l Hl. apply obj_set_In_key in Hkv as [Hkv|Hkv]; [apply (Ho kv Hkv l Hl)|subst kv].
    destruct Hl as [<-|[]]. exact Hx.
Qed.

Lemma assign_team_places_base fs : forall σ prev idx cp fsz,
  same_base σ (assign_team_places σ fs prev idx cp fsz).
Proof.
  induction fs as [|l fs IH]; intros σ prev idx cp fsz; simpl; [apply same_base_refl|].
  destruct (match prev with Some pr => _ | None => _ end) as [p q].
  eapply same_base_trans; [|apply IH]. apply same_base_modify; auto with setters.
Qed.

Lemma In_number_teams t ts :
  In t (number_teams ts) -> exists t0, In t0 ts /\ ts_name t = ts_name t0
    /\ ts_racers t = ts_racers t0 /\ ts_scoringRacers t = ts_scoringRacers t0
    /\ ts_totalPoints t = ts_totalPoints t0.
Proof.
  unfold number_teams. intros H. apply in_map_iff in H as ([t0 i] & <- & H).
  exists t0. split; [exact (in_combine_l _ _ _ _ H)|]. repeat split.
Qed.

(** What [calculateTeamStandings] returns, team by team. *)
Lemma calculateTeamStandings_spec σ racers g rc topN σ' ts :
  calculateTeamStandings σ racers g rc topN = (σ', Some ts) ->
  (forall i t, nth_error ts i = Some t -> ts_place t = Val (Z.of_nat i + 1))
  /\ Sorted (fun a b => b <= a) (map ts_totalPoints ts)
  /\ forall t, In t ts ->
      (forall l, In l (ts_racers t) ->
         In l racers /\ gender_is g (rd σ l) = true /\ matchesClass (class (rd σ l)) rc = true
         /\ team (rd σ l) = Some (ts_name t))
      /\ (length (ts_scoringRacers t) <= topN)%nat
      /\ (forall l, In l (ts_scoringRacers t) ->
            In l (ts_racers t) /\ isScoring (rd σ' l) = Val true
            /\ exists z, teamPoints (rd σ' l) = Val z /\ 0 < z)
      /\ (forall l z, In l (ts_racers t) -> ~ In l (ts_scoringRacers t) ->
            teamPoints (rd σ' l) = Val z -> 0 < z ->
            length (ts_scoringRacers t) = topN
            /\ forall l', In l' (ts_scoringRacers t) -> z <= fld_z (teamPoints (rd σ' l')))
      /\ ts_totalPoints t
         = fold_right (fun l s => fld_z (teamPoints (rd σ' l)) + s) 0 (ts_scoringRacers t).
Proof.
  unfold calculateTeamStandings.
  set (filtered := filter _ racers).
  set (cfs := Z.of_nat (length filtered)).
  set (fin := scoringFinishers σ filtered).
  set (σ1 := assign_team_places σ fin None 0 1 cfs).
  set (nonfin := scoringNonFinishers σ1 filtered).
  set (σ2 := fold_left _ nonfin σ1).
  assert (Hsub : forall l, In l (fin ++ nonfin) -> In l filtered).
  { intros l Hl. apply in_app_or in Hl as [Hl|Hl].
    - apply scoringFinishers_In in Hl as [Hl _]. exact Hl.
    - apply scoringNonFinishers_In in Hl as [Hl _]. exact Hl. }
  assert (Hb : same_base σ σ2).
  { eapply same_base_trans; [apply assign_team_places_base|].
    apply (fold_modify_base _ (fun _ _ => _)). auto with setters. }
  destruct (fold_left (group_step σ2) (fin ++ nonfin) (Some [])) as [teams|] eqn:Hg;
    [|intros [=]].
  pose proof (group_fold_sub σ2 (fun l => In l filtered) (fin ++ nonfin) [] teams
                Hsub ltac:(intros _ []) Hg) as Hgs.
  pose proof (group_fold_team σ2 (fin ++ nonfin) [] teams ltac:(intros _ []) Hg) as Hgt.
  set (entries := obj_values (map (fun kv => (fst kv, kv)) teams)).
  assert (Hent : forall name rs, In (name, rs) entries -> In (name, rs) teams).
  { intros name rs Hin. apply obj_values_In in Hin as [k Hk].
    apply in_map_iff in Hk as ([k' v] & [= <- <- <-] & Hkv). exact Hkv. }
  pose proof (score_teams_spec topN entries σ2) as Hst.
  destruct (score_teams topN σ2 entries) as [σ3 scored].
  destruct Hst as (Htp3 & _ & Hout).
  intros [= <- <-].
  set (standings := js_sort _ scored).
  split; [|split].
  - intros i t Hi. unfold number_teams in Hi.
    apply nth_error_map_combine_seq in Hi as (y & _ & ->). reflexivity.
  - unfold number_teams. rewrite map_map, map_combine_seq with (g := ts_totalPoints) by (intros [] ?; reflexivity).
    apply Sorted_map_key, js_sort_desc_sorted.
  - intros t Ht. apply In_number_teams in Ht as (t0 & Ht0 & Hn & Hr & Hsc & Htot).
    rewrite Hn, Hr, Hsc, Htot. clear t Hn Hr Hsc Htot.
    apply (Permutation_in _ (js_sort_perm _ _)) in Ht0.
    destruct (Hout t0 Ht0) as (name & rs & σi & Hin & Htpi & Heq & Hisi).
    pose proof (score_team_spec topN σi name rs) as Hs.
    destruct (score_team topN σi name rs) as [σi' t1]. cbn [fst snd] in Heq, Hisi. subst t1.
    destruct Hs as (Hname & Hperm & Hlen & Hsc & Hbest & Htot & _ & His).
    assert (Htp : forall l, teamPoints (rd σ3 l) = teamPoints (rd σi l))
      by (intros l; rewrite Htp3, Htpi; reflexivity).
    apply Hent in Hin.
    split; [|split; [exact Hlen|split; [|split]]].
    + intros l Hl. apply (Permutation_in _ Hperm) in Hl.
      pose proof (Hgs _ Hin l Hl) as Hf. pose proof (Hgt _ Hin l Hl) as Ht. cbn [fst] in Ht.
      apply filter_In in Hf as [Hf Hgc]. apply andb_true_iff in Hgc as [Hgd Hcl].
      split; [exact Hf|]. split; [exact Hgd|]. split; [exact Hcl|].
      rewrite Hname. base_of Hb l. congruence.
    + intros l Hl. destruct (Hsc l Hl) as [Hr (z & Hz & Hz0)].
      split; [exact Hr|]. split; [apply Hisi, His; left; exact Hl|].
      exists z. rewrite Htp. split; assumption.
    + intros l z Hl Hns Hz Hz0. rewrite Htp in Hz.
      destruct (Hbest l z Hl Hns Hz Hz0) as [Hn Hle]. split; [exact Hn|].
      intros l' Hl'. rewrite Htp. exact (Hle l' Hl').
    + rewrite Htot. clear -Htp. induction (ts_scoringRacers t0) as [|x sc IH]; [reflexivity|].
      cbn [fold_right]. rewrite IH, Htp. reflexivity.
Qed.

(** ** X9 - X10: the team standings *)

(** X9.  When [calculateTeamStandings] returns standings, the team at
    position [i] has place [i + 1], the totals never increase down the list,
    and every racer listed for a team is one of the given racers, of the
    gender and class asked for, whose [team] is the team's name. *)
Theorem team_standings_order σ racers g rc topN σ' ts
    (H : calculateTeamStandings σ racers g rc topN = (σ', Some ts)) :
  (forall i t, nth_error ts i = Some t -> ts_place t = Val (Z.of_nat i + 1))
  /\ Sorted (fun a b => b <= a) (map ts_totalPoints ts)
  /\ forall t l, In t ts -> In l (ts_racers t) ->
       In l racers /\ gender_is g (rd σ l) = true /\ matchesClass (class (rd σ l)) rc = true
       /\ team (rd σ l) = Some (ts_name t).
Proof.
  destruct (calculateTeamStandings_spec _ _ _ _ _ _ _ H) as (Hp & Hs & Ht).
  split; [exact Hp|]. split; [exact Hs|].
  intros t l Hin Hl. exact (proj1 (Ht t Hin) l Hl).
Qed.

Lemma team_standings_order_witness :
  exists σ' ts, calculateTeamStandings tie_heap [0; 1; 2; 3]%nat "M" "Varsity" 4 = (σ', Some ts)
    /\ Sorted (fun a b => b <= a) (map ts_totalPoints ts).
Proof.
  destruct (calculateTeamStandings tie_heap [0; 1; 2; 3]%nat "M" "Varsity" 4) as [σ' [ts|]] eqn:E;
    [|vm_compute in E; discriminate E].
  exists σ', ts. split; [reflexivity|].
  exact (proj1 (proj2 (team_standings_order _ _ _ _ _ _ _ E))).
Defined.

(** X10.  In the standings [calculateTeamStandings] returns, a team's
    [scoringRacers] are at most [topN] of its racers, each with positive
    team points and marked [isScoring]; a racer of the team left out with
    positive points implies [topN] scoring racers, none with fewer points;
    and [totalPoints] is the sum of the scoring racers' team points. *)
Theorem team_scoring_racers σ racers g rc topN σ' ts
    (H : calculateTeamStandings σ racers g rc topN = (σ', Some ts)) :
  forall t, In t ts ->
    (length (ts_scoringRacers t) <= topN)%nat
    /\ (forall l, In l (ts_scoringRacers t) ->
          In l (ts_racers t) /\ isScoring (rd σ' l) = Val true
          /\ exists z, teamPoints (rd σ' l) = Val z /\ 0 < z)
    /\ (forall l z, In l (ts_racers t) -> ~ In l (ts_scoringRacers t) ->
          teamPoints (rd σ' l) = Val z -> 0 < z ->
          length (ts_scoringRacers t) = topN
          /\ forall l', In l' (ts_scoringRacers t) -> z <= fld_z (teamPoints (rd σ' l')))
    /\ ts_totalPoints t
       = fold_right (fun l s => fld_z (teamPoints (rd σ' l)) + s) 0 (ts_scoringRacers t).
Proof.
  destruct (calculateTeamStandings_spec _ _ _ _ _ _ _ H) as (_ & _ & Ht).
  intros t Hin. exact (proj2 (Ht t Hin)).
Qed.

Lemma team_scoring_racers_witness :
  exists σ' ts, calculateTeamStandings tie_heap [0; 1; 2; 3]%nat "M" "Varsity" 4 = (σ', Some ts)
    /\ forall t, In t ts -> (length (ts_scoringRacers t) <= 4)%nat.
Proof.
  destruct (calculateTeamStandings tie_heap [0; 1; 2; 3]%nat "M" "Varsity" 4) as [σ' [ts|]] eqn:E;
    [|vm_compute in E; discriminate E].
  exists σ', ts. split; [reflexivity|].
  intros t Hin. exact (proj1 (team_scoring_racers _ _ _ _ _ _ _ E t Hin)).
Defined.

(** ** Lemmas on combining the races of an event *)

Lemma existsb_eqb_In k l : existsb (String.eqb k) l = true <-> In k l.
Proof.
  rewrite existsb_exists. split.
  - intros (x & Hx & He). apply String.eqb_eq in He. subst x. exact Hx.
  - intros H. exists k. split; [exact H|apply String.eqb_refl].
Qed.

Lemma event_racers_fold xs : forall all seen,
  (forall k, In k seen <-> In k (map event_racer_key all)) -> NoDup (map event_racer_key all) ->
  let st := fold_left event_racers_step xs (all, seen) in
  (forall k, In k (snd st) <-> In k (map event_racer_key (fst st)))
  /\ NoDup (map event_racer_key (fst st))
  /\ (forall r, In r (fst st) -> In r all \/ In r xs)
  /\ (forall r, In r all \/ In r xs ->
        exists r', In r' (fst st) /\ event_racer_key r' = event_racer_key r).
Proof.
  induction xs as [|x xs IH]; intros all seen Hs Hn; cbn [fold_left].
  - split; [exact Hs|]. split; [exact Hn|]. split; [intros r H; left; exact H|].
    intros r [H|[]]. exists r. split; [exact H|reflexivity].
  - assert (Hstep : event_racers_step (all, seen) x
                     = if existsb (String.eqb (event_racer_key x)) seen then (all, seen)
                       else (all ++ [x], event_racer_key x :: seen)) by reflexivity.
    rewrite Hstep. clear Hstep.
    destruct (existsb (String.eqb (event_racer_key x)) seen) eqn:He.
    + apply existsb_eqb_In, Hs, in_map_iff in He as (rx & Hkx & Hrx).
      destruct (IH all seen Hs Hn) as (H1 & H2 & H3 & H4).
      split; [exact H1|]. split; [exact H2|].
      split; [intros r Hr; destruct (H3 r Hr) as [H|H]; [left|right; right]; exact H|].
      intros r [Hr|[<-|Hr]]; [apply H4; left; exact Hr| |apply H4; right; exact Hr].
      destruct (H4 rx (or_introl Hrx)) as (r' & Hr' & Hk). exists r'.
      split; [exact Hr'|congruence].
    + assert (Hnin : ~ In (event_racer_key x) (map event_racer_key all)).
      { intros H. apply Hs, existsb_eqb_In in H. congruence. }
      assert (Hs' : forall k, In k (event_racer_key x :: seen)
                      <-> In k (map event_racer_key (all ++ [x]))).
      { intros k. cbn [In]. rewrite map_app, in_app_iff, (Hs k). cbn. tauto. }
      assert (Hn' : NoDup (map event_racer_key (all ++ [x]))).
      { rewrite map_app. apply (Permutation_NoDup (Permutation_cons_append _ _)).
        constructor; assumption. }
      destruct (IH _ _ Hs' Hn') as (H1 & H2 & H3 & H4).
      split; [exact H1|]. split; [exact H2|].
      split.
      * intros r Hr. destruct (H3 r Hr) as [H|H]; [|right; right; exact H].
        apply in_app_or in H as [H|[<-|[]]]; [left; exact H|right; left; reflexivity].
      * intros r Hr. apply H4. destruct Hr as [Hr|[<-|Hr]].
        -- left. apply in_or_app. left; exact Hr.
        -- left. apply in_or_app. right; left; reflexivity.
        -- right; exact Hr.
Qed.

(** ** X11: the racers of an event *)

(** X11.  [getEventRacers] keeps one racer per key
    [bib_firstName_lastName_team]: the keys of its result are pairwise
    distinct, each racer it returns comes from one of the races, and every
    racer of every race has a racer with the same key in the result. *)
Theorem getEventRacers_dedup races :
  NoDup (map event_racer_key (getEventRacers races))
  /\ (forall r, In r (getEventRacers races) -> In r (concat races))
  /\ (forall r, In r (concat races) ->
        exists r', In r' (getEventRacers races) /\ event_racer_key r' = event_racer_key r).
Proof.
  unfold getEventRacers.
  destruct (event_racers_fold (concat races) [] [] ltac:(intros k; cbn; tauto) (NoDup_nil _))
    as (_ & H2 & H3 & H4).
  split; [exact H2|]. split.
  - intros r Hr. destruct (H3 r Hr) as [[]|H]; exact H.
  - intros r Hr. apply H4. right; exact Hr.
Qed.

(** ** Lemmas on [stripGenderFromName] *)

Lemma list_ascii_of_string_app s t :
  list_ascii_of_string (s ++ t) = list_ascii_of_string s ++ list_ascii_of_string t.
Proof. induction s as [|c s IH]; cbn; [reflexivity|]. rewrite IH. reflexivity. Qed.

Lemma string_of_list_ascii_app l m :
  string_of_list_ascii (l ++ m) = (string_of_list_ascii l ++ string_of_list_ascii m)%string.
Proof. induction l as [|c l IH]; cbn; [reflexivity|]. rewrite IH. reflexivity. Qed.

Lemma strip_word_lower pre rest : strip_word (map lower_char pre) (pre ++ rest) = Some rest.
Proof.
  induction pre as [|c pre IH]; cbn; [reflexivity|]. rewrite Ascii.eqb_refl. exact IH.
Qed.

Lemma strip_word_Some w : forall l r, strip_word w l = Some r ->
  exists pre, l = pre ++ r /\ map lower_char pre = w.
Proof.
  induction w as [|c w IH]; intros l r H; cbn in H.
  - injection H as <-. exists []. split; reflexivity.
  - destruct l as [|d l]; [discriminate|].
    destruct (Ascii.eqb_spec c (lower_char d)) as [->|_]; [|discriminate].
    destruct (IH l r H) as (pre & -> & Hp). exists (d :: pre). cbn. rewrite Hp. split; reflexivity.
Qed.

Lemma drop_ws_app_ws w l : Forall (fun c => is_ws c = true) w -> drop_ws (w ++ l) = drop_ws l.
Proof. induction 1 as [|c w Hc _ IH]; cbn; [reflexivity|]. rewrite Hc. exact IH. Qed.

Lemma drop_ws_idem l : drop_ws (drop_ws l) = drop_ws l.
Proof.
  induction l as [|c l IH]; cbn; [reflexivity|].
  destruct (is_ws c) eqn:Hc; [exact IH|]. cbn. rewrite Hc. reflexivity.
Qed.

Lemma trim_drop_ws l : trim (string_of_list_ascii (drop_ws l)) = trim (string_of_list_ascii l).
Proof. unfold trim. rewrite !list_ascii_of_string_of_list_ascii, drop_ws_idem. reflexivity. Qed.

Lemma toLowerCase_list p :
  list_ascii_of_string (toLowerCase p) = map lower_char (list_ascii_of_string p).
Proof. unfold toLowerCase, map_chars. apply list_ascii_of_string_of_list_ascii. Qed.

(** ** X12: [stripGenderFromName] *)

(** X12.  [stripGenderFromName] removes a leading word "Boys" or "Girls"
    (in any letter case) followed by whitespace, together with that
    whitespace, and trims the rest; a name that does not begin that way is
    only trimmed. *)
Theorem stripGenderFromName_prefix :
  (forall p w x, (toLowerCase p = "boys" \/ toLowerCase p = "girls")%string ->
     w <> EmptyString -> Forall (fun c => is_ws c = true) (list_ascii_of_string w) ->
     stripGenderFromName (p ++ w ++ x) = trim x)
  /\ (forall name,
        (forall p w x, name = (p ++ w ++ x)%string ->
           (toLowerCase p = "boys" \/ toLowerCase p = "girls")%string ->
           w <> EmptyString -> Forall (fun c => is_ws c = true) (list_ascii_of_string w) -> False) ->
        stripGenderFromName name = trim name).
Proof.
  split.
  - intros p w x Hp Hw Hws.
    assert (Hl : map lower_char (list_ascii_of_string p) = list_ascii_of_string "boys"
                 \/ map lower_char (list_ascii_of_string p) = list_ascii_of_string "girls").
    { rewrite <- !toLowerCase_list. destruct Hp as [-> | ->]; [left|right]; reflexivity. }
    destruct w as [|c w]; [contradiction|]. cbn in Hws. apply Forall_cons_iff in Hws as [Hc Hws].
    destruct p as [|d p]; [destruct Hl as [Hl|Hl]; discriminate Hl|].
    transitivity (trim (string_of_list_ascii (strip_gender_chars
                    (list_ascii_of_string (String d p ++ String c w ++ x))))); [reflexivity|].
    rewrite !list_ascii_of_string_app.
    change (list_ascii_of_string (String c w)) with (c :: list_ascii_of_string w).
    set (L := list_ascii_of_string (String d p)) in *.
    unfold strip_gender_chars. cbv zeta. rewrite <- app_comm_cons.
    assert (Hafter : match strip_word (list_ascii_of_string "boys")
                             (L ++ c :: list_ascii_of_string w ++ list_ascii_of_string x) with
                     | Some r => Some r
                     | None => strip_word (list_ascii_of_string "girls")
                                 (L ++ c :: list_ascii_of_string w ++ list_ascii_of_string x)
                     end = Some (c :: list_ascii_of_string w ++ list_ascii_of_string x)).
    { destruct Hl as [Hl|Hl]; rewrite <- Hl, strip_word_lower; [reflexivity|].
      unfold L in Hl |- *. cbn [list_ascii_of_string map] in Hl. injection Hl as Hd _.
      cbn [strip_word list_ascii_of_string app]. rewrite Hd. reflexivity. }
    rewrite Hafter, Hc, drop_ws_app_ws by exact Hws.
    rewrite trim_drop_ws, string_of_list_ascii_of_string. reflexivity.
  - intros name Hn. destruct name as [|d s]; [reflexivity|].
    unfold stripGenderFromName. unfold strip_gender_chars.
    destruct (match strip_word (list_ascii_of_string "boys") _ with Some r => Some r
              | None => _ end) as [[|c r]|] eqn:Ha;
      try (rewrite string_of_list_ascii_of_string; reflexivity).
    destruct (is_ws c) eqn:Hc; [|rewrite string_of_list_ascii_of_string; reflexivity].
    exfalso.
    assert (Hw : exists pre, list_ascii_of_string (String d s) = pre ++ c :: r
                 /\ (map lower_char pre = list_ascii_of_string "boys"
                     \/ map lower_char pre = list_ascii_of_string "girls")).
    { destruct (strip_word (list_ascii_of_string "boys") _) eqn:Hb.
      - injection Ha as ->. apply strip_word_Some in Hb as (pre & Hpre & Hm).
        exists pre. split; [exact Hpre|left; exact Hm].
      - apply strip_word_Some in Ha as (pre & Hpre & Hm).
        exists pre. split; [exact Hpre|right; exact Hm]. }
    destruct Hw as (pre & Hpre & Hm).
    apply (Hn (string_of_list_ascii pre) (String c EmptyString) (string_of_list_ascii r)).
    + rewrite <- (string_of_list_ascii_of_string (String d s)), Hpre, string_of_list_ascii_app.
      reflexivity.
    + unfold toLowerCase, map_chars. rewrite list_ascii_of_string_of_list_ascii.
      destruct Hm as [-> | ->]; [left|right]; reflexivity.
    + discriminate.
    + cbn. constructor; [exact Hc|constructor].
Qed.

Lemma stripGenderFromName_prefix_witness :
  stripGenderFromName "GIRLS  Giant Slalom " = "Giant Slalom"%string.
Proof.
  exact (proj1 stripGenderFromName_prefix "GIRLS"%string "  "%string "Giant Slalom "%string
           ltac:(right; reflexivity) ltac:(discriminate) ltac:(repeat constructor)).
Defined.

(** ** Lemmas on grouping races into events *)

Lemma group_race_eq o x :
  group_race (Some o) x
  = match obj_get o (race_date x) with
    | Own e => Some (obj_set o (race_date x) (event_update e x))
    | Inherited => None
    | Missing => Some (obj_set o (race_date x) (event_update (new_event x) x))
    end.
Proof. unfold group_race. destruct (obj_get o (race_date x)); reflexivity. Qed.

Lemma event_update_eqs e x :
  let s := stripGenderFromName (h_name (header x)) in
  let loc := h_location (header x) in
  a_date (event_update e x) = a_date e
  /\ a_races (event_update e x) = a_races e ++ [x]
  /\ a_discipline (event_update e x) = a_discipline e
  /\ a_name (event_update e x)
     = (if negb (s =? EmptyString)%string && (String.length (a_name e) <? String.length s)%nat
        then s else a_name e)
  /\ a_location (event_update e x)
     = (if negb (loc =? EmptyString)%string && (a_location e =? EmptyString)%string
        then loc else a_location e).
Proof.
  unfold event_update. cbv zeta. cbn [a_name a_location a_races a_date a_discipline].
  destruct (negb _ && (String.length (a_name e) <? _)%nat);
    cbn [a_name a_location a_races a_date a_discipline];
    destruct (negb _ && (a_location e =? EmptyString)%string); repeat split.
Qed.

Lemma find_app {A} (f : A -> bool) l m :
  find f (l ++ m) = match find f l with Some y => Some y | None => find f m end.
Proof. induction l as [|a l IH]; cbn; [reflexivity|]. destruct (f a); [reflexivity|exact IH]. Qed.

Lemma find_Some_true {A} (f : A -> bool) l y : find f l = Some y -> f y = true.
Proof.
  induction l as [|a l IH]; cbn; [discriminate|].
  destruct (f a) eqn:Ha; [intros [= <-]; exact Ha|exact IH].
Qed.

Lemma event_fields_update e x : event_fields e -> event_fields (event_update e x).
Proof.
  intros (Hd & Hl & Hn & Hm).
  destruct (event_update_eqs e x) as (Edate & Eraces & Edisc & Ename & Eloc).
  cbv zeta in Ename, Eloc.
  set (s := stripGenderFromName (h_name (header x))) in *.
  unfold event_fields. rewrite Eraces, Edisc, Ename, Eloc.
  split; [|split; [|split]].
  - destruct Hd as (r & rest & Hr & Hdr). exists r, (rest ++ [x]). rewrite Hr. split; [reflexivity|exact Hdr].
  - rewrite find_app. destruct (find _ (a_races e)) as [r|] eqn:Hf.
    + apply find_Some_true in Hf. rewrite Hl in *.
      apply negb_true_iff, String.eqb_neq in Hf.
      destruct (String.eqb_spec (h_location (header r)) EmptyString) as [E|_]; [contradiction|].
      rewrite andb_false_r. reflexivity.
    + rewrite Hl. cbn. destruct (negb (h_location (header x) =? EmptyString)%string); reflexivity.
  - destruct (negb (s =? EmptyString)%string && _).
    + exists x. split; [apply in_or_app; right; left; reflexivity|reflexivity].
    + destruct Hn as (r & Hr & Hnr). exists r. split; [apply in_or_app; left; exact Hr|exact Hnr].
  - intros r Hr. apply in_app_or in Hr as [Hr|[<-|[]]].
    + specialize (Hm r Hr).
      destruct (negb (s =? EmptyString)%string && _) eqn:B; [|exact Hm].
      apply andb_true_iff in B as [_ B]. apply Nat.ltb_lt in B. lia.
    + fold s. destruct (negb (s =? EmptyString)%string && _) eqn:B; [lia|].
      destruct (String.eqb_spec s EmptyString) as [E|_]; [rewrite E; cbn; lia|].
      cbn in B. apply Nat.ltb_ge in B. exact B.
Qed.

Lemma event_fields_new x : event_fields (event_update (new_event x) x).
Proof.
  destruct (event_update_eqs (new_event x) x) as (Edate & Eraces & Edisc & Ename & Eloc).
  cbv zeta in Ename, Eloc. cbn [new_event a_name a_location a_races a_discipline] in *.
  unfold event_fields. rewrite Eraces, Edisc, Ename, Eloc. cbn [app].
  rewrite Nat.ltb_irrefl, andb_false_r.
  split; [|split; [|split]].
  - exists x, []. split; reflexivity.
  - cbn. destruct (String.eqb_spec (h_location (header x)) EmptyString) as [E|_]; cbn; [|reflexivity].
    exact E.
  - exists x. split; [left; reflexivity|reflexivity].
  - intros r [<-|[]]. lia.
Qed.

Lemma obj_find_None {A} (o : obj A) k : obj_find o k = None -> forall v, ~ In (k, v) o.
Proof.
  induction o as [|[k' v'] o IH]; cbn; [intros _ v []|].
  destruct (String.eqb_spec k' k) as [->|Hne]; [discriminate|].
  intros H v [E|Hin]; [injection E as -> _; contradiction|exact (IH H v Hin)].
Qed.

Lemma obj_set_In_iff {A} (o : obj A) k v k' v' : NoDup (map fst o) ->
  In (k', v') (obj_set o k v) <-> (k' = k /\ v' = v) \/ (k' <> k /\ In (k', v') o).
Proof.
  induction o as [|[k0 v0] o IH]; cbn; intros Hn.
  - split; [intros [[= -> ->]|[]]; left; split; reflexivity|].
    intros [[-> ->]|[_ []]]. left; reflexivity.
  - apply NoDup_cons_iff in Hn as [Hk0 Hn].
    destruct (String.eqb_spec k0 k) as [->|Hne]; cbn.
    + split.
      * intros [[= -> ->]|H]; [left; split; reflexivity|right].
        split; [|right; exact H]. intros ->. apply Hk0, in_map_iff. exists (k, v'). split; [reflexivity|exact H].
      * intros [[-> ->]|[Hne [E|H]]]; [left; reflexivity|injection E as -> _; contradiction|right; exact H].
    + rewrite (IH Hn). split.
      * intros [[= -> ->]|[H|H]]; [right; split; [exact Hne|left; reflexivity]|left; exact H|].
        right. split; [apply H|right; apply H].
      * intros [H|[H [E|H']]]; [right; left; exact H|left; exact E|right; right; split; assumption].
Qed.

Lemma obj_set_NoDup {A} (o : obj A) k v : NoDup (map fst o) -> NoDup (map fst (obj_set o k v)).
Proof.
  induction o as [|[k0 v0] o IH]; cbn; intros Hn; [constructor; [intros []|constructor]|].
  apply NoDup_cons_iff in Hn as [Hk0 Hn].
  destruct (String.eqb_spec k0 k) as [->|Hne]; cbn; constructor; [exact Hk0|exact Hn| |exact (IH Hn)].
  intros H. apply in_map_iff in H as ([k1 v1] & E & H). cbn in E. subst k1.
  apply obj_set_In_key in H as [H|E]; [|injection E as -> _; contradiction].
  apply Hk0, in_map_iff. exists (k0, v1). split; [reflexivity|exact H].
Qed.

Lemma group_race_fold_None xs : fold_left group_race xs None = None.
Proof. induction xs as [|x xs IH]; [reflexivity|exact IH]. Qed.

Lemma group_race_proto done o x :
  events_inv done o -> In (race_date x) proto_keys -> group_race (Some o) x = None.
Proof.
  intros (_ & _ & Hk) Hp. rewrite group_race_eq. unfold obj_get.
  destruct (obj_find o (race_date x)) as [e|] eqn:Hf.
  - apply obj_find_In_key in Hf. destruct (Hk _ _ Hf) as (_ & Hnp & _). contradiction.
  - apply existsb_eqb_In in Hp. rewrite Hp. reflexivity.
Qed.

Lemma group_race_step done o x :
  events_inv done o -> ~ In (race_date x) proto_keys ->
  exists o', group_race (Some o) x = Some o' /\ events_inv (done ++ [x]) o'.
Proof.
  intros (Hn & Hc & Hk) Hp. rewrite group_race_eq. unfold obj_get.
  set (d := race_date x) in *.
  assert (Hflt : forall k, k <> d ->
            filter (fun r => (race_date r =? k)%string) (done ++ [x])
            = filter (fun r => (race_date r =? k)%string) done).
  { intros k Hne. rewrite filter_app. cbn. fold d.
    destruct (String.eqb_spec d k) as [E|_]; [congruence|]. apply app_nil_r. }
  assert (Hfd : filter (fun r => (race_date r =? d)%string) (done ++ [x])
                = filter (fun r => (race_date r =? d)%string) done ++ [x]).
  { rewrite filter_app. cbn. fold d. rewrite String.eqb_refl. reflexivity. }
  assert (Hset : forall e', a_date e' = d -> a_races e' = filter (fun r => (race_date r =? d)%string) done ++ [x] ->
             event_fields e' -> events_inv (done ++ [x]) (obj_set o d e')).
  { intros e' Hd' Hr' Hf'. split; [apply obj_set_NoDup, Hn|]. split.
    - intros r Hr. apply in_app_or in Hr as [Hr|[<-|[]]].
      + destruct (String.eqb_spec (race_date r) d) as [E|Hne].
        * exists e'. rewrite E. apply obj_set_In_iff; [exact Hn|]. left; split; reflexivity.
        * destruct (Hc r Hr) as [e Hin]. exists e. apply obj_set_In_iff; [exact Hn|].
          right; split; assumption.
      + exists e'. apply obj_set_In_iff; [exact Hn|]. left; split; reflexivity.
    - intros k e Hin. apply (obj_set_In_iff o d e' k e Hn) in Hin as [[-> ->]|[Hne Hin]].
      + split; [exact Hd'|]. split; [exact Hp|]. split; [rewrite Hfd; exact Hr'|exact Hf'].
      + destruct (Hk k e Hin) as (H1 & H2 & H3 & H4). split; [exact H1|]. split; [exact H2|].
        split; [rewrite Hflt by exact Hne; exact H3|exact H4]. }
  destruct (obj_find o d) as [e|] eqn:Hf.
  - apply obj_find_In_key in Hf. destruct (Hk _ _ Hf) as (H1 & _ & H3 & H4).
    destruct (event_update_eqs e x) as (Edate & Eraces & _).
    eexists. split; [reflexivity|]. apply Hset.
    + rewrite Edate. exact H1.
    + rewrite Eraces, H3. reflexivity.
    + apply event_fields_update, H4.
  - destruct (existsb (String.eqb d) proto_keys) eqn:Hpk; [apply existsb_eqb_In in Hpk; contradiction|].
    destruct (event_update_eqs (new_event x) x) as (Edate & Eraces & _).
    eexists. split; [reflexivity|]. apply Hset.
    + rewrite Edate. reflexivity.
    + rewrite Eraces. cbn [new_event a_races app].
      enough (E : filter (fun r => (race_date r =? d)%string) done = []) by (rewrite E; reflexivity).
      assert (Hno : forall r, In r done -> race_date r <> d).
      { intros r Hr E. destruct (Hc r Hr) as [e' He']. rewrite E in He'.
        exact (obj_find_None _ _ Hf e' He'). }
      clear -Hno. induction done as [|r done IH]; cbn; [reflexivity|].
      destruct (String.eqb_spec (race_date r) d) as [E|_];
        [exfalso; exact (Hno r (or_introl eq_refl) E)|].
      apply IH. intros r' Hr'. apply Hno. right; exact Hr'.
    + apply event_fields_new.
Qed.

Lemma group_fold_events xs : forall done o, events_inv done o ->
  (fold_left group_race xs (Some o) = None <-> exists r, In r xs /\ In (race_date r) proto_keys)
  /\ forall o', fold_left group_race xs (Some o) = Some o' -> events_inv (done ++ xs) o'.
Proof.
  induction xs as [|x xs IH]; intros done o Hi; cbn [fold_left].
  - split; [split; [discriminate|intros (r & [] & _)]|].
    intros o' [= <-]. rewrite app_nil_r. exact Hi.
  - destruct (in_dec string_dec (race_date x) proto_keys) as [Hp|Hp].
    + rewrite (group_race_proto done o x Hi Hp), group_race_fold_None.
      split; [split; [intros _; exists x; split; [left; reflexivity|exact Hp]|reflexivity]|discriminate].
    + destruct (group_race_step done o x Hi Hp) as (o1 & E & Hi1). rewrite E.
      destruct (IH _ _ Hi1) as [HN HS]. split.
      * rewrite HN. split.
        -- intros (r & Hr & Hrp). exists r. split; [right; exact Hr|exact Hrp].
        -- intros (r & [<-|Hr] & Hrp); [contradiction|]. exists r. split; assumption.
      * intros o' Ho'. rewrite <- app_assoc in HS. exact (HS o' Ho').
Qed.

Lemma filter_partition_perm {A} (f g : A -> bool) l :
  (forall x, g x = negb (f x)) -> Permutation (filter f l ++ filter g l) l.
Proof.
  intros Hg. induction l as [|a l IH]; cbn; [reflexivity|].
  rewrite Hg. destruct (f a); cbn.
  - constructor. exact IH.
  - rewrite <- Permutation_middle. constructor. exact IH.
Qed.

Lemma obj_values_perm {A} (o : obj A) : Permutation (obj_values o) (map snd o).
Proof.
  unfold obj_values. apply Permutation_map.
  etransitivity; [apply Permutation_app_tail, js_sort_perm|].
  apply filter_partition_perm. intros kv. destruct (array_index (fst kv)); reflexivity.
Qed.

Lemma groupRacesIntoEvents_spec date_value races :
  (groupRacesIntoEvents date_value races = None
     <-> exists r, In r races /\ In (race_date r) proto_keys)
  /\ forall evs, groupRacesIntoEvents date_value races = Some evs ->
       NoDup (map a_date evs)
       /\ (forall r, In r races -> exists e, In e evs /\ a_date e = race_date r)
       /\ forall e, In e evs ->
            a_races e = filter (fun r => (race_date r =? a_date e)%string) races
            /\ event_fields e.
Proof.
  assert (Hi0 : events_inv [] []).
  { split; [constructor|]. split; [intros _ []|intros k e []]. }
  destruct (group_fold_events races [] [] Hi0) as [HN HS].
  unfold groupRacesIntoEvents.
  destruct (fold_left group_race races (Some [])) as [o|] eqn:Hf.
  - split; [split; [discriminate|intros H; apply HN in H; discriminate (eq_trans (eq_sym H) Hf)]|].
    intros evs [= <-]. destruct (HS o Hf) as (Hn & Hc & Hk).
    assert (Hp : Permutation (js_sort (fun a b => num_sub (date_value (a_date b)) (date_value (a_date a)))
                                (obj_values o)) (map snd o))
      by (etransitivity; [apply js_sort_perm|apply obj_values_perm]).
    split; [|split].
    + apply (Permutation_NoDup (Permutation_map a_date (Permutation_sym Hp))).
      rewrite map_map. erewrite map_ext_in; [exact Hn|].
      intros [k e] Hin. cbn. apply (Hk k e Hin).
    + intros r Hr. destruct (Hc r Hr) as [e He]. exists e.
      split; [|apply (Hk _ _ He)].
      apply (Permutation_in _ (Permutation_sym Hp)), in_map_iff. exists (race_date r, e).
      split; [reflexivity|exact He].
    + intros e He. apply (Permutation_in _ Hp), in_map_iff in He as ([k e'] & E & Hin).
      cbn in E. subst e'. destruct (Hk k e Hin) as (H1 & _ & H3 & H4).
      rewrite H1. split; [exact H3|exact H4].
  - split; [split; [intros _; apply HN; exact Hf|reflexivity]|intros evs [=]].
Qed.

(** ** X13 - X14: grouping races into events *)

(** X13.  [groupRacesIntoEvents] throws (here [None]) exactly when the date
    of some race (its header date, or "unknown") is a property name
    inherited from [Object.prototype]. Otherwise it returns one event per
    date: the event dates are pairwise distinct, every race has the event of
    its date, and an event's races are the races of its date in input order. *)
Theorem groupRacesIntoEvents_by_date date_value races :
  (groupRacesIntoEvents date_value races = None
     <-> exists r, In r races /\ In (race_date r) proto_keys)
  /\ forall evs, groupRacesIntoEvents date_value races = Some evs ->
       NoDup (map a_date evs)
       /\ (forall r, In r races -> exists e, In e evs /\ a_date e = race_date r)
       /\ forall e, In e evs ->
            a_races e = filter (fun r => (race_date r =? a_date e)%string) races.
Proof.
  destruct (groupRacesIntoEvents_spec date_value races) as [HN HS].
  split; [exact HN|]. intros evs H. destruct (HS evs H) as (H1 & H2 & H3).
  split; [exact H1|]. split; [exact H2|]. intros e He. apply (H3 e He).
Qed.

Lemma groupRacesIntoEvents_by_date_witness :
  exists evs,
    groupRacesIntoEvents (fun _ => NaN)
      [mkRace (mkRaceHeader "Boys Slalom" "2025-01-10" "Mt Kato" "SL") [];
       mkRace (mkRaceHeader "Girls GS" "2025-01-17" EmptyString "GS") [];
       mkRace (mkRaceHeader "Girls Slalom" "2025-01-10" EmptyString "SL") []] = Some evs
    /\ NoDup (map a_date evs).
Proof.
  destruct (groupRacesIntoEvents (fun _ => NaN)
      [mkRace (mkRaceHeader "Boys Slalom" "2025-01-10" "Mt Kato" "SL") [];
       mkRace (mkRaceHeader "Girls GS" "2025-01-17" EmptyString "GS") [];
       mkRace (mkRaceHeader "Girls Slalom" "2025-01-10" EmptyString "SL") []]) as [evs|] eqn:E;
    [|vm_compute in E; discriminate E].
  exists evs. split; [reflexivity|].
  exact (proj1 (proj2 (groupRacesIntoEvents_by_date _ _) evs E)).
Defined.

(** X14.  In every event [groupRacesIntoEvents] returns, the discipline is
    that of the event's first race; the location is the first non-empty
    race location (empty if there is none); and the name is the
    gender-stripped name of one of its races, at least as long as the
    stripped name of each of them. *)
Theorem groupRacesIntoEvents_event_fields date_value races evs
    (H : groupRacesIntoEvents date_value races = Some evs) :
  forall e, In e evs ->
    (exists r rest, a_races e = r :: rest /\ a_discipline e = h_discipline (header r))
    /\ a_location e = match find (fun r => negb (h_location (header r) =? EmptyString)%string)
                               (a_races e) with
                    | Some r => h_location (header r)
                    | None => EmptyString
                    end
    /\ (exists r, In r (a_races e) /\ a_name e = stripGenderFromName (h_name (header r)))
    /\ forall r, In r (a_races e) ->
         (String.length (stripGenderFromName (h_name (header r))) <= String.length (a_name e))%nat.
Proof.
  destruct (groupRacesIntoEvents_spec date_value races) as [_ HS].
  intros e He. destruct (HS evs H) as (_ & _ & H3). exact (proj2 (H3 e He)).
Qed.

Lemma groupRacesIntoEvents_event_fields_witness :
  exists evs,
    groupRacesIntoEvents (fun _ => NaN)
      [mkRace (mkRaceHeader "Boys Slalom" "2025-01-10" EmptyString "SL") [];
       mkRace (mkRaceHeader "Girls Slalom Invite" "2025-01-10" "Mt Kato" "SL") []] = Some evs
    /\ forall e, In e evs ->
         exists r, In r (a_races e) /\ a_name e = stripGenderFromName (h_name (header r)).
Proof.
  destruct (groupRacesIntoEvents (fun _ => NaN)
      [mkRace (mkRaceHeader "Boys Slalom" "2025-01-10" EmptyString "SL") [];
       mkRace (mkRaceHeader "Girls Slalom Invite" "2025-01-10" "Mt Kato" "SL") []]) as [evs|] eqn:E;
    [|vm_compute in E; discriminate E].
  exists evs. split; [reflexivity|].
  intros e He. exact (proj1 (proj2 (proj2 (groupRacesIntoEvents_event_fields _ _ _ E e He)))).
Defined.
